(** * erl: client-side rate limiting for outgoing HTTP requests

    A shallow embedding of the accounting core of [github.com/ryhazerus/erl]
    (pattern matcher, window bucketing, counter stores, limiter) followed by
    the properties its specification states about it.

    Conventions.
    - Go [string]s are byte sequences: Rocq [string]s (lists of 8-bit
      [ascii]).
    - Go [int64] and [int] values are [Z]; where the code does arithmetic on
      them ([count++]) the two's-complement wrap-around is written out with
      [wrap64].
    - [map[string]*bucket], the SQL table keyed by its primary key and the
      Redis key space are [gmap string _].
    - A method with a pointer receiver takes the receiver's state and returns
      the new state next to the Go results.
    - A Go [error] result is an [option error], [None] being [nil]. *)

From Stdlib Require Import ZArith Lia Bool List.
From Stdlib Require Import Strings.String Strings.Ascii.
From Stdlib Require Import Numbers.DecimalString Numbers.DecimalN Numbers.DecimalZ.
From stdpp Require Import base decidable option list strings gmap fin_maps.

Local Open Scope string_scope.
Local Open Scope Z_scope.

(** String concatenation computes under [simpl] in this development. *)
#[local] Arguments String.append !_ _ / : simpl nomatch.

(* ===================================================================== *)
(** * Go strings and integers *)
(* ===================================================================== *)

Module GoStrings.

(** [s[n:]] for [n <= len(s)]. *)
Fixpoint slice_from (n : nat) (s : string) : string :=
  match n, s with
  | O, _ => s
  | S n', String _ s' => slice_from n' s'
  | S _, EmptyString => EmptyString
  end.

(** [s[:n]] for [n <= len(s)]. *)
Fixpoint slice_to (n : nat) (s : string) : string :=
  match n, s with
  | O, _ => EmptyString
  | S n', String c s' => String c (slice_to n' s')
  | S _, EmptyString => EmptyString
  end.

(** [strings.HasPrefix(s, prefix)]:
    [len(s) >= len(prefix) && s[:len(prefix)] == prefix]. *)
Definition HasPrefix (s prefix : string) : bool :=
  (String.length prefix <=? String.length s)%nat
  && String.eqb (slice_to (String.length prefix) s) prefix.

(** [strings.HasSuffix(s, suffix)]:
    [len(s) >= len(suffix) && s[len(s)-len(suffix):] == suffix]. *)
Definition HasSuffix (s suffix : string) : bool :=
  (String.length suffix <=? String.length s)%nat
  && String.eqb (slice_from (String.length s - String.length suffix) s) suffix.

(** [strings.TrimSuffix(s, suffix)]. *)
Definition TrimSuffix (s suffix : string) : string :=
  if HasSuffix s suffix
  then slice_to (String.length s - String.length suffix) s
  else s.

(** [strings.TrimRight(s, "/")]: drop every trailing ['/'] byte. *)
Fixpoint TrimRight_slash (s : string) : string :=
  match s with
  | EmptyString => EmptyString
  | String c s' =>
      match TrimRight_slash s' with
      | EmptyString => if Ascii.eqb c "/" then EmptyString else String c EmptyString
      | r => String c r
      end
  end.

(** [n] copies of the byte [c]. *)
Fixpoint repeat_byte (c : ascii) (n : nat) : string :=
  match n with
  | O => EmptyString
  | S n' => String c (repeat_byte c n')
  end.

End GoStrings.

Module GoInt.

Definition min_int64 : Z := - 2 ^ 63.
Definition max_int64 : Z := 2 ^ 63 - 1.

Definition in_int64 (z : Z) : bool := (min_int64 <=? z) && (z <=? max_int64).

(** The value an [int64] holds after an operation whose mathematical result
    is [z]. *)
Definition wrap64 (z : Z) : Z := (z + 2 ^ 63) mod 2 ^ 64 - 2 ^ 63.

(** Decimal digits of a natural number, no sign, ["0"] for zero. *)
Definition digits (n : N) : string := NilEmpty.string_of_uint (N.to_uint n).

(** Canonical decimal text of an integer, as [strconv.FormatInt(z, 10)],
    Redis' [ll2string] and Lua's [tostring] on integers print it. *)
Definition FormatInt (z : Z) : string := NilEmpty.string_of_int (Z.to_int z).

(** [strconv.ParseInt(s, 10, 64)]: an optional sign, then one or more
    decimal digits, the value within [int64]; [None] is a [*NumError]. *)
Definition ParseInt (s : string) : option Z :=
  match s with
  | EmptyString => None
  | String c s' =>
      let '(neg, body) :=
        if Ascii.eqb c "+" then (false, s')
        else if Ascii.eqb c "-" then (true, s')
        else (false, s) in
      match body with
      | EmptyString => None
      | _ =>
          match NilEmpty.uint_of_string body with
          | None => None
          | Some u =>
              let n := Z.of_N (N.of_uint u) in
              let z := if neg then - n else n in
              if in_int64 z then Some z else None
          end
      end
  end.

End GoInt.

(* ===================================================================== *)
(** * matcher.go *)
(* ===================================================================== *)

Module Matcher.
Import GoStrings.

(** The loop
    [for i := 0; i <= len(str); i++ { if f(str[i:]) { return true } }]
    followed by [return false]: it visits the suffixes of [str] from the
    whole string down to the empty one. *)
Fixpoint any_suffix (f : string -> bool) (str : string) : bool :=
  if f str then true
  else match str with
       | EmptyString => false
       | String _ str' => any_suffix f str'
       end.

(** The body of [wildcardMatch] after its first test: the
    [for len(pattern) > 0] loop and the final [return len(str) == 0].
    A recursive call [wildcardMatch(pattern, str[i:])] enters the function
    anew, hence passes the [pattern == "*"] test again. *)
Fixpoint wildcardLoop (pattern str : string) {struct pattern} : bool :=
  match pattern with
  | EmptyString => (String.length str =? 0)%nat
  | String p0 rest =>
      if Ascii.eqb p0 "*" then
        (* pattern = pattern[1:] *)
        if (String.length rest =? 0)%nat then true
        else any_suffix
               (fun tail => if String.eqb rest "*" then true
                            else wildcardLoop rest tail)
               str
      else
        match str with
        | EmptyString => false
        | String s0 str' =>
            if negb (Ascii.eqb p0 s0) then false
            else wildcardLoop rest str'
        end
  end.

Definition wildcardMatch (pattern str : string) : bool :=
  if String.eqb pattern "*" then true else wildcardLoop pattern str.

Definition globMatch (pattern value : string) : bool :=
  if String.eqb pattern value then true
  else if HasSuffix pattern "/*"
          && (let prefix := TrimSuffix pattern "/*" in
              String.eqb value prefix || HasPrefix value (prefix +:+ "/"))
  then true
  else wildcardMatch pattern value.

(** What [matchURL] reads of a parsed [*url.URL]. *)
Record URL := { Host : string; Path : string }.

(** [net/url.Parse] belongs to the Go standard library and is a parameter
    of [matchURL]; [None] is a parse error. *)
Definition matchURL (url_Parse : string -> option URL)
    (rawURL pattern : string) : bool :=
  match url_Parse rawURL with
  | None => false
  | Some parsed =>
      let hostPath := Host parsed +:+ Path parsed in
      let hostPath := TrimRight_slash hostPath in
      let pattern := TrimRight_slash pattern in
      globMatch pattern hostPath
  end.

(** Declarative reading of the glob language, after the specification: a
    byte other than ['*'] stands for itself, a ['*'] stands for any string,
    the empty one and those containing ['/'] included. *)
Inductive Matches : string -> string -> Prop :=
| M_nil : Matches "" ""
| M_byte c p v : c <> "*"%char -> Matches p v -> Matches (String c p) (String c v)
| M_star p m v : Matches p v -> Matches (String "*" p) (m +:+ v).

End Matcher.

(* ===================================================================== *)
(** * The part of package [time] the code uses *)
(* ===================================================================== *)

Module GoTime.
Import GoStrings GoInt.

(** [time.Duration]: a count of nanoseconds. *)
Definition Duration := Z.

Definition Nanosecond : Duration := 1.
Definition Second : Duration := 1000000000.
Definition Minute : Duration := 60 * Second.
Definition Hour : Duration := 60 * Minute.

(** A [time.Time] denotes an instant and carries a location. Every [Time]
    the package looks at has been through [t.UTC()] or comes from
    [time.Date(..., time.UTC)], so the model keeps the instant only:
    nanoseconds since 1970-01-01T00:00:00Z. *)
Definition Time := Z.

Definition UTC (t : Time) : Time := t.

Definition Add (t : Time) (d : Duration) : Time := t + d.

(** Whole seconds since the Unix epoch, and whole days. *)
Definition unixSec (t : Time) : Z := t / Second.
Definition unixDay (t : Time) : Z := unixSec t / 86400.

(** Proleptic Gregorian calendar: day number (days since 1970-01-01) of
    the civil date [y]-[m]-[d], for [1 <= m <= 12]. The year is counted
    from March so that the leap day comes last. *)
Definition days_from_civil (y m d : Z) : Z :=
  let y' := if m <=? 2 then y - 1 else y in
  let era := y' / 400 in
  let yoe := y' - era * 400 in
  let mp := (m + 9) mod 12 in
  let doy := (153 * mp + 2) / 5 + d - 1 in
  let doe := yoe * 365 + yoe / 4 - yoe / 100 + doy in
  era * 146097 + doe - 719468.

(** The civil date (year, month, day) of a day number. *)
Definition civil_from_days (z : Z) : Z * Z * Z :=
  let z' := z + 719468 in
  let era := z' / 146097 in
  let doe := z' - era * 146097 in
  let yoe := (doe - doe / 1460 + doe / 36524 - doe / 146096) / 365 in
  let doy := doe - (365 * yoe + yoe / 4 - yoe / 100) in
  let mp := (5 * doy + 2) / 153 in
  let d := doy - (153 * mp + 2) / 5 + 1 in
  let m := if mp <? 10 then mp + 3 else mp - 9 in
  let y := yoe + era * 400 in
  (if m <=? 2 then y + 1 else y, m, d).

(** [t.Year()], [t.Month()], [t.Day()], [t.Hour()], [t.Minute()],
    [t.Second()], [t.Nanosecond()] of a UTC time. *)
Definition Time_Year (t : Time) : Z := (civil_from_days (unixDay t)).1.1.
Definition Time_Month (t : Time) : Z := (civil_from_days (unixDay t)).1.2.
Definition Time_Day (t : Time) : Z := (civil_from_days (unixDay t)).2.
Definition Time_Hour (t : Time) : Z := (unixSec t mod 86400) / 3600.
Definition Time_Minute (t : Time) : Z := (unixSec t mod 3600) / 60.
Definition Time_Second (t : Time) : Z := unixSec t mod 60.
Definition Time_Nanosecond (t : Time) : Z := t mod Second.

(** [time.Date(year, month, day, hour, min, sec, nsec, time.UTC)]. The
    month is normalised into the year; hours, minutes, seconds and
    nanoseconds out of their usual ranges carry over, which on the linear
    scale of instants is plain addition. *)
Definition Date (year month day hour min sec nsec : Z) : Time :=
  let m0 := month - 1 in
  let year' := year + m0 / 12 in
  let month' := m0 mod 12 + 1 in
  let d := days_from_civil year' month' 1 + (day - 1) in
  (d * 86400 + hour * 3600 + min * 60 + sec) * Second + nsec.

(** [appendInt(b, x, width)] of [time/format.go]: the decimal text of [x],
    zero-padded to [width] digits, after a ['-'] when [x] is negative. *)
Definition appendInt (x : Z) (width : nat) : string :=
  let u := digits (Z.to_N (Z.abs x)) in
  let padded := repeat_byte "0" (width - String.length u) +:+ u in
  if x <? 0 then String "-" padded else padded.

(** The layout elements the package's layouts are made of. *)
Inductive chunk :=
| stdLongYear                (* "2006" *)
| stdZeroMonth               (* "01" *)
| stdZeroDay                 (* "02" *)
| stdHour                    (* "15" *)
| stdZeroMinute              (* "04" *)
| literal (s : string).

Definition format_chunk (t : Time) (c : chunk) : string :=
  match c with
  | stdLongYear => appendInt (Time_Year t) 4
  | stdZeroMonth => appendInt (Time_Month t) 2
  | stdZeroDay => appendInt (Time_Day t) 2
  | stdHour => appendInt (Time_Hour t) 2
  | stdZeroMinute => appendInt (Time_Minute t) 2
  | literal s => s
  end.

(** [t.Format(layout)], the layout given by its elements. *)
Definition Format (t : Time) (layout : list chunk) : string :=
  foldr (fun c acc => format_chunk t c +:+ acc) "" layout.

(** The four layouts of window.go. *)
Definition layout_minute : list chunk :=         (* "2006-01-02T15:04" *)
  [stdLongYear; literal "-"; stdZeroMonth; literal "-"; stdZeroDay;
   literal "T"; stdHour; literal ":"; stdZeroMinute].
Definition layout_hour : list chunk :=           (* "2006-01-02T15" *)
  [stdLongYear; literal "-"; stdZeroMonth; literal "-"; stdZeroDay;
   literal "T"; stdHour].
Definition layout_day : list chunk :=            (* "2006-01-02" *)
  [stdLongYear; literal "-"; stdZeroMonth; literal "-"; stdZeroDay].
Definition layout_month : list chunk :=          (* "2006-01" *)
  [stdLongYear; literal "-"; stdZeroMonth].

End GoTime.

(* ===================================================================== *)
(** * window.go *)
(* ===================================================================== *)

Module Window.
Import GoTime.

(** [type Window int]. *)
Definition t := Z.

Definition PerMinute : t := 0.
Definition PerHour : t := 1.
Definition PerDay : t := 2.
Definition PerMonth : t := 3.

Definition Duration (w : t) : GoTime.Duration :=
  if w =? PerMinute then Minute
  else if w =? PerHour then Hour
  else if w =? PerDay then 24 * Hour
  else if w =? PerMonth then 30 * 24 * Hour
  else Hour.

Definition BucketKey (w : t) (t0 : Time) : string :=
  let t0 := UTC t0 in
  if w =? PerMinute then Format t0 layout_minute
  else if w =? PerHour then Format t0 layout_hour
  else if w =? PerDay then Format t0 layout_day
  else if w =? PerMonth then Format t0 layout_month
  else Format t0 layout_hour.

Definition BucketStart (w : t) (t0 : Time) : Time :=
  let t0 := UTC t0 in
  if w =? PerMinute then
    Date (Time_Year t0) (Time_Month t0) (Time_Day t0) (Time_Hour t0) (Time_Minute t0) 0 0
  else if w =? PerHour then
    Date (Time_Year t0) (Time_Month t0) (Time_Day t0) (Time_Hour t0) 0 0 0
  else if w =? PerDay then
    Date (Time_Year t0) (Time_Month t0) (Time_Day t0) 0 0 0 0
  else if w =? PerMonth then
    Date (Time_Year t0) (Time_Month t0) 1 0 0 0 0
  else
    Date (Time_Year t0) (Time_Month t0) (Time_Day t0) (Time_Hour t0) 0 0 0.

End Window.

(* ===================================================================== *)
(** * strategy.go, resource.go *)
(* ===================================================================== *)

Module Strategy.

(** [type Strategy int]. *)
Definition t := Z.

Definition Block : t := 0.
Definition BlockWithQueue : t := 1.
Definition LogOnly : t := 2.

Definition String (s : t) : string :=
  if s =? Block then "Block"
  else if s =? BlockWithQueue then "BlockWithQueue"
  else if s =? LogOnly then "LogOnly"
  else "Unknown".

End Strategy.

Record Resource := {
  Name : string;          (* unique identifier *)
  Pattern : string;       (* URL match pattern *)
  Limit : Z;              (* int64: max calls allowed in the window *)
  Window : Window.t;
  Strategy : Strategy.t
}.

#[global] Instance Resource_eq_dec : EqDecision Resource.
Proof. solve_decision. Defined.

(* ===================================================================== *)
(** * Errors *)
(* ===================================================================== *)

(** The error values that flow through the package. [ErrLimitExceeded] is
    the sentinel [errors.New("erl: rate limit exceeded")];
    [LimitExceededError] is a [*LimitExceededError]; [Errorf prefix err] is
    [fmt.Errorf(prefix + "%w", err)]; [ErrorString] is any other leaf error
    (a cancelled context, a closed database handle, a Redis reply). *)
Inductive error :=
| ErrLimitExceeded
| LimitExceededError (Resource : Resource) (Current : Z) (resetAt : GoTime.Time)
| Errorf (prefix : string) (err : error)
| ErrorString (msg : string).

#[global] Instance error_eq_dec : EqDecision error.
Proof. solve_decision. Defined.

(** [(e *LimitExceededError) Error()], and the text of the other errors. *)
Fixpoint Error (e : error) : string :=
  match e with
  | ErrLimitExceeded => "erl: rate limit exceeded"
  | LimitExceededError r cur _ =>
      "erl: rate limit exceeded for " +:+ Name r +:+ " ("
        +:+ GoInt.FormatInt cur +:+ "/" +:+ GoInt.FormatInt (Limit r) +:+ ")"
  | Errorf prefix err => prefix +:+ Error err
  | ErrorString msg => msg
  end.

(** [errors.Unwrap]: the [Unwrap] method of a [LimitExceededError] returns the sentinel,
    [fmt.Errorf] with [%w] returns the wrapped error. *)
Definition Unwrap (e : error) : option error :=
  match e with
  | LimitExceededError _ _ _ => Some ErrLimitExceeded
  | Errorf _ err => Some err
  | ErrLimitExceeded | ErrorString _ => None
  end.

(** [errors.Is(err, target)]: walk the [Unwrap] chain of [err] until a
    link equals [target]. The chain below a [LimitExceededError] is the
    sentinel alone, which is why the recursion is structural. *)
Fixpoint errors_Is (err target : error) : bool :=
  if bool_decide (err = target) then true
  else match err with
       | LimitExceededError _ _ _ => bool_decide (ErrLimitExceeded = target)
       | Errorf _ err' => errors_Is err' target
       | ErrLimitExceeded | ErrorString _ => false
       end.

(** [context.Context], as far as a store looks at it: [ctx.Err()]. *)
Record Context := { ctx_Err : option error }.

Definition Background : Context := {| ctx_Err := None |}.
Definition Canceled : error := ErrorString "context canceled".

(* ===================================================================== *)
(** * Package store: the interface *)
(* ===================================================================== *)

Module store.

(** [store.Window]. *)
Record Window := {
  Duration : GoTime.Duration;
  BucketKey : string;
  BucketStart : GoTime.Time
}.

(** [type Store interface]. Each method takes the receiver's state first
    and returns the Go results with the receiver's new state. *)
Class Store (S : Type) := {
  Increment : S -> Context -> string -> Window -> (Z * option error) * S;
  Get : S -> Context -> string -> Window -> (Z * option error) * S;
  Reset : S -> Context -> string -> option error * S;
  Close : S -> option error * S
}.

End store.

(* ===================================================================== *)
(** * MemoryStore *)
(* ===================================================================== *)

Module MemoryStore.
Import GoInt store.

Record bucket := { count : Z; bucketKey : string }.

#[global] Instance bucket_eq_dec : EqDecision bucket.
Proof. solve_decision. Defined.

(** [MemoryStore]: the map behind the mutex. A [*bucket] is reachable from
    its map slot only, so the map holds the bucket itself. *)
Record t := { buckets : gmap string bucket }.

Definition NewMemoryStore : t := {| buckets := ∅ |}.

Definition Increment (m : t) (_ : Context) (key : string) (w : Window)
    : (Z * option error) * t :=
  let fresh := {| count := 0; bucketKey := BucketKey w |} in
  let '(b, m1) :=
    match buckets m !! key with
    | Some b =>
        if negb (String.eqb (bucketKey b) (BucketKey w))
        then (fresh, <[key := fresh]> (buckets m))
        else (b, buckets m)
    | None => (fresh, <[key := fresh]> (buckets m))
    end in
  (* b.count++ through the pointer held in the map *)
  let b' := {| count := wrap64 (count b + 1); bucketKey := bucketKey b |} in
  ((count b', None), {| buckets := <[key := b']> m1 |}).

Definition Get (m : t) (_ : Context) (key : string) (w : Window)
    : (Z * option error) * t :=
  match buckets m !! key with
  | Some b =>
      if negb (String.eqb (bucketKey b) (BucketKey w)) then ((0, None), m)
      else ((count b, None), m)
  | None => ((0, None), m)
  end.

Definition Reset (m : t) (_ : Context) (key : string) : option error * t :=
  (None, {| buckets := delete key (buckets m) |}).

Definition Close (m : t) : option error * t := (None, m).

#[global] Instance MemoryStore_Store : Store t :=
  {| store.Increment := Increment; store.Get := Get;
     store.Reset := Reset; store.Close := Close |}.

End MemoryStore.

(* ===================================================================== *)
(** * SQLiteStore *)
(* ===================================================================== *)

Module SQLiteStore.
Import GoInt store.

(** A row of [erl_counters] without its primary key. *)
Record row := { count : Z; bucket_key : string; window_seconds : Z }.

#[global] Instance row_eq_dec : EqDecision row.
Proof. solve_decision. Defined.

(** The database behind [*sql.DB]: the table [erl_counters] indexed by its
    primary key [key], and whether the handle has been closed. *)
Record t := { erl_counters : gmap string row; closed : bool }.

(** The table is the one found in the database file; it is empty for a
    new file and for [":memory:"]. *)
Definition NewSQLiteStore (table : gmap string row) : t :=
  {| erl_counters := table; closed := false |}.

Definition errDBClosed : error := ErrorString "sql: database is closed".

(** Obtaining a connection, the first step of [BeginTx], [QueryRowContext]
    and [ExecContext]: it fails on a closed handle and on a context that
    is done. Once a connection is held the statements of the model
    succeed. *)
Definition conn (s : t) (ctx : Context) : option error :=
  if closed s then Some errDBClosed else ctx_Err ctx.

(** [int64(w.Duration.Seconds())]. The conversion goes through [float64];
    it is exact for a whole number of seconds, which is what the windows
    of package erl have. The column is written and never read back. *)
Definition seconds_int64 (d : GoTime.Duration) : Z := Z.quot d GoTime.Second.

Definition Increment (s : t) (ctx : Context) (key : string) (w : Window)
    : (Z * option error) * t :=
  match conn s ctx with
  | Some err => ((0, Some err), s)                      (* BeginTx *)
  | None =>
      match erl_counters s !! key with                  (* SELECT *)
      | None =>
          (* sql.ErrNoRows: INSERT ... VALUES (?, 1, ?, ?); return 1, tx.Commit() *)
          let r := {| count := 1; bucket_key := BucketKey w;
                      window_seconds := seconds_int64 (Duration w) |} in
          ((1, None),
           {| erl_counters := <[key := r]> (erl_counters s); closed := closed s |})
      | Some r0 =>
          let count0 :=
            if negb (String.eqb (bucket_key r0) (BucketKey w)) then 0
            else count r0 in
          let count1 := wrap64 (count0 + 1) in
          (* UPDATE ... SET count = ?, bucket_key = ?, window_seconds = ? *)
          let r := {| count := count1; bucket_key := BucketKey w;
                      window_seconds := seconds_int64 (Duration w) |} in
          ((count1, None),
           {| erl_counters := <[key := r]> (erl_counters s); closed := closed s |})
      end
  end.

Definition Get (s : t) (ctx : Context) (key : string) (w : Window)
    : (Z * option error) * t :=
  match conn s ctx with
  | Some err => ((0, Some err), s)
  | None =>
      match erl_counters s !! key with
      | None => ((0, None), s)                          (* sql.ErrNoRows *)
      | Some r =>
          if negb (String.eqb (bucket_key r) (BucketKey w)) then ((0, None), s)
          else ((count r, None), s)
      end
  end.

Definition Reset (s : t) (ctx : Context) (key : string) : option error * t :=
  match conn s ctx with
  | Some err => (Some err, s)
  | None =>
      (None, {| erl_counters := delete key (erl_counters s); closed := closed s |})
  end.

(** [db.Close()]; closing a closed handle is a no-op. *)
Definition Close (s : t) : option error * t :=
  (None, {| erl_counters := erl_counters s; closed := true |}).

#[global] Instance SQLiteStore_Store : Store t :=
  {| store.Increment := Increment; store.Get := Get;
     store.Reset := Reset; store.Close := Close |}.

End SQLiteStore.

(* ===================================================================== *)
(** * RedisStore *)
(* ===================================================================== *)

Module RedisStore.
Import GoInt store.

(** A Redis key holding a hash: its fields, and the time to live set by
    [EXPIRE], if any. *)
Record entry := { fields : gmap string string; ttl : option Z }.

(** The Redis key space as it stands when a command arrives (entries whose
    time to live has run out are gone from it), and whether the client has
    been closed. *)
Record t := { keyspace : gmap string entry; client_closed : bool }.

Definition NewRedisStore (server : gmap string entry) : t :=
  {| keyspace := server; client_closed := false |}.

Definition redisKey (key : string) : string := "erl:" +:+ key.

Definition ErrClosed : error := ErrorString "redis: client is closed".

(** Taking a connection from the client's pool. *)
Definition conn (r : t) (ctx : Context) : option error :=
  if client_closed r then Some ErrClosed else ctx_Err ctx.

(** Redis' [string2ll], which [HINCRBY] reads the field with: the text must
    be the canonical decimal text of an [int64]. *)
Definition string2ll (s : string) : option Z :=
  match NilEmpty.int_of_string s with
  | Some d =>
      let z := Z.of_int d in
      if String.eqb (FormatInt z) s && in_int64 z then Some z else None
  | None => None
  end.

Definition ttl_seconds (d : GoTime.Duration) : Z := Z.quot d GoTime.Second.

(** [incrementScript], run atomically by the server. The result is the
    integer reply or the error that aborted the script. *)
Definition incrementScript (ks : gmap string entry) (key bucket_key : string)
    (ttl0 : Z) : (Z + error) * gmap string entry :=
  let old := ks !! key in
  (* local current_bucket = redis.call("HGET", key, "bucket_key") *)
  let current_bucket := old ≫= fun e => fields e !! "bucket_key" in
  if negb (bool_decide (current_bucket = Some bucket_key)) then
    (* HSET key count 1 bucket_key <bucket_key>; EXPIRE key ttl when ttl > 0 *)
    let f0 := from_option fields ∅ old in
    let f1 := <["bucket_key" := bucket_key]> (<["count" := "1"]> f0) in
    let ttl1 := if ttl0 >? 0 then Some ttl0 else old ≫= ttl in
    (inl 1, <[key := {| fields := f1; ttl := ttl1 |}]> ks)
  else
    (* HINCRBY key count 1 *)
    match old with
    | None => (inl 1, ks)   (* not reached: current_bucket would be nil *)
    | Some e =>
        let cur :=
          match fields e !! "count" with
          | None => Some 0
          | Some s => string2ll s
          end in
        match cur with
        | None => (inr (ErrorString "ERR hash value is not an integer"), ks)
        | Some v =>
            if v + 1 >? max_int64
            then (inr (ErrorString "ERR increment or decrement would overflow"), ks)
            else (inl (v + 1),
                  <[key := {| fields := <["count" := FormatInt (v + 1)]> (fields e);
                              ttl := ttl e |}]> ks)
        end
    end.

Definition Increment (r : t) (ctx : Context) (key : string) (w : Window)
    : (Z * option error) * t :=
  let ttl0 := ttl_seconds (Duration w) in
  match conn r ctx with
  | Some err => ((0, Some (Errorf "erl/store/redis: increment: " err)), r)
  | None =>
      match incrementScript (keyspace r) (redisKey key) (BucketKey w) ttl0 with
      | (inr err, ks) =>
          ((0, Some (Errorf "erl/store/redis: increment: " err)),
           {| keyspace := ks; client_closed := client_closed r |})
      | (inl result, ks) =>
          ((result, None), {| keyspace := ks; client_closed := client_closed r |})
      end
  end.

Definition Get (r : t) (ctx : Context) (key : string) (w : Window)
    : (Z * option error) * t :=
  match conn r ctx with
  | Some err => ((0, Some (Errorf "erl/store/redis: get: " err)), r)
  | None =>
      (* vals, err := r.client.HGetAll(ctx, redisKey(key)).Result() *)
      let vals := from_option fields ∅ (keyspace r !! redisKey key) in
      if (size vals =? 0)%nat then ((0, None), r)
      else if negb (String.eqb (default "" (vals !! "bucket_key")) (BucketKey w))
      then ((0, None), r)
      else
        match ParseInt (default "" (vals !! "count")) with
        | None =>
            ((0, Some (Errorf "erl/store/redis: parse count: "
                         (ErrorString "strconv.ParseInt: invalid syntax"))), r)
        | Some count => ((count, None), r)
        end
  end.

Definition Reset (r : t) (ctx : Context) (key : string) : option error * t :=
  match conn r ctx with
  | Some err => (Some err, r)
  | None =>
      (None, {| keyspace := delete (redisKey key) (keyspace r);
                client_closed := client_closed r |})
  end.

(** [client.Close()]; closing a closed client reports [ErrClosed]. *)
Definition Close (r : t) : option error * t :=
  if client_closed r then (Some ErrClosed, r)
  else (None, {| keyspace := keyspace r; client_closed := true |}).

#[global] Instance RedisStore_Store : Store t :=
  {| store.Increment := Increment; store.Get := Get;
     store.Reset := Reset; store.Close := Close |}.

End RedisStore.

(* ===================================================================== *)
(** * TieredStore *)
(* ===================================================================== *)

Module TieredStore.
Import store.

Section Tiered.
Context {P : Type} `{!Store P}.

(** The persistent backend is held by reference; its state travels with
    the tiered store and is handed on with [persistent]. *)
Record t := { memory : MemoryStore.t; persistent : P }.

Definition NewTieredStore (p : P) : t :=
  {| memory := MemoryStore.NewMemoryStore; persistent := p |}.

Definition Increment (ts : t) (ctx : Context) (key : string) (w : Window)
    : (Z * option error) * t :=
  let '((count, err), p1) := store.Increment (persistent ts) ctx key w in
  match err with
  | Some e => ((0, Some e), {| memory := memory ts; persistent := p1 |})
  | None =>
      (* t.memory.Increment(ctx, key, w), its results dropped *)
      let '(_, m1) := MemoryStore.Increment (memory ts) ctx key w in
      ((count, None), {| memory := m1; persistent := p1 |})
  end.

Definition Get (ts : t) (ctx : Context) (key : string) (w : Window)
    : (Z * option error) * t :=
  let '((count, err), m1) := MemoryStore.Get (memory ts) ctx key w in
  match err with
  | Some e => ((0, Some e), {| memory := m1; persistent := persistent ts |})
  | None =>
      if count >? 0 then
        ((count, None), {| memory := m1; persistent := persistent ts |})
      else
        let '((count, err), p1) := store.Get (persistent ts) ctx key w in
        match err with
        | Some e => ((0, Some e), {| memory := m1; persistent := p1 |})
        | None =>
            let m2 :=
              if count >? 0 then
                {| MemoryStore.buckets :=
                     <[key := {| MemoryStore.count := count;
                                 MemoryStore.bucketKey := BucketKey w |}]>
                       (MemoryStore.buckets m1) |}
              else m1 in
            ((count, None), {| memory := m2; persistent := p1 |})
        end
  end.

Definition Reset (ts : t) (ctx : Context) (key : string) : option error * t :=
  let '(_, m1) := MemoryStore.Reset (memory ts) ctx key in
  let '(err, p1) := store.Reset (persistent ts) ctx key in
  (err, {| memory := m1; persistent := p1 |}).

Definition Close (ts : t) : option error * t :=
  let '(err, p1) := store.Close (persistent ts) in
  (err, {| memory := memory ts; persistent := p1 |}).

#[global] Instance TieredStore_Store : Store t :=
  {| store.Increment := Increment; store.Get := Get;
     store.Reset := Reset; store.Close := Close |}.

End Tiered.

Arguments t P : clear implicits.

End TieredStore.

(* ===================================================================== *)
(** * The limiter *)
(* ===================================================================== *)

Module Limiter.

Section Limiter.
(** The limiter works over any store [S]. The limit-reached callback is a
    Go function run for its effects on the host program: a transformer of
    the host's state [H]. [url_Parse] is [net/url.Parse]. *)
Context {S : Type} {StoreS : store.Store S} {H : Type}.
Variable url_Parse : string -> option Matcher.URL.

Record t := {
  resources : list Resource;
  store : S;
  onLimitReached : option (Resource -> Z -> H -> H)
}.

(** [New(opts...)]: [WithStore] and [WithOnLimitReached] fix the store and
    the callback; without [WithStore] the store is [NewMemoryStore()]. *)
Definition New (s : S) (cb : option (Resource -> Z -> H -> H)) : t :=
  {| resources := []; store := s; onLimitReached := cb |}.

Definition Register (l : t) (r : Resource) : t :=
  {| resources := resources l ++ [r]; store := store l;
     onLimitReached := onLimitReached l |}.

Definition with_store (l : t) (s : S) : t :=
  {| resources := resources l; store := s; onLimitReached := onLimitReached l |}.

(** The window of resource [r] at the instant [now]. *)
Definition window_at (r : Resource) (now : GoTime.Time) : store.Window :=
  {| store.Duration := Window.Duration (Window r);
     store.BucketKey := Window.BucketKey (Window r) now;
     store.BucketStart := Window.BucketStart (Window r) now |}.

(** The [for _, r := range l.resources] loop of [Check]. [now] is what
    [time.Now()] returns in the iteration that matches. *)
Fixpoint Check_range (rs : list Resource) (l : t) (ctx : Context)
    (now : GoTime.Time) (rawURL : string) (h : H) : option error * t * H :=
  match rs with
  | [] => (None, l, h)                         (* no matching resource; allow *)
  | r :: rs' =>
      if negb (Matcher.matchURL url_Parse rawURL (Pattern r)) then
        Check_range rs' l ctx now rawURL h
      else
        let w := window_at r now in
        let '((current, err), s1) := store.Increment (store l) ctx (Name r) w in
        let l1 := with_store l s1 in
        match err with
        | Some e => (Some (Errorf "erl: store error: " e), l1, h)
        | None =>
            if current >? Limit r then
              let h1 :=
                match onLimitReached l with
                | Some callback => callback r current h
                | None => h
                end in
              if Strategy r =? Strategy.Block then
                (Some (LimitExceededError r current
                         (GoTime.Add (store.BucketStart w) (store.Duration w))), l1, h1)
              else if Strategy r =? Strategy.BlockWithQueue then
                (Some (LimitExceededError r current
                         (GoTime.Add (store.BucketStart w) (store.Duration w))), l1, h1)
              else if Strategy r =? Strategy.LogOnly then
                (None, l1, h1)
              else
                (* no case of the switch applies *)
                (None, l1, h1)
            else
              (None, l1, h)
        end
  end.

Definition Check (l : t) (ctx : Context) (now : GoTime.Time) (rawURL : string)
    (h : H) : option error * t * H :=
  Check_range (resources l) l ctx now rawURL h.

(** [strconv.Quote], which the verb [%q] of [fmt.Errorf] applies to the
    name. *)
Variable strconv_Quote : string -> string.

Fixpoint GetUsage_range (rs : list Resource) (l : t) (ctx : Context)
    (now : GoTime.Time) (name : string) : (Z * option error) * t :=
  match rs with
  | [] =>
      ((0, Some (ErrorString
                   ("erl: resource " +:+ strconv_Quote name +:+ " not found"))), l)
  | r :: rs' =>
      if String.eqb (Name r) name then
        let '(res, s1) := store.Get (store l) ctx (Name r) (window_at r now) in
        (res, with_store l s1)
      else GetUsage_range rs' l ctx now name
  end.

Definition GetUsage (l : t) (ctx : Context) (now : GoTime.Time) (name : string)
    : (Z * option error) * t :=
  GetUsage_range (resources l) l ctx now name.

Definition ResetUsage (l : t) (ctx : Context) (name : string) : option error * t :=
  let '(err, s1) := store.Reset (store l) ctx name in (err, with_store l s1).

Definition Resources (l : t) : list Resource := resources l.

Definition Close (l : t) : option error * t :=
  let '(err, s1) := store.Close (store l) in (err, with_store l s1).

(** A run of sequential [Check] calls, one per (instant, URL) pair; the
    errors come back in call order. *)
Fixpoint Check_seq (l : t) (ctx : Context) (calls : list (GoTime.Time * string))
    (h : H) : list (option error) * t * H :=
  match calls with
  | [] => ([], l, h)
  | (now, rawURL) :: calls' =>
      let '(err, l1, h1) := Check l ctx now rawURL h in
      let '(errs, l2, h2) := Check_seq l1 ctx calls' h1 in
      (err :: errs, l2, h2)
  end.

End Limiter.

Arguments t S H : clear implicits.

End Limiter.

(* ===================================================================== *)
(** * The Store contract *)
(* ===================================================================== *)

Module Contract.
Import GoInt.

(** The count a stored entry stands for in the bucket [bk]: the stored
    count when the stored bucket key is [bk], zero otherwise (lazy reset)
    and zero when there is no entry. *)
Definition counted (e : option (Z * string)) (bk : string) : Z :=
  match e with
  | Some (c, bk') => if String.eqb bk' bk then c else 0
  | None => 0
  end.

(** A backend that counts: [entry s key] is the (count, bucket key) pair
    the backend holds for [key]; [healthy] singles out the states in which
    the backend answers (handle open, stored counts that are [int64]s). *)
Class Counting (S : Type) {StoreS : store.Store S} := {
  healthy : S -> Prop;
  entry : S -> string -> option (Z * string);
  Increment_contract (s : S) (ctx : Context) (key : string) (w : store.Window) :
    healthy s -> ctx_Err ctx = None ->
    counted (entry s key) (store.BucketKey w) < max_int64 ->
    exists s',
      store.Increment s ctx key w
        = ((counted (entry s key) (store.BucketKey w) + 1, None), s')
      /\ healthy s'
      /\ entry s' key
         = Some (counted (entry s key) (store.BucketKey w) + 1, store.BucketKey w)
      /\ forall key', key' <> key -> entry s' key' = entry s key'
}.


(** A counting backend whose [Get] reads the entry back and leaves the
    state alone. *)
Class Reading (S : Type) {StoreS : store.Store S} {C : Counting S} := {
  Get_contract (s : S) (ctx : Context) (key : string) (w : store.Window) :
    healthy s -> ctx_Err ctx = None ->
    store.Get s ctx key w = ((counted (entry s key) (store.BucketKey w), None), s)
}.

End Contract.

(** ** What each backend holds for a key *)

Module MemoryView.
Import GoInt.

Definition entry (m : MemoryStore.t) (key : string) : option (Z * string) :=
  (fun b => (MemoryStore.count b, MemoryStore.bucketKey b))
    <$> MemoryStore.buckets m !! key.

(** Every stored count is an [int64]. *)
Definition healthy (m : MemoryStore.t) : Prop :=
  forall key b, MemoryStore.buckets m !! key = Some b ->
    min_int64 <= MemoryStore.count b <= max_int64.

End MemoryView.

Module SQLiteView.
Import GoInt.

Definition entry (s : SQLiteStore.t) (key : string) : option (Z * string) :=
  (fun r => (SQLiteStore.count r, SQLiteStore.bucket_key r))
    <$> SQLiteStore.erl_counters s !! key.

(** The handle is open and every [count] column holds an [int64]. *)
Definition healthy (s : SQLiteStore.t) : Prop :=
  SQLiteStore.closed s = false
  /\ forall key r, SQLiteStore.erl_counters s !! key = Some r ->
       min_int64 <= SQLiteStore.count r <= max_int64.

End SQLiteView.

Module RedisView.
Import GoInt.

(** The pair read off the hash at [redisKey key]: both fields present and
    the count a decimal [int64]. *)
Definition entry (r : RedisStore.t) (key : string) : option (Z * string) :=
  e ← RedisStore.keyspace r !! RedisStore.redisKey key;
  bk ← RedisStore.fields e !! "bucket_key";
  cs ← RedisStore.fields e !! "count";
  c ← ParseInt cs;
  Some (c, bk).

(** The client is open and every hash is one the store wrote: it has a
    bucket key and a count in canonical decimal text. *)
Definition healthy (r : RedisStore.t) : Prop :=
  RedisStore.client_closed r = false
  /\ forall k e, RedisStore.keyspace r !! k = Some e ->
       exists c bk,
         RedisStore.fields e !! "count" = Some (FormatInt c)
         /\ RedisStore.fields e !! "bucket_key" = Some bk
         /\ min_int64 <= c <= max_int64.

End RedisView.

Module TieredView.

(** What the memory tier answers for [key] in [w]. *)
Definition memory_count {P : Type} (ts : TieredStore.t P) (key : string)
    (w : store.Window) : Z :=
  Contract.counted (MemoryView.entry (TieredStore.memory ts) key) (store.BucketKey w).

(** The memory tier after a backfill of [count] for [key] in [w]. *)
Definition backfilled (m : MemoryStore.t) (key : string) (w : store.Window)
    (count : Z) : MemoryStore.t :=
  {| MemoryStore.buckets :=
       <[key := {| MemoryStore.count := count;
                   MemoryStore.bucketKey := store.BucketKey w |}]>
         (MemoryStore.buckets m) |}.

End TieredView.

Module LimiterView.

Section View.
Context {S : Type} {StoreS : store.Store S} {H : Type}.
Variable url_Parse : string -> option Matcher.URL.

(** [r] is the resource a check of [rawURL] is charged to: the first
    registered resource whose pattern matches. *)
Definition first_match (l : Limiter.t S H) (rawURL : string) (r : Resource) : Prop :=
  exists pre post,
    Limiter.resources l = (pre ++ r :: post)%list
    /\ Forall (fun r' => Matcher.matchURL url_Parse rawURL (Pattern r') = false) pre
    /\ Matcher.matchURL url_Parse rawURL (Pattern r) = true.

End View.

(** The instant the bucket of [r] that contains [now] resets: bucket start
    plus window duration. *)
Definition reset_at (r : Resource) (now : GoTime.Time) : GoTime.Time :=
  GoTime.Add (Window.BucketStart (Window r) now) (Window.Duration (Window r)).

(** The effect on the host of invoking the callback, if one is set. *)
Definition fire {H : Type} (cb : option (Resource -> Z -> H -> H))
    (r : Resource) (count : Z) (h : H) : H :=
  match cb with
  | Some callback => callback r count h
  | None => h
  end.

(** The host after the checks that counted [counts], one after the other,
    have been through the [current > r.Limit] branch of [Check]. *)
Definition notified {H : Type} (cb : option (Resource -> Z -> H -> H))
    (r : Resource) (h : H) (counts : list Z) : H :=
  foldl (fun h n => if n >? Limit r then fire cb r n h else h) h counts.

End LimiterView.

(* ===================================================================== *)
(** * Test data *)
(* ===================================================================== *)

Module Fixtures.

(** A stand-in for [url.Parse] on URLs of the shape
    [scheme://host[/path][?query]], enough to run the model on the URLs of
    the package's tests. *)
Fixpoint skip_scheme (s : string) : string :=
  match s with
  | String ":" (String "/" (String "/" rest)) => rest
  | String _ s' => skip_scheme s'
  | EmptyString => EmptyString
  end.

Fixpoint take_until (stop : ascii -> bool) (s : string) : string :=
  match s with
  | EmptyString => EmptyString
  | String c s' => if stop c then EmptyString else String c (take_until stop s')
  end.

Fixpoint drop_until (stop : ascii -> bool) (s : string) : string :=
  match s with
  | EmptyString => EmptyString
  | String c s' => if stop c then s else drop_until stop s'
  end.

Definition url_Parse (rawURL : string) : option Matcher.URL :=
  let rest := skip_scheme rawURL in
  let is_slash c := Ascii.eqb c "/" in
  let is_query c := Ascii.eqb c "?" in
  let no_query := take_until is_query rest in
  Some {| Matcher.Host := take_until is_slash no_query;
          Matcher.Path := drop_until is_slash no_query |}.

(** The window of store/memory_test.go, 2024-01-15T14:30 UTC, and the one
    after it. *)
Definition w1 : store.Window :=
  {| store.Duration := GoTime.Minute;
     store.BucketKey := "2024-01-15T14:30";
     store.BucketStart := GoTime.Date 2024 1 15 14 30 0 0 |}.

Definition w2 : store.Window :=
  {| store.Duration := GoTime.Minute;
     store.BucketKey := "2024-01-15T14:31";
     store.BucketStart := GoTime.Date 2024 1 15 14 31 0 0 |}.

(** One [Increment] of [key] per window of the list, in order, on a live
    context: the counts returned and the store left behind. *)
Fixpoint increments {S : Type} {StoreS : store.Store S} (s : S) (key : string)
    (ws : list store.Window) : list Z * S :=
  match ws with
  | [] => ([], s)
  | w :: ws' =>
      let '((count, _), s1) := store.Increment s Background key w in
      let '(counts, s2) := increments s1 key ws' in
      (count :: counts, s2)
  end.

(** A SQLite database whose counter for ["key"] stands at [c] in [w1];
    with [c = 3] it is the database of TestTieredStorePersistentFallback
    after its three writes. *)
Definition durable (c : Z) : SQLiteStore.t :=
  {| SQLiteStore.erl_counters :=
       {[ "key" := {| SQLiteStore.count := c;
                      SQLiteStore.bucket_key := "2024-01-15T14:30";
                      SQLiteStore.window_seconds := 60 |} ]};
     SQLiteStore.closed := false |}.

(** A database handle after [Close()]. *)
Definition closed_db : SQLiteStore.t :=
  {| SQLiteStore.erl_counters := ∅; SQLiteStore.closed := true |}.

(** The resource of TestLimiterBlockStrategy. *)
Definition test_api : Resource :=
  {| Name := "test-api"; Pattern := "api.test.com/*"; Limit := 3;
     Window := Window.PerMinute; Strategy := Strategy.Block |}.

(** An instant within the minute 2024-01-15T14:30 UTC, and the URL the
    test checks. *)
Definition now0 : GoTime.Time := GoTime.Date 2024 1 15 14 30 12 0.
Definition url0 : string := "https://api.test.com/v1/foo".

(** A limit-reached callback that records its invocations. *)
Definition record_call (r : Resource) (current : Z) (log : list (Resource * Z))
    : list (Resource * Z) :=
  (log ++ [(r, current)])%list.

(** [New(WithOnLimitReached(record_call))] with [test_api] registered. *)
Definition limiter0 : Limiter.t MemoryStore.t (list (Resource * Z)) :=
  Limiter.Register (Limiter.New MemoryStore.NewMemoryStore (Some record_call))
    test_api.

(** The limiter after three checks of [url0]. *)
Definition limiter3 : Limiter.t MemoryStore.t (list (Resource * Z)) :=
  (Limiter.Check_seq url_Parse limiter0 Background
     [(now0, url0); (now0, url0); (now0, url0)] []).1.2.

End Fixtures.

(* ===================================================================== *)
(** * The rest of the limiter: Snapshot and the transport *)
(* ===================================================================== *)

Module ResourceStatus.

(** [type ResourceStatus struct]. *)
Record t := { Resource : Resource; Current : Z }.

End ResourceStatus.

Module Introspection.

Section Snapshot.
Context {S : Type} {StoreS : store.Store S} {H : Type}.

(** The [for _, r := range l.resources] loop of [Snapshot]; [out] is the
    slice built so far and [now] the one [time.Now()] taken before the
    loop. The first failing [Get] ends the loop with a nil slice
    ([None]) and the wrapped error. *)
Fixpoint Snapshot_range (rs : list Resource) (l : Limiter.t S H) (ctx : Context)
    (now : GoTime.Time) (out : list ResourceStatus.t)
    : (option (list ResourceStatus.t) * option error) * Limiter.t S H :=
  match rs with
  | [] => ((Some out, None), l)
  | r :: rs' =>
      let w := Limiter.window_at r now in
      let '((current, err), s1) := store.Get (Limiter.store l) ctx (Name r) w in
      let l1 := Limiter.with_store l s1 in
      match err with
      | Some e =>
          ((None, Some (Errorf ("erl: snapshot " +:+ Name r +:+ ": ") e)), l1)
      | None =>
          Snapshot_range rs' l1 ctx now
            (out ++ [{| ResourceStatus.Resource := r;
                        ResourceStatus.Current := current |}])
      end
  end.

Definition Snapshot (l : Limiter.t S H) (ctx : Context) (now : GoTime.Time)
    : (option (list ResourceStatus.t) * option error) * Limiter.t S H :=
  Snapshot_range (Limiter.resources l) l ctx now [].

End Snapshot.

End Introspection.

Module Transport.

(** What the transport reads of an [*http.Request]: [req.Context()] and
    [req.URL.String()]. *)
Record Request := { Context : Context; URL : string }.

Section RoundTrip.
Context {S : Type} {StoreS : store.Store S} {H : Type} {Response : Type}.
Variable url_Parse : string -> option Matcher.URL.

(** The wrapped [http.RoundTripper]: sending a request acts on the host's
    world and yields a response or an error. *)
Variable base : Request -> H -> (option Response * option error) * H.

(** [(t *transport) RoundTrip(req)]; [now] is what [time.Now()] returns
    inside [Check]. *)
Definition RoundTrip (l : Limiter.t S H) (now : GoTime.Time) (req : Request)
    (h : H) : (option Response * option error) * Limiter.t S H * H :=
  let '(err, l1, h1) := Limiter.Check url_Parse l (Context req) now (URL req) h in
  match err with
  | Some e => ((None, Some e), l1, h1)
  | None =>
      let '(res, h2) := base req h1 in
      (res, l1, h2)
  end.

End RoundTrip.

End Transport.

(* ===================================================================== *)
(** * More of the Store contract *)
(* ===================================================================== *)

Module ContractMore.
Import Contract.

(** A counting backend whose [Reset] deletes the counter of the key and
    nothing else. *)
Class Resetting (S : Type) {StoreS : store.Store S} {C : Counting S} := {
  Reset_contract (s : S) (ctx : Context) (key : string) :
    healthy s -> ctx_Err ctx = None ->
    exists s',
      store.Reset s ctx key = (None, s')
      /\ healthy s'
      /\ entry s' key = None
      /\ forall key', key' <> key -> entry s' key' = entry s key'
}.

(** The Reset clause for a backend with state [S] observed through
    [healthy] and [entry]: [Reset] succeeds, removes the counter of the
    key and no other; afterwards [Get] reads 0 and [Increment] counts 1
    in any window, and a second [Reset] changes nothing. *)
Definition Reset_clears (S : Type) {StoreS : store.Store S}
    (healthy : S -> Prop) (entry : S -> string -> option (Z * string)) : Prop :=
  forall (s : S) (ctx : Context) (key : string),
    healthy s -> ctx_Err ctx = None ->
    exists s1,
      store.Reset s ctx key = (None, s1)
      /\ healthy s1
      /\ entry s1 key = None
      /\ (forall key', key' <> key -> entry s1 key' = entry s key')
      /\ (forall w, (store.Get s1 ctx key w).1 = (0, None))
      /\ (forall w, (store.Increment s1 ctx key w).1 = (1, None))
      /\ store.Reset s1 ctx key = (None, s1).

(** The two tiers of a tiered store hold the same (count, bucket key)
    pair for [key]. *)
Definition in_sync {P : Type} {StoreP : store.Store P} {C : Counting P}
    (ts : TieredStore.t P) (key : string) : Prop :=
  MemoryView.entry (TieredStore.memory ts) key
  = entry (TieredStore.persistent ts) key.

(** Both tiers answer and agree on every key. *)
Definition tiers_agree {P : Type} {StoreP : store.Store P} {C : Counting P}
    (ts : TieredStore.t P) : Prop :=
  MemoryView.healthy (TieredStore.memory ts)
  /\ healthy (TieredStore.persistent ts)
  /\ forall key, in_sync ts key.

End ContractMore.

Module UsageView.

(** [r] is the resource [GetUsage] reads for [name]: the first registered
    resource of that name. *)
Definition first_named {S H : Type} (l : Limiter.t S H) (name : string)
    (r : Resource) : Prop :=
  exists pre post,
    Limiter.resources l = (pre ++ r :: post)%list
    /\ Forall (fun r' => Name r' <> name) pre
    /\ Name r = name.

(** The status [Snapshot] reports for [r] at [now], read off the store's
    entry. *)
Definition status_at {S : Type} {StoreS : store.Store S} {C : Contract.Counting S}
    (s : S) (now : GoTime.Time) (r : Resource) : ResourceStatus.t :=
  {| ResourceStatus.Resource := r;
     ResourceStatus.Current :=
       Contract.counted (Contract.entry s (Name r))
         (Window.BucketKey (Window r) now) |}.

End UsageView.

Module TimeView.

(** Reading a number back from the text [appendInt] prints: an optional
    ['-'], then decimal digits, leading zeros allowed. *)
Definition atoi (s : string) : Z :=
  let magnitude (body : string) : Z :=
    Z.of_N (N.of_uint (default Decimal.Nil (NilEmpty.uint_of_string body))) in
  match s with
  | String c s' => if Ascii.eqb c "-" then - magnitude s' else magnitude s
  | EmptyString => 0
  end.

End TimeView.

Module MatcherView.

(** No byte of the string is ['*']. *)
Fixpoint star_free (s : string) : bool :=
  match s with
  | EmptyString => true
  | String c s' => negb (Ascii.eqb c "*") && star_free s'
  end.

End MatcherView.

Module MoreFixtures.

(** A resource that matches every URL that parses. *)
Definition catch_all : Resource :=
  {| Name := "all"; Pattern := "*"; Limit := 0;
     Window := Window.PerMinute; Strategy := Strategy.Block |}.

(** The resource of TestLimiterLogOnlyStrategy. *)
Definition log_api : Resource :=
  {| Name := "log-api"; Pattern := "api.logged.com/*"; Limit := 1;
     Window := Window.PerMinute; Strategy := Strategy.LogOnly |}.

(** [strconv.Quote] on names that need no escaping. *)
Definition quote (s : string) : string :=
  String (ascii_of_nat 34) (s +:+ String (ascii_of_nat 34) EmptyString).

(** A round tripper that answers 200 and leaves the host alone. *)
Definition ok_base (req : Transport.Request) (h : list (Resource * Z))
    : (option Z * option error) * list (Resource * Z) :=
  ((Some 200, None), h).

End MoreFixtures.

(* ##################################################################### *)
(** * Properties

    From here on the file states and proves what the specification says
    about the code embedded above. *)
(* ##################################################################### *)

(* ===================================================================== *)
(** * Properties of the pattern matcher *)
(* ===================================================================== *)

Section MatcherProps.
Import GoStrings Matcher.

Lemma string_app_nil_r (s : string) : s +:+ "" = s.
Proof. induction s as [|c s IH]; simpl; [reflexivity | now rewrite IH]. Qed.

Lemma length_zero_iff (s : string) : (String.length s =? 0)%nat = true <-> s = "".
Proof. destruct s; simpl; split; intros; congruence. Qed.

(** The scan over split points succeeds exactly when some suffix is
    accepted. *)
Lemma any_suffix_true (f : string -> bool) (str : string) :
  any_suffix f str = true <-> exists m tail, str = m +:+ tail /\ f tail = true.
Proof.
  induction str as [|c str IH]; simpl.
  - destruct (f "") eqn:E; split.
    + intros _. exists "", "". auto.
    + auto.
    + discriminate.
    + intros (m & tail & Hs & Hf).
      destruct m, tail; simpl in Hs; try discriminate. congruence.
  - destruct (f (String c str)) eqn:E; split.
    + intros _. exists "", (String c str). auto.
    + auto.
    + intros H. apply IH in H as (m & tail & -> & Hf).
      exists (String c m), tail. auto.
    + intros (m & tail & Hs & Hf). apply IH.
      destruct m as [|c' m]; simpl in Hs.
      * subst tail. congruence.
      * injection Hs as -> ->. eauto.
Qed.

(** The first test of [wildcardMatch] is subsumed by its loop. *)
Lemma wildcardMatch_loop (pattern str : string) :
  wildcardMatch pattern str = wildcardLoop pattern str.
Proof.
  unfold wildcardMatch. destruct (String.eqb_spec pattern "*") as [->|]; reflexivity.
Qed.

Lemma Matches_star_inv (p s : string) :
  Matches (String "*" p) s -> exists m v, s = m +:+ v /\ Matches p v.
Proof.
  inversion 1; subst.
  - congruence.
  - eauto.
Qed.

Lemma Matches_byte_inv (c : ascii) (p s : string) :
  c <> "*"%char -> Matches (String c p) s -> exists v, s = String c v /\ Matches p v.
Proof.
  intros Hc. inversion 1; subst.
  - eauto.
  - congruence.
Qed.

(** [wildcardLoop] decides the declarative glob relation. *)
Lemma wildcardLoop_Matches (pattern : string) :
  forall str, wildcardLoop pattern str = true <-> Matches pattern str.
Proof.
  induction pattern as [|p0 rest IH]; intros str; simpl.
  - rewrite length_zero_iff. split.
    + intros ->. constructor.
    + inversion 1. reflexivity.
  - destruct (Ascii.eqb_spec p0 "*") as [->|Hne].
    + destruct ((String.length rest =? 0)%nat) eqn:Hlen.
      * apply length_zero_iff in Hlen as ->. split; [intros _|reflexivity].
        rewrite <- (string_app_nil_r str). apply M_star. constructor.
      * rewrite any_suffix_true. split.
        -- intros (m & tail & -> & Hf). apply M_star. apply IH.
           destruct (String.eqb_spec rest "*") as [->|]; [reflexivity | exact Hf].
        -- intros HM. apply Matches_star_inv in HM as (m & v & -> & HM).
           exists m, v. split; [reflexivity|].
           destruct (String.eqb rest "*"); [reflexivity | now apply IH].
    + destruct str as [|s0 str'].
      * split; [discriminate|]. intros HM.
        apply Matches_byte_inv in HM as (v & Hv & _); [discriminate | assumption].
      * destruct (Ascii.eqb_spec p0 s0) as [->|Hne']; simpl.
        -- rewrite IH. split.
           ++ intros HM. now apply M_byte.
           ++ intros HM. apply Matches_byte_inv in HM as (v & Hv & HM); [|assumption].
              now injection Hv as ->.
        -- split; [discriminate|]. intros HM.
           apply Matches_byte_inv in HM as (v & Hv & _); [|assumption].
           congruence.
Qed.

Lemma wildcardMatch_Matches (pattern str : string) :
  wildcardMatch pattern str = true <-> Matches pattern str.
Proof. rewrite wildcardMatch_loop. apply wildcardLoop_Matches. Qed.

(** A pattern matches itself read as a value: each ['*'] absorbs the
    ['*'] byte facing it. *)
Lemma Matches_refl (s : string) : Matches s s.
Proof.
  induction s as [|c s IH]; [constructor|].
  destruct (Ascii.eqb_spec c "*") as [->|Hne].
  - change (String "*" s) with ("*" +:+ s) at 2. now apply M_star.
  - now apply M_byte.
Qed.

(** A common prefix can be put in front of pattern and value. *)
Lemma Matches_prefix (p q v : string) :
  Matches q v -> Matches (p +:+ q) (p +:+ v).
Proof.
  intros HM. induction p as [|c p IH]; simpl; [assumption|].
  destruct (Ascii.eqb_spec c "*") as [->|Hne].
  - change (String "*" (p +:+ v)) with ("*" +:+ (p +:+ v)). now apply M_star.
  - now apply M_byte.
Qed.

Lemma wildcardMatch_globMatch (pattern value : string) :
  wildcardMatch pattern value = true -> globMatch pattern value = true.
Proof.
  intros H. unfold globMatch.
  destruct (String.eqb pattern value); [reflexivity|].
  destruct (_ && _); [reflexivity | exact H].
Qed.

Lemma star_infix_Matches (p m s r : string) :
  Matches s r -> Matches (p +:+ "*" +:+ s) (p +:+ m +:+ r).
Proof. intros HM. apply Matches_prefix. simpl. now apply M_star. Qed.

(** Claim C6. A ['*'] inside a pattern stands for zero or more bytes,
    ['/'] included, and every split point is tried: the pattern
    [p ++ "*" ++ s] matches the value [p ++ m ++ s] for every [p], [m]
    (the empty string and strings with ['/'] included) and [s]; more
    generally it matches [p ++ m ++ r] whenever [s] matches the remainder
    [r]; and a pattern ["*" ++ s] matches [v] exactly when [s] matches
    some suffix of [v]. This holds of [wildcardMatch] and of [globMatch],
    which falls back on it. *)
Theorem star_matches_any_infix (p m s : string) :
  wildcardMatch (p +:+ "*" +:+ s) (p +:+ m +:+ s) = true
  /\ globMatch (p +:+ "*" +:+ s) (p +:+ m +:+ s) = true
  /\ (forall r, wildcardMatch s r = true ->
        wildcardMatch (p +:+ "*" +:+ s) (p +:+ m +:+ r) = true
        /\ globMatch (p +:+ "*" +:+ s) (p +:+ m +:+ r) = true)
  /\ (forall v, wildcardMatch ("*" +:+ s) v = true <->
        exists m' r, v = m' +:+ r /\ wildcardMatch s r = true).
Proof.
  assert (Hgen : forall r, wildcardMatch s r = true ->
            wildcardMatch (p +:+ "*" +:+ s) (p +:+ m +:+ r) = true).
  { intros r Hr. apply wildcardMatch_Matches, star_infix_Matches.
    now apply wildcardMatch_Matches. }
  assert (Hrefl : wildcardMatch s s = true)
    by apply wildcardMatch_Matches, Matches_refl.
  repeat split.
  - now apply Hgen.
  - now apply wildcardMatch_globMatch, Hgen.
  - now apply Hgen.
  - now apply wildcardMatch_globMatch, Hgen.
  - intros Hv. apply wildcardMatch_Matches in Hv. simpl in Hv.
    apply Matches_star_inv in Hv as (m' & r & -> & HM).
    exists m', r. split; [reflexivity | now apply wildcardMatch_Matches].
  - intros (m' & r & -> & Hr). apply wildcardMatch_Matches. simpl.
    apply M_star. now apply wildcardMatch_Matches.
Qed.

(** The claim at a concrete pattern: the star spans two path segments. *)
Lemma star_matches_any_infix_witness :
  wildcardMatch "/profile" "/profile" = true
  /\ wildcardMatch "api.example.com/*/profile" "api.example.com/v1/users/profile" = true
  /\ globMatch "api.example.com/*/profile" "api.example.com/v1/users/profile" = true.
Proof.
  split; [reflexivity|].
  apply (proj1 (proj2 (proj2 (star_matches_any_infix
           "api.example.com/" "v1/users" "/profile"))) "/profile").
  reflexivity.
Defined.

End MatcherProps.

(* ===================================================================== *)
(** * The backends honour the Store contract *)
(* ===================================================================== *)

Section Int64Facts.
Import GoInt.

Lemma wrap64_id (z : Z) : min_int64 <= z <= max_int64 -> wrap64 z = z.
Proof.
  unfold wrap64, min_int64, max_int64. intros Hz.
  rewrite Z.mod_small; lia.
Qed.

Lemma wrap64_succ (c : Z) :
  min_int64 <= c <= max_int64 -> c < max_int64 -> wrap64 (c + 1) = c + 1.
Proof. intros Hc Hlt. apply wrap64_id. lia. Qed.

Lemma wrap64_overflow : wrap64 (max_int64 + 1) = min_int64.
Proof. reflexivity. Qed.

End Int64Facts.

Section CountedFacts.
Import Contract.

Lemma counted_same (c : Z) (bk : string) : counted (Some (c, bk)) bk = c.
Proof. unfold counted. now rewrite String.eqb_refl. Qed.

Lemma counted_other (c : Z) (bk bk' : string) :
  bk' <> bk -> counted (Some (c, bk')) bk = 0.
Proof.
  intros Hne. unfold counted.
  destruct (String.eqb_spec bk' bk); [contradiction | reflexivity].
Qed.

Lemma counted_None (bk : string) : counted None bk = 0.
Proof. reflexivity. Qed.

End CountedFacts.

Section MemoryContract.
Import GoInt Contract MemoryStore.

(** What [Increment] does to the map, in one equation. *)
Lemma Memory_Increment_eq (m : t) (ctx : Context) (key : string) (w : store.Window) :
  let c := counted (MemoryView.entry m key) (store.BucketKey w) in
  Increment m ctx key w
  = ((wrap64 (c + 1), None),
     {| buckets := <[key := {| count := wrap64 (c + 1);
                               bucketKey := store.BucketKey w |}]> (buckets m) |}).
Proof.
  unfold Increment, MemoryView.entry, counted.
  destruct (buckets m !! key) as [b|] eqn:Hb; simpl.
  - destruct (String.eqb_spec (bucketKey b) (store.BucketKey w)) as [Heq|Hne]; simpl.
    + now rewrite Heq.
    + now rewrite insert_insert_eq.
  - now rewrite insert_insert_eq.
Qed.

Lemma Memory_Get_eq (m : t) (ctx : Context) (key : string) (w : store.Window) :
  Get m ctx key w
  = ((counted (MemoryView.entry m key) (store.BucketKey w), None), m).
Proof.
  unfold Get, MemoryView.entry, counted.
  destruct (buckets m !! key) as [b|]; simpl; [|reflexivity].
  now destruct (String.eqb (bucketKey b) (store.BucketKey w)).
Qed.

Lemma Memory_counted_range (m : t) (key bk : string) :
  MemoryView.healthy m ->
  min_int64 <= counted (MemoryView.entry m key) bk <= max_int64.
Proof.
  intros Hm. unfold MemoryView.entry, counted.
  destruct (buckets m !! key) as [b|] eqn:Hb; simpl.
  - destruct (String.eqb _ _); [eauto | unfold min_int64, max_int64; lia].
  - unfold min_int64, max_int64; lia.
Qed.

#[global] Instance Memory_Counting : Counting t.
Proof.
  refine {| healthy := MemoryView.healthy; entry := MemoryView.entry |}.
  intros m ctx key w Hm _ Hlt.
  pose proof (Memory_counted_range m key (store.BucketKey w) Hm) as Hr.
  change (store.Increment m ctx key w) with (Increment m ctx key w).
  rewrite (Memory_Increment_eq m ctx key w). cbv zeta.
  rewrite wrap64_succ by assumption.
  eexists. split; [reflexivity|]. split; [|split].
  - intros k b. simpl.
    destruct (decide (key = k)) as [->|Hne];
      [rewrite lookup_insert_eq | rewrite lookup_insert_ne by done; now apply Hm].
    intros [= <-]. simpl. lia.
  - unfold MemoryView.entry. simpl. now rewrite lookup_insert_eq.
  - intros key' Hne. unfold MemoryView.entry. simpl.
    now rewrite lookup_insert_ne by congruence.
Defined.

#[global] Instance Memory_Reading : Reading t.
Proof. constructor. intros m ctx key w _ _. apply Memory_Get_eq. Qed.

End MemoryContract.

Section SQLiteContract.
Import GoInt Contract SQLiteStore.

Lemma SQLite_conn_ok (s : t) (ctx : Context) :
  closed s = false -> ctx_Err ctx = None -> conn s ctx = None.
Proof. unfold conn. now intros -> ->. Qed.

Lemma SQLite_Increment_eq (s : t) (ctx : Context) (key : string) (w : store.Window) :
  conn s ctx = None ->
  let c := counted (SQLiteView.entry s key) (store.BucketKey w) in
  Increment s ctx key w
  = ((wrap64 (c + 1), None),
     {| erl_counters :=
          <[key := {| count := wrap64 (c + 1);
                      bucket_key := store.BucketKey w;
                      window_seconds := seconds_int64 (store.Duration w) |}]>
            (erl_counters s);
        closed := closed s |}).
Proof.
  intros Hconn. unfold Increment, SQLiteView.entry, counted. rewrite Hconn.
  destruct (erl_counters s !! key) as [r|]; simpl; [|reflexivity].
  now destruct (String.eqb (bucket_key r) (store.BucketKey w)).
Qed.

Lemma SQLite_Get_eq (s : t) (ctx : Context) (key : string) (w : store.Window) :
  conn s ctx = None ->
  Get s ctx key w
  = ((counted (SQLiteView.entry s key) (store.BucketKey w), None), s).
Proof.
  intros Hconn. unfold Get, SQLiteView.entry, counted. rewrite Hconn.
  destruct (erl_counters s !! key) as [r|]; simpl; [|reflexivity].
  now destruct (String.eqb (bucket_key r) (store.BucketKey w)).
Qed.

Lemma SQLite_counted_range (s : t) (key bk : string) :
  SQLiteView.healthy s ->
  min_int64 <= counted (SQLiteView.entry s key) bk <= max_int64.
Proof.
  intros [_ Hs]. unfold SQLiteView.entry, counted.
  destruct (erl_counters s !! key) as [r|] eqn:Hr; simpl.
  - destruct (String.eqb _ _); [eauto | unfold min_int64, max_int64; lia].
  - unfold min_int64, max_int64; lia.
Qed.

#[global] Instance SQLite_Counting : Counting t.
Proof.
  refine {| healthy := SQLiteView.healthy; entry := SQLiteView.entry |}.
  intros s ctx key w Hs Hctx Hlt.
  pose proof (SQLite_counted_range s key (store.BucketKey w) Hs) as Hr.
  destruct Hs as [Hopen Hs].
  change (store.Increment s ctx key w) with (Increment s ctx key w).
  rewrite (SQLite_Increment_eq s ctx key w) by now apply SQLite_conn_ok.
  cbv zeta. rewrite wrap64_succ by assumption.
  eexists. split; [reflexivity|]. split; [|split].
  - split; [exact Hopen|]. intros k r. simpl.
    destruct (decide (key = k)) as [->|Hne];
      [rewrite lookup_insert_eq | rewrite lookup_insert_ne by done; now apply Hs].
    intros [= <-]. simpl. lia.
  - unfold SQLiteView.entry. simpl. now rewrite lookup_insert_eq.
  - intros key' Hne. unfold SQLiteView.entry. simpl.
    now rewrite lookup_insert_ne by congruence.
Defined.

#[global] Instance SQLite_Reading : Reading t.
Proof.
  constructor. intros s ctx key w [Hopen _] Hctx.
  apply SQLite_Get_eq. now apply SQLite_conn_ok.
Qed.

End SQLiteContract.

Section DecimalFacts.
Import GoInt.

Lemma string_of_uint_head (u : Decimal.uint) :
  u <> Decimal.Nil ->
  exists c s, NilEmpty.string_of_uint u = String c s
              /\ Ascii.eqb c "+" = false /\ Ascii.eqb c "-" = false.
Proof. destruct u; intros Hu; try congruence; simpl; eauto. Qed.

(** Go reads back the decimal text Redis writes. *)
Lemma ParseInt_FormatInt (z : Z) :
  min_int64 <= z <= max_int64 -> ParseInt (FormatInt z) = Some z.
Proof.
  intros Hz.
  assert (Hin : in_int64 z = true).
  { unfold in_int64. apply andb_true_iff. split; apply Z.leb_le; lia. }
  destruct z as [|p|p]; [reflexivity| |].
  - change (FormatInt (Z.pos p)) with (NilEmpty.string_of_uint (Pos.to_uint p)).
    pose proof (NilEmpty.usu (Pos.to_uint p)) as Husu.
    pose proof (DecimalPos.Unsigned.of_to p) as Hof.
    destruct (string_of_uint_head (Pos.to_uint p)) as (c & s & Hs & Hp & Hm);
      [apply DecimalPos.Unsigned.to_uint_nonnil|].
    revert Husu Hof Hs. generalize (Pos.to_uint p) as u. intros u Husu Hof Hs.
    rewrite Hs in *. unfold ParseInt. rewrite Hp, Hm, Husu.
    unfold N.of_uint. rewrite Hof. cbv zeta.
    change (Z.of_N (N.pos p)) with (Z.pos p). now rewrite Hin.
  - change (FormatInt (Z.neg p))
      with (String "-" (NilEmpty.string_of_uint (Pos.to_uint p))).
    pose proof (NilEmpty.usu (Pos.to_uint p)) as Husu.
    pose proof (DecimalPos.Unsigned.of_to p) as Hof.
    destruct (string_of_uint_head (Pos.to_uint p)) as (c & s & Hs & Hp & Hm);
      [apply DecimalPos.Unsigned.to_uint_nonnil|].
    revert Husu Hof Hs. generalize (Pos.to_uint p) as u. intros u Husu Hof Hs.
    rewrite Hs in *. unfold ParseInt.
    change (Ascii.eqb "-" "+") with false.
    change (Ascii.eqb "-" "-") with true. cbv iota beta.
    rewrite Husu. unfold N.of_uint. rewrite Hof. cbv zeta.
    change (- Z.of_N (N.pos p)) with (Z.neg p). now rewrite Hin.
Qed.

(** [HINCRBY] reads back the decimal text Redis writes. *)
Lemma string2ll_FormatInt (z : Z) :
  min_int64 <= z <= max_int64 -> RedisStore.string2ll (FormatInt z) = Some z.
Proof.
  intros Hz. unfold RedisStore.string2ll, FormatInt.
  rewrite NilEmpty.isi, DecimalZ.of_to, String.eqb_refl. simpl.
  unfold in_int64.
  replace (min_int64 <=? z) with true by (symmetry; apply Z.leb_le; lia).
  replace (z <=? max_int64) with true by (symmetry; apply Z.leb_le; lia).
  reflexivity.
Qed.

End DecimalFacts.

Section RedisContract.
Import GoInt Contract RedisStore.

Lemma redisKey_inj (k k' : string) : redisKey k = redisKey k' -> k = k'.
Proof. unfold redisKey. simpl. congruence. Qed.

Lemma Redis_conn_ok (r : t) (ctx : Context) :
  client_closed r = false -> ctx_Err ctx = None -> conn r ctx = None.
Proof. unfold conn. now intros -> ->. Qed.

(** In a healthy store the entry of a key is what its hash spells. *)
Lemma Redis_entry_healthy (r : t) (key : string) :
  RedisView.healthy r ->
  match keyspace r !! redisKey key with
  | None => RedisView.entry r key = None
  | Some e => exists c bk,
      fields e !! "count" = Some (FormatInt c)
      /\ fields e !! "bucket_key" = Some bk
      /\ min_int64 <= c <= max_int64
      /\ RedisView.entry r key = Some (c, bk)
  end.
Proof.
  intros [_ Hwf]. unfold RedisView.entry.
  destruct (keyspace r !! redisKey key) as [e|] eqn:He; [|reflexivity].
  destruct (Hwf _ _ He) as (c & bk & Hc & Hbk & Hr).
  exists c, bk. repeat split; try assumption; try lia.
  simpl. rewrite Hbk. simpl. rewrite Hc. simpl.
  now rewrite ParseInt_FormatInt.
Qed.

Lemma Redis_counted_range (r : t) (key bk : string) :
  RedisView.healthy r ->
  min_int64 <= counted (RedisView.entry r key) bk <= max_int64.
Proof.
  intros Hr. pose proof (Redis_entry_healthy r key Hr) as He.
  destruct (keyspace r !! redisKey key) as [e|].
  - destruct He as (c & bk' & _ & _ & Hc & ->). unfold counted.
    destruct (String.eqb bk' bk); [assumption | unfold min_int64, max_int64; lia].
  - rewrite He. unfold counted, min_int64, max_int64. lia.
Qed.

(** The script on a healthy key space: the reply is the counted value plus
    one, and the hash at the key then spells that count in the window's
    bucket. *)
Lemma incrementScript_healthy (r : t) (key bk : string) (ttl0 : Z) :
  RedisView.healthy r ->
  counted (RedisView.entry r key) bk < max_int64 ->
  exists e',
    incrementScript (keyspace r) (redisKey key) bk ttl0
      = (inl (counted (RedisView.entry r key) bk + 1),
         <[redisKey key := e']> (keyspace r))
    /\ fields e' !! "count" = Some (FormatInt (counted (RedisView.entry r key) bk + 1))
    /\ fields e' !! "bucket_key" = Some bk.
Proof.
  intros Hr Hlt. pose proof (Redis_entry_healthy r key Hr) as He.
  unfold incrementScript.
  destruct (keyspace r !! redisKey key) as [e|] eqn:Hk.
  - destruct He as (c & bk' & Hc & Hbk & Hrange & Hentry).
    rewrite Hentry in *.
    destruct (decide (bk' = bk)) as [->|Hne].
    + rewrite counted_same in *. simpl. rewrite Hbk.
      rewrite bool_decide_eq_true_2 by reflexivity. simpl.
      rewrite Hc, string2ll_FormatInt by assumption.
      replace (c + 1 >? max_int64) with false
        by (symmetry; rewrite Z.gtb_ltb; apply Z.ltb_ge; lia).
      eexists. split; [reflexivity|]. simpl. split.
      * now rewrite lookup_insert_eq.
      * now rewrite lookup_insert_ne by discriminate.
    + rewrite counted_other in * by assumption. simpl. rewrite Hbk.
      rewrite bool_decide_eq_false_2 by congruence. simpl.
      eexists. split; [reflexivity|]. simpl. split.
      * rewrite lookup_insert_ne by discriminate. now rewrite lookup_insert_eq.
      * now rewrite lookup_insert_eq.
  - rewrite He. simpl.
    eexists. split; [reflexivity|]. simpl. split.
    + rewrite lookup_insert_ne by discriminate. now rewrite lookup_insert_eq.
    + now rewrite lookup_insert_eq.
Qed.

#[global] Instance Redis_Counting : Counting t.
Proof.
  refine {| Contract.healthy := RedisView.healthy;
            Contract.entry := RedisView.entry |}.
  intros r ctx key w Hr Hctx Hlt.
  pose proof (Redis_counted_range r key (store.BucketKey w) Hr) as Hrange.
  destruct (incrementScript_healthy r key (store.BucketKey w)
              (ttl_seconds (store.Duration w)) Hr Hlt) as (e' & Hscript & Hc & Hbk).
  destruct Hr as [Hopen Hwf].
  change (store.Increment r ctx key w) with (Increment r ctx key w).
  unfold Increment. rewrite Redis_conn_ok, Hscript by assumption.
  eexists. split; [reflexivity|]. split; [|split].
  - split; [exact Hopen|]. intros k e. simpl.
    destruct (decide (redisKey key = k)) as [<-|Hne];
      [rewrite lookup_insert_eq | rewrite lookup_insert_ne by done; now apply Hwf].
    intros [= <-]. eexists _, _. split; [exact Hc|]. split; [exact Hbk|]. lia.
  - unfold RedisView.entry. simpl. rewrite lookup_insert_eq. simpl.
    rewrite Hbk. simpl. rewrite Hc. simpl.
    rewrite ParseInt_FormatInt by lia. reflexivity.
  - intros key' Hne. unfold RedisView.entry. simpl.
    rewrite lookup_insert_ne; [reflexivity|].
    intros Heq. apply redisKey_inj in Heq. congruence.
Defined.

Lemma Redis_Get_eq (r : t) (ctx : Context) (key : string) (w : store.Window) :
  RedisView.healthy r -> ctx_Err ctx = None ->
  Get r ctx key w
  = ((counted (RedisView.entry r key) (store.BucketKey w), None), r).
Proof.
  intros Hr Hctx. pose proof (Redis_entry_healthy r key Hr) as He.
  unfold Get. rewrite Redis_conn_ok by (assumption || apply Hr).
  destruct (keyspace r !! redisKey key) as [e|] eqn:Hk; simpl.
  - destruct He as (c & bk & Hc & Hbk & Hrange & ->).
    assert (Hsize : (size (fields e) =? 0)%nat = false).
    { apply Nat.eqb_neq. intros H0. apply map_size_empty_inv in H0.
      rewrite H0, lookup_empty in Hc. discriminate. }
    rewrite Hsize, Hbk, Hc. simpl. unfold counted.
    destruct (String.eqb bk (store.BucketKey w)); simpl; [|reflexivity].
    now rewrite ParseInt_FormatInt.
  - rewrite He. reflexivity.
Qed.

#[global] Instance Redis_Reading : Reading t.
Proof. constructor. intros r ctx key w Hr Hctx. now apply Redis_Get_eq. Qed.

End RedisContract.

(* ===================================================================== *)
(** * Increment *)
(* ===================================================================== *)

Section IncrementProps.
Import GoInt Contract.

Lemma max_int64_pos : 2 < max_int64.
Proof. unfold max_int64. lia. Qed.



Lemma Memory_empty_healthy : MemoryView.healthy MemoryStore.NewMemoryStore.
Proof. intros key b. simpl. rewrite lookup_empty. discriminate. Qed.

Lemma SQLite_empty_healthy : SQLiteView.healthy (SQLiteStore.NewSQLiteStore ∅).
Proof.
  split; [reflexivity|]. intros key r. simpl. rewrite lookup_empty. discriminate.
Qed.



End IncrementProps.

(* ===================================================================== *)
(** * TieredStore *)
(* ===================================================================== *)

Section TieredProps.
Import GoInt Contract.
Import TieredStore TieredView.

(** Write-through makes the tiered store count as its persistent tier
    does. *)
#[global] Instance Tiered_Counting {P : Type} {StoreP : store.Store P}
    {C : Counting P} : Counting (TieredStore.t P).
Proof.
  refine {| Contract.healthy := fun ts => healthy (persistent ts);
            Contract.entry := fun ts => entry (persistent ts) |}.
  intros ts ctx key w Hs Hctx Hlt.
  destruct (Increment_contract (persistent ts) ctx key w Hs Hctx Hlt)
    as (p1 & Hinc & Hp1 & He & Hother).
  change (store.Increment ts ctx key w) with (Increment ts ctx key w).
  unfold Increment. rewrite Hinc.
  destruct (MemoryStore.Increment (memory ts) ctx key w) as [res m1].
  eexists. split; [reflexivity|]. simpl. auto.
Defined.

(** Claim C10. When the durable tier's [Increment] returns an error,
    [TieredStore.Increment] returns count 0 with that error and the memory
    tier is left exactly as it was: the mirrored increment is skipped. *)
Theorem Tiered_Increment_durable_error {P : Type} {StoreP : store.Store P}
    (ts : TieredStore.t P) (ctx : Context) (key : string) (w : store.Window)
    (count : Z) (e : error) (p1 : P) :
  store.Increment (persistent ts) ctx key w = ((count, Some e), p1) ->
  Increment ts ctx key w
    = ((0, Some e), {| memory := memory ts; persistent := p1 |})
  /\ memory (Increment ts ctx key w).2 = memory ts.
Proof.
  intros Hinc. unfold Increment. rewrite Hinc. split; reflexivity.
Qed.

(** A tiered store over a closed database, its memory tier holding a
    count of 2. *)
Lemma Tiered_Increment_durable_error_witness :
  let m := (MemoryStore.Increment
              (MemoryStore.Increment MemoryStore.NewMemoryStore
                 Background "key" Fixtures.w1).2 Background "key" Fixtures.w1).2 in
  let ts := {| memory := m; persistent := Fixtures.closed_db |} in
  Increment ts Background "key" Fixtures.w1
    = ((0, Some SQLiteStore.errDBClosed),
       {| memory := m; persistent := Fixtures.closed_db |})
  /\ memory (Increment ts Background "key" Fixtures.w1).2 = m.
Proof.
  intros m ts.
  apply (Tiered_Increment_durable_error ts Background "key" Fixtures.w1 0).
  reflexivity.
Defined.

Lemma Tiered_Get_hit {P : Type} {StoreP : store.Store P}
    (ts : TieredStore.t P) (ctx : Context) (key : string) (w : store.Window) :
  0 < memory_count ts key w ->
  Get ts ctx key w = ((memory_count ts key w, None), ts).
Proof.
  intros Hpos. unfold Get, memory_count in *. rewrite Memory_Get_eq.
  replace (_ >? 0) with true by (symmetry; apply Z.gtb_lt; lia).
  now destruct ts.
Qed.

Lemma Tiered_Get_miss {P : Type} {StoreP : store.Store P}
    (ts : TieredStore.t P) (ctx : Context) (key : string) (w : store.Window)
    (count : Z) (err : option error) (p1 : P) :
  memory_count ts key w <= 0 ->
  store.Get (persistent ts) ctx key w = ((count, err), p1) ->
  Get ts ctx key w
  = match err with
    | Some e => ((0, Some e), {| memory := memory ts; persistent := p1 |})
    | None =>
        ((count, None),
         {| memory := if count >? 0 then backfilled (memory ts) key w count
                      else memory ts;
            persistent := p1 |})
    end.
Proof.
  intros Hle Hget. unfold Get, memory_count in *. rewrite Memory_Get_eq.
  replace (_ >? 0) with false by (symmetry; rewrite Z.gtb_ltb; apply Z.ltb_ge; lia).
  rewrite Hget. destruct err; reflexivity.
Qed.

Lemma memory_count_fresh {P : Type} (p : P) (key : string) (w : store.Window) :
  memory_count (NewTieredStore p) key w = 0.
Proof. unfold memory_count, MemoryView.entry. simpl. now rewrite lookup_empty. Qed.

(** Claim C4. [TieredStore.Get] reads the memory tier first and returns
    its count when that count is positive, touching nothing. When the
    memory tier yields no positive count it returns what the durable
    tier's [Get] returns and, if that count is positive, stores exactly
    that count under the window's bucket key in the memory tier. Hence,
    after a write through a tiered store whose durable backend honours
    the Store contract, a fresh tiered store over the same backend
    returns from [Get] exactly the count that was written (and caches
    it). *)
Theorem Tiered_Get_fallback {P : Type} {StoreP : store.Store P}
    (ts : TieredStore.t P) (ctx : Context) (key : string) (w : store.Window) :
  (0 < memory_count ts key w ->
     Get ts ctx key w = ((memory_count ts key w, None), ts))
  /\ (forall count p1,
        memory_count ts key w <= 0 ->
        store.Get (persistent ts) ctx key w = ((count, None), p1) ->
        Get ts ctx key w
        = ((count, None),
           {| memory := if count >? 0 then backfilled (memory ts) key w count
                        else memory ts;
              persistent := p1 |}))
  /\ (forall (C : Counting P) (R : Reading P),
        healthy (persistent ts) -> ctx_Err ctx = None ->
        counted (entry (persistent ts) key) (store.BucketKey w) < max_int64 ->
        exists count ts',
          Increment ts ctx key w = ((count, None), ts')
          /\ count = counted (entry (persistent ts) key) (store.BucketKey w) + 1
          /\ Get (NewTieredStore (persistent ts')) ctx key w
             = ((count, None),
                {| memory := if count >? 0
                             then backfilled MemoryStore.NewMemoryStore key w count
                             else MemoryStore.NewMemoryStore;
                   persistent := persistent ts' |})).
Proof.
  split; [apply Tiered_Get_hit|]. split.
  - intros count p1 Hle Hget.
    now rewrite (Tiered_Get_miss ts ctx key w count None p1).
  - intros C R Hs Hctx Hlt.
    destruct (Increment_contract (persistent ts) ctx key w Hs Hctx Hlt)
      as (p1 & Hinc & Hp1 & He & _).
    unfold Increment at 1. rewrite Hinc.
    destruct (MemoryStore.Increment (memory ts) ctx key w) as [res m1].
    eexists _, _. split; [reflexivity|]. split; [reflexivity|]. simpl.
    rewrite (Tiered_Get_miss (NewTieredStore p1) ctx key w
               (counted (entry (persistent ts) key) (store.BucketKey w) + 1) None p1).
    + reflexivity.
    + rewrite memory_count_fresh. lia.
    + simpl. rewrite (Get_contract p1 ctx key w Hp1 Hctx), He.
      now rewrite counted_same.
Qed.

Lemma durable_healthy (c : Z) :
  min_int64 <= c <= max_int64 -> SQLiteView.healthy (Fixtures.durable c).
Proof.
  intros Hc. split; [reflexivity|]. intros key r. simpl.
  intros [_ <-]%lookup_singleton_Some. exact Hc.
Qed.

(** TestTieredStorePersistentFallback: the third write through the first
    tiered store, then a read through a fresh one. *)
Lemma Tiered_Get_fallback_witness :
  let ts1 := {| memory := MemoryStore.NewMemoryStore;
                persistent := Fixtures.durable 2 |} in
  exists count ts',
    Increment ts1 Background "key" Fixtures.w1 = ((count, None), ts')
    /\ count = counted (SQLiteView.entry (Fixtures.durable 2) "key")
                 "2024-01-15T14:30" + 1
    /\ Get (NewTieredStore (persistent ts')) Background "key" Fixtures.w1
       = ((count, None),
          {| memory := if count >? 0
                       then backfilled MemoryStore.NewMemoryStore "key" Fixtures.w1 count
                       else MemoryStore.NewMemoryStore;
             persistent := persistent ts' |}).
Proof.
  intros ts1.
  apply (proj2 (proj2 (Tiered_Get_fallback ts1 Background "key" Fixtures.w1))
           SQLite_Counting SQLite_Reading).
  - apply durable_healthy. unfold min_int64, max_int64. lia.
  - reflexivity.
  - vm_compute. reflexivity.
Defined.

End TieredProps.

(* ===================================================================== *)
(** * Get *)
(* ===================================================================== *)

Section GetProps.
Import GoInt Contract.
Import TieredStore TieredView.




(** The memory tier mirrors increments, not counts: a tiered store built
    over a database that already holds 3 answers 4 to the next
    [Increment] (the durable count) while its memory tier starts at 1,
    and that 1 is what a later [Get] returns. *)
Example Tiered_memory_tier_counts_from_one :
  let ts := (Increment (NewTieredStore (Fixtures.durable 3))
               Background "key" Fixtures.w1) in
  ts.1 = (4, None) /\ (Get ts.2 Background "key" Fixtures.w1).1 = (1, None).
Proof. vm_compute. split; reflexivity. Qed.



End GetProps.

(* ===================================================================== *)
(** * The limiter *)
(* ===================================================================== *)

Section LimiterProps.
Import GoInt Contract LimiterView.
Import Limiter.

Context {S : Type} {StoreS : store.Store S} {H : Type}.
Variable url_Parse : string -> option Matcher.URL.

Lemma Check_range_skip (pre rs : list Resource) (l : Limiter.t S H)
    (ctx : Context) (now : GoTime.Time) (rawURL : string) (h : H) :
  Forall (fun r' => Matcher.matchURL url_Parse rawURL (Pattern r') = false) pre ->
  Check_range url_Parse (pre ++ rs) l ctx now rawURL h
  = Check_range url_Parse rs l ctx now rawURL h.
Proof.
  induction 1 as [|r' pre Hr' _ IH]; simpl; [reflexivity|].
  now rewrite Hr'.
Qed.

(** One check charged to [r], the store answering [current]: the verdict
    and the states it leaves. *)
Lemma Check_charged (l : Limiter.t S H) (ctx : Context) (now : GoTime.Time)
    (rawURL : string) (h : H) (r : Resource) (current : Z) (s1 : S) :
  first_match url_Parse l rawURL r ->
  store.Increment (store l) ctx (Name r) (window_at r now) = ((current, None), s1) ->
  Check url_Parse l ctx now rawURL h
  = (if current >? Limit r then
       if (Strategy r =? Strategy.Block) || (Strategy r =? Strategy.BlockWithQueue)
       then Some (LimitExceededError r current (reset_at r now))
       else None
     else None,
     with_store l s1,
     if current >? Limit r then fire (onLimitReached l) r current h else h).
Proof.
  intros (pre & post & Hres & Hpre & Hr) Hinc.
  unfold Check. rewrite Hres at 1. rewrite Check_range_skip by assumption.
  simpl. rewrite Hr, Hinc. simpl.
  destruct (current >? Limit r); [|reflexivity].
  unfold fire, reset_at. simpl.
  destruct (Strategy r =? Strategy.Block); [reflexivity|].
  destruct (Strategy r =? Strategy.BlockWithQueue); [reflexivity|]. simpl.
  now destruct (Strategy r =? Strategy.LogOnly).
Qed.

Lemma Check_store_error (l : Limiter.t S H) (ctx : Context) (now : GoTime.Time)
    (rawURL : string) (h : H) (r : Resource) (current : Z) (e : error) (s1 : S) :
  first_match url_Parse l rawURL r ->
  store.Increment (store l) ctx (Name r) (window_at r now) = ((current, Some e), s1) ->
  Check url_Parse l ctx now rawURL h
  = (Some (Errorf "erl: store error: " e), with_store l s1, h).
Proof.
  intros (pre & post & Hres & Hpre & Hr) Hinc.
  unfold Check. rewrite Hres at 1. rewrite Check_range_skip by assumption.
  simpl. now rewrite Hr, Hinc.
Qed.

(** Either some registered resource is the first match of a URL or none
    matches. *)
Lemma first_match_dec (l : Limiter.t S H) (rawURL : string) :
  (exists r, first_match url_Parse l rawURL r)
  \/ Forall (fun r' => Matcher.matchURL url_Parse rawURL (Pattern r') = false)
       (resources l).
Proof.
  unfold first_match. induction (resources l) as [|r rs IH].
  - right. constructor.
  - destruct (Matcher.matchURL url_Parse rawURL (Pattern r)) eqn:Hr.
    + left. exists r, [], rs. auto.
    + destruct IH as [(r0 & pre & post & -> & Hpre & Hr0)|Hnone].
      * left. exists r0, (r :: pre), post. auto.
      * right. now constructor.
Qed.

Lemma Check_unmatched (l : Limiter.t S H) (ctx : Context) (now : GoTime.Time)
    (rawURL : string) (h : H) :
  Forall (fun r' => Matcher.matchURL url_Parse rawURL (Pattern r') = false)
    (resources l) ->
  Check url_Parse l ctx now rawURL h = (None, l, h).
Proof.
  intros Hnone. unfold Check.
  rewrite <- (app_nil_r (resources l)) at 1.
  now rewrite Check_range_skip.
Qed.

Lemma errors_Is_LimitExceeded (r : Resource) (current : Z) (t0 : GoTime.Time) :
  errors_Is (LimitExceededError r current t0) ErrLimitExceeded = true.
Proof. reflexivity. Qed.


(** Claim C7. Every error [Check] returns is either the wrapped error of
    the store or a limit-exceeded error; the latter carries the resource
    the check was charged to, the count the store returned and the reset
    instant of the bucket (bucket start plus window duration), it unwraps
    to the sentinel [ErrLimitExceeded], and [errors.Is] against the
    sentinel succeeds. Under [Block] and under [BlockWithQueue] alike a
    count above the limit yields exactly this error. *)
Theorem Check_limit_exceeded_error (l : Limiter.t S H) (ctx : Context)
    (now : GoTime.Time) (rawURL : string) (h : H) :
  (forall e, (Check url_Parse l ctx now rawURL h).1.1 = Some e ->
     exists r current err s1,
       first_match url_Parse l rawURL r
       /\ store.Increment (store l) ctx (Name r) (window_at r now)
          = ((current, err), s1)
       /\ ((exists e0, err = Some e0 /\ e = Errorf "erl: store error: " e0)
           \/ (err = None
               /\ e = LimitExceededError r current (reset_at r now)
               /\ current > Limit r
               /\ (Strategy r = Strategy.Block
                   \/ Strategy r = Strategy.BlockWithQueue)
               /\ Unwrap e = Some ErrLimitExceeded
               /\ errors_Is e ErrLimitExceeded = true)))
  /\ (forall r current s1,
        first_match url_Parse l rawURL r ->
        store.Increment (store l) ctx (Name r) (window_at r now)
          = ((current, None), s1) ->
        current > Limit r ->
        Strategy r = Strategy.Block \/ Strategy r = Strategy.BlockWithQueue ->
        (Check url_Parse l ctx now rawURL h).1.1
          = Some (LimitExceededError r current (reset_at r now))
        /\ errors_Is (LimitExceededError r current (reset_at r now))
             ErrLimitExceeded = true).
Proof.
  split.
  - intros e He.
    destruct (first_match_dec l rawURL) as [[r Hfirst]|Hnone];
      [|rewrite Check_unmatched in He by assumption; discriminate].
    destruct (store.Increment (store l) ctx (Name r) (window_at r now))
      as [[current err] s1] eqn:Hinc.
    exists r, current, err, s1. split; [assumption|]. split; [exact Hinc|].
    destruct err as [e0|].
    + rewrite (Check_store_error l ctx now rawURL h r current e0 s1) in He
        by assumption.
      left. exists e0. split; [reflexivity|]. simpl in He. congruence.
    + rewrite (Check_charged l ctx now rawURL h r current s1) in He by assumption.
      simpl in He. right. split; [reflexivity|].
      destruct (Z.gtb_spec current (Limit r)) as [Hgt|Hle]; [|discriminate].
      destruct (Z.eqb_spec (Strategy r) Strategy.Block) as [HB|HB]; simpl in He.
      * injection He as <-. repeat split; auto. lia.
      * destruct (Z.eqb_spec (Strategy r) Strategy.BlockWithQueue) as [HQ|HQ];
          [|discriminate].
        injection He as <-. repeat split; auto. lia.
  - intros r current s1 Hfirst Hinc Hgt Hstrat.
    rewrite (Check_charged l ctx now rawURL h r current s1) by assumption.
    simpl. split; [|reflexivity].
    replace (current >? Limit r) with true by (symmetry; apply Z.gtb_lt; lia).
    destruct Hstrat as [-> | ->]; reflexivity.
Qed.

End LimiterProps.

(* ===================================================================== *)
(** * Sequential checks in one bucket *)
(* ===================================================================== *)

Section SequentialChecks.
Import GoInt Contract LimiterView.
Import Limiter.

Context {S : Type} {StoreS : store.Store S} {C : Counting S} {H : Type}.
Variable url_Parse : string -> option Matcher.URL.

Lemma first_match_resources (l0 l : Limiter.t S H) (rawURL : string) (r : Resource) :
  resources l = resources l0 ->
  first_match url_Parse l0 rawURL r -> first_match url_Parse l rawURL r.
Proof. intros Hres (pre & post & Hl0 & Hrest). exists pre, post. now rewrite Hres. Qed.

(** A run of checks all charged to [r] in the bucket [bk], the counter
    standing at [c0] when the run starts: the i-th check counts
    [c0 + i + 1] and is answered as [Check_charged] says. *)
Lemma Check_seq_counts (ctx : Context) (r : Resource) (bk : string)
    (l0 : Limiter.t S H) (calls : list (GoTime.Time * string)) :
  forall (l : Limiter.t S H) (h : H) (c0 : Z),
    resources l = resources l0 -> onLimitReached l = onLimitReached l0 ->
    Forall (fun call => first_match url_Parse l0 call.2 r
                        /\ Window.BucketKey (Window r) call.1 = bk) calls ->
    healthy (store l) -> ctx_Err ctx = None ->
    counted (entry (store l) (Name r)) bk = c0 ->
    c0 + Z.of_nat (length calls) <= max_int64 ->
    exists l',
      Check_seq url_Parse l ctx calls h
      = (imap (fun i call =>
                 let count := c0 + Z.of_nat i + 1 in
                 if count >? Limit r then
                   if (Strategy r =? Strategy.Block)
                      || (Strategy r =? Strategy.BlockWithQueue)
                   then Some (LimitExceededError r count (reset_at r call.1))
                   else None
                 else None) calls,
         l',
         notified (onLimitReached l0) r h
           (seqZ (c0 + 1) (Z.of_nat (length calls)))).
Proof.
  induction calls as [|[now rawURL] calls IH]; intros l h c0 Hres Hcb Hall Hs Hctx Hc0 Hmax.
  - exists l. reflexivity.
  - apply Forall_cons in Hall as [[Hfirst Hbk] Hall]. simpl in Hfirst, Hbk.
    simpl length in Hmax.
    destruct (Increment_contract (store l) ctx (Name r) (window_at r now) Hs Hctx)
      as (s1 & Hinc & Hs1 & He1 & _).
    { simpl. rewrite Hbk, Hc0. lia. }
    simpl in Hinc, He1. rewrite Hbk, Hc0 in Hinc, He1.
    simpl Check_seq.
    rewrite (Check_charged url_Parse l ctx now rawURL h r (c0 + 1) s1);
      [|now apply (first_match_resources l0) | exact Hinc].
    destruct (IH (with_store l s1)
                (if c0 + 1 >? Limit r then fire (onLimitReached l) r (c0 + 1) h else h)
                (c0 + 1) Hres Hcb Hall Hs1 Hctx) as (l' & Hseq).
    { simpl. now rewrite He1, counted_same. }
    { lia. }
    rewrite Hseq. exists l'. f_equal; [f_equal|].
    + rewrite imap_cons. f_equal.
      * cbv zeta. simpl. now rewrite Z.add_0_r.
      * apply imap_ext. intros i call _. cbv zeta. simpl.
        now replace (c0 + Z.of_nat (Datatypes.S i) + 1)
          with (c0 + 1 + Z.of_nat i + 1) by lia.
    + rewrite (seqZ_cons (c0 + 1)) by (simpl length; lia).
      replace (Z.succ (c0 + 1)) with (c0 + 1 + 1) by lia.
      replace (Z.pred (Z.of_nat (length ((now, rawURL) :: calls))))
        with (Z.of_nat (length calls)) by (simpl length; lia).
      unfold notified. simpl foldl. now rewrite Hcb.
Qed.

(** Claim C1. Let [r] be a registered resource with limit [L], and let
    [N] sequential [Check] calls all be charged to [r] (their URLs match
    [r] before any other resource) within one bucket in which nothing has
    been counted yet, the store answering without error. Then calls 1 to
    [L] return nil; under [Block] and [BlockWithQueue] every call past
    [L] returns the limit-exceeded error of its count; under [LogOnly]
    all [N] calls return nil; and the limit-reached callback has been
    invoked for each call past [L], in order. *)
Theorem sequential_checks_in_one_bucket (l : Limiter.t S H) (ctx : Context)
    (calls : list (GoTime.Time * string)) (h : H) (r : Resource) (bk : string) :
  Forall (fun call => first_match url_Parse l call.2 r
                      /\ Window.BucketKey (Window r) call.1 = bk) calls ->
  healthy (store l) -> ctx_Err ctx = None ->
  counted (entry (store l) (Name r)) bk = 0 ->
  Z.of_nat (length calls) <= max_int64 ->
  let run := Check_seq url_Parse l ctx calls h in
  length run.1.1 = length calls
  /\ (forall (i : nat) (now : GoTime.Time) (rawURL : string),
        calls !! i = Some (now, rawURL) ->
        (Z.of_nat i + 1 <= Limit r -> run.1.1 !! i = Some None)
        /\ (Limit r < Z.of_nat i + 1 ->
            Strategy r = Strategy.Block \/ Strategy r = Strategy.BlockWithQueue ->
            run.1.1 !! i
            = Some (Some (LimitExceededError r (Z.of_nat i + 1) (reset_at r now))))
        /\ (Strategy r = Strategy.LogOnly -> run.1.1 !! i = Some None))
  /\ run.2
     = foldl (fun h n => if n >? Limit r then fire (onLimitReached l) r n h else h)
         h (seqZ 1 (Z.of_nat (length calls))).
Proof.
  intros Hall Hs Hctx H0 Hmax run.
  destruct (Check_seq_counts ctx r bk l calls l h 0 eq_refl eq_refl Hall Hs Hctx H0)
    as (l' & Hrun); [lia|].
  subst run. rewrite Hrun. simpl. split; [apply length_imap|]. split; [|reflexivity].
  intros i now rawURL Hi. rewrite list_lookup_imap, Hi. simpl.
  rewrite !Z.add_0_l.
  split; [|split].
  - intros Hle.
    now replace (Z.of_nat i + 1 >? Limit r) with false
      by (symmetry; rewrite Z.gtb_ltb; apply Z.ltb_ge; lia).
  - intros Hgt Hstrat.
    replace (Z.of_nat i + 1 >? Limit r) with true by (symmetry; apply Z.gtb_lt; lia).
    destruct Hstrat as [-> | ->]; reflexivity.
  - intros ->. now destruct (_ >? _).
Qed.

End SequentialChecks.

(* ===================================================================== *)
(** * Window bucketing *)
(* ===================================================================== *)

Section CalendarFacts.
Import GoTime.

(** The date of a day number is a date: month 1 to 12, day 1 to 31. *)
Lemma civil_from_days_range (z : Z) :
  1 <= (civil_from_days z).1.2 <= 12 /\ 1 <= (civil_from_days z).2 <= 31.
Proof.
  unfold civil_from_days. cbv zeta. simpl.
  destruct (_ <? 10) eqn:Hmp;
    [apply Z.ltb_lt in Hmp | apply Z.ltb_ge in Hmp];
    Z.div_mod_to_equations; lia.
Qed.

(** The day number of the date of a day number is that day number. *)
Lemma days_from_civil_from_days (z : Z) :
  days_from_civil (civil_from_days z).1.1 (civil_from_days z).1.2
    (civil_from_days z).2 = z.
Proof.
  unfold civil_from_days. cbv zeta. simpl.
  destruct (_ <? 10) eqn:Hmp;
    [apply Z.ltb_lt in Hmp | apply Z.ltb_ge in Hmp].
  - destruct (_ + 3 <=? 2) eqn:Hm;
      unfold days_from_civil; cbv zeta; rewrite Hm;
      [apply Z.leb_le in Hm | apply Z.leb_gt in Hm];
      Z.div_mod_to_equations; lia.
  - destruct (_ - 9 <=? 2) eqn:Hm;
      unfold days_from_civil; cbv zeta; rewrite Hm;
      [apply Z.leb_le in Hm | apply Z.leb_gt in Hm];
      Z.div_mod_to_equations; lia.
Qed.

(** Days of a month are consecutive day numbers. *)
Lemma days_from_civil_day (y m d : Z) :
  days_from_civil y m d = days_from_civil y m 1 + (d - 1).
Proof. unfold days_from_civil. cbv zeta. lia. Qed.

(** The date of the day number of the first of a month is the first of
    that month. *)
Lemma civil_from_days_first (y m : Z) :
  1 <= m <= 12 -> civil_from_days (days_from_civil y m 1) = (y, m, 1).
Proof.
  intros Hm. unfold days_from_civil. cbv zeta.
  set (y' := if m <=? 2 then y - 1 else y).
  set (era := y' / 400). set (yoe := y' - era * 400).
  set (mp := (m + 9) mod 12).
  set (doy := (153 * mp + 2) / 5 + 1 - 1).
  set (doe := yoe * 365 + yoe / 4 - yoe / 100 + doy).
  assert (Hyoe : 0 <= yoe <= 399) by (subst yoe era; Z.div_mod_to_equations; lia).
  assert (Hmp : 0 <= mp <= 11) by (subst mp; Z.div_mod_to_equations; lia).
  assert (Hdoy : 0 <= doy <= 337) by (subst doy; Z.div_mod_to_equations; lia).
  assert (Hdoe : 0 <= doe < 146097) by (subst doe; Z.div_mod_to_equations; lia).
  unfold civil_from_days. cbv zeta.
  replace (era * 146097 + doe - 719468 + 719468) with (doe + era * 146097) by lia.
  rewrite Z.div_add by lia. rewrite (Z.div_small doe) by lia.
  rewrite !Z.add_0_l.
  replace (doe + era * 146097 - era * 146097) with doe by lia.
  assert (Hy : (doe - doe / 1460 + doe / 36524 - doe / 146096) / 365 = yoe)
    by (subst doe; Z.div_mod_to_equations; lia).
  rewrite Hy.
  replace (doe - (365 * yoe + yoe / 4 - yoe / 100)) with doy by (subst doe; lia).
  assert (Hmp' : (5 * doy + 2) / 153 = mp)
    by (subst doy; Z.div_mod_to_equations; lia).
  rewrite Hmp'.
  replace (doy - (153 * mp + 2) / 5 + 1) with 1 by (subst doy; lia).
  assert (Hm' : (if mp <? 10 then mp + 3 else mp - 9) = m).
  { destruct (Z.ltb_spec mp 10); subst mp; Z.div_mod_to_equations; lia. }
  rewrite Hm'. f_equal. f_equal.
  subst yoe y'. destruct (m <=? 2); lia.
Qed.

End CalendarFacts.

Section WindowProps.
Import GoTime.

Lemma Second_pos : 0 < Second.
Proof. reflexivity. Qed.

(** [time.Date] at midnight of the first of a month, read back. *)
Lemma Date_first_of_month (y m : Z) :
  1 <= m <= 12 ->
  let t := Date y m 1 0 0 0 0 in
  Time_Year t = y /\ Time_Month t = m /\ Time_Day t = 1
  /\ Time_Hour t = 0 /\ Time_Minute t = 0 /\ Time_Second t = 0
  /\ Time_Nanosecond t = 0.
Proof.
  intros Hm t.
  assert (Ht : t = days_from_civil y m 1 * 86400 * Second).
  { subst t. unfold Date. cbv zeta.
    replace ((m - 1) / 12) with 0 by (Z.div_mod_to_equations; lia).
    replace ((m - 1) mod 12 + 1) with m by (Z.div_mod_to_equations; lia).
    replace (y + 0) with y by lia. unfold Second. lia. }
  assert (Hsec : unixSec t = days_from_civil y m 1 * 86400).
  { unfold unixSec. rewrite Ht. now rewrite Z.div_mul. }
  assert (Hday : unixDay t = days_from_civil y m 1).
  { unfold unixDay. rewrite Hsec. now rewrite Z.div_mul. }
  unfold Time_Year, Time_Month, Time_Day, Time_Hour, Time_Minute, Time_Second,
    Time_Nanosecond.
  rewrite Hday, Hsec, civil_from_days_first by assumption. simpl.
  repeat split; try reflexivity.
  - rewrite Z.mod_mul by lia. reflexivity.
  - replace (days_from_civil y m 1 * 86400)
      with (days_from_civil y m 1 * 24 * 3600) by lia.
    rewrite Z.mod_mul by lia. reflexivity.
  - replace (days_from_civil y m 1 * 86400)
      with (days_from_civil y m 1 * 1440 * 60) by lia.
    now rewrite Z.mod_mul by lia.
  - rewrite Ht. now rewrite Z.mod_mul.
Qed.

(** Claim C8. For every instant [t], the [PerMonth] window lasts exactly
    30 x 24 hours; its bucket key is the UTC year and month of [t]
    (["2006-01"]); its bucket start is [time.Date] of the first day of
    that month at 00:00:00 UTC, an instant whose calendar reading is that
    year, that month, day 1, 00:00:00.0, and which is not after [t]. The
    bucket start plus the duration need not be the start of the next
    calendar month: in January 2024 it is the 31st of January. *)
Theorem PerMonth_window (t : Time) :
  Window.Duration Window.PerMonth = 30 * 24 * Hour
  /\ Window.Duration Window.PerMonth = 2592000 * Second
  /\ Window.BucketKey Window.PerMonth t
     = appendInt (Time_Year (UTC t)) 4 +:+ "-" +:+ appendInt (Time_Month (UTC t)) 2
  /\ Window.BucketStart Window.PerMonth t
     = Date (Time_Year (UTC t)) (Time_Month (UTC t)) 1 0 0 0 0
  /\ (let start := Window.BucketStart Window.PerMonth t in
      Time_Year start = Time_Year (UTC t)
      /\ Time_Month start = Time_Month (UTC t)
      /\ Time_Day start = 1
      /\ Time_Hour start = 0 /\ Time_Minute start = 0 /\ Time_Second start = 0
      /\ Time_Nanosecond start = 0
      /\ start <= t)
  /\ (let t0 := Date 2024 1 15 14 30 0 0 in
      Window.BucketKey Window.PerMonth t0 = "2024-01"
      /\ Add (Window.BucketStart Window.PerMonth t0) (Window.Duration Window.PerMonth)
         = Date 2024 1 31 0 0 0 0
      /\ Add (Window.BucketStart Window.PerMonth t0) (Window.Duration Window.PerMonth)
         <> Date (Time_Year t0) (Time_Month t0 + 1) 1 0 0 0 0).
Proof.
  split; [reflexivity|]. split; [reflexivity|]. split.
  { unfold Window.BucketKey. simpl. now rewrite string_app_nil_r. }
  split; [reflexivity|]. split.
  - cbv zeta. change (Window.BucketStart Window.PerMonth t)
      with (Date (Time_Year t) (Time_Month t) 1 0 0 0 0).
    unfold UTC.
    pose proof (civil_from_days_range (unixDay t)) as [Hm Hd].
    fold (Time_Month t) in Hm. fold (Time_Day t) in Hd.
    destruct (Date_first_of_month (Time_Year t) (Time_Month t) Hm)
      as (HY & HM & HD & Hh & Hmi & Hs & Hn).
    repeat (split; [assumption|]).
    (* the first of the month is not after [t] *)
    pose proof (days_from_civil_from_days (unixDay t)) as Hround.
    fold (Time_Year t) (Time_Month t) (Time_Day t) in Hround.
    rewrite days_from_civil_day in Hround.
    unfold Date. cbv zeta.
    replace ((Time_Month t - 1) / 12) with 0 by (Z.div_mod_to_equations; lia).
    replace ((Time_Month t - 1) mod 12 + 1) with (Time_Month t)
      by (Z.div_mod_to_equations; lia).
    replace (Time_Year t + 0) with (Time_Year t) by lia.
    assert (Hday : days_from_civil (Time_Year t) (Time_Month t) 1 <= unixDay t) by lia.
    unfold unixDay, unixSec in Hday. unfold Second in *.
    Z.div_mod_to_equations. lia.
  - cbv zeta. split; [vm_compute; reflexivity|].
    split; [vm_compute; reflexivity|].
    vm_compute. discriminate.
Qed.

End WindowProps.

(* ===================================================================== *)
(** * The limiter on the data of its tests *)
(* ===================================================================== *)

Section LimiterRuns.
Import GoInt Contract LimiterView.
Import Limiter Fixtures.

Lemma url0_first_match (l : Limiter.t MemoryStore.t (list (Resource * Z))) :
  resources l = [test_api] -> first_match url_Parse l url0 test_api.
Proof.
  intros Hres. exists [], []. split; [exact Hres|].
  split; [constructor | vm_compute; reflexivity].
Qed.

Lemma now0_bucket : Window.BucketKey (Window test_api) now0 = "2024-01-15T14:30".
Proof. vm_compute. reflexivity. Qed.

(** TestMatchURL, with the stand-in URL parser. *)
Example TestMatchURL :
  map (fun '(rawURL, pattern) => Matcher.matchURL url_Parse rawURL pattern)
    [("https://api.stripe.com/v1/charges", "api.stripe.com/*");
     ("https://api.stripe.com/", "api.stripe.com/*");
     ("https://api.openai.com/v1/chat/completions", "api.openai.com/v1/chat/*");
     ("https://api.openai.com/v1/embeddings", "api.openai.com/v1/chat/*");
     ("https://api.example.com/v1/specific", "api.example.com/v1/specific");
     ("https://api.example.com/v1/other", "api.example.com/v1/specific");
     ("https://api.github.com/repos", "api.stripe.com/*");
     ("https://api.stripe.com/v1/charges?limit=10", "api.stripe.com/*");
     ("https://api.stripe.com", "api.stripe.com/*")]
  = [true; true; true; false; true; false; false; true; true].
Proof. vm_compute. reflexivity. Qed.

(** TestLimiterBlockStrategy: three checks pass, the fourth is blocked. *)
Example TestLimiterBlockStrategy :
  (Check_seq url_Parse limiter0 Background
     [(now0, url0); (now0, url0); (now0, url0); (now0, url0)] []).1.1
  = [None; None; None;
     Some (LimitExceededError test_api 4 (GoTime.Date 2024 1 15 14 31 0 0))].
Proof. vm_compute. reflexivity. Qed.

(** Five checks of [url0] against the limit of 3. *)
Lemma sequential_checks_in_one_bucket_witness :
  let calls := [(now0, url0); (now0, url0); (now0, url0); (now0, url0); (now0, url0)] in
  let run := Check_seq url_Parse limiter0 Background calls [] in
  length run.1.1 = length calls
  /\ (forall (i : nat) (now : GoTime.Time) (rawURL : string),
        calls !! i = Some (now, rawURL) ->
        (Z.of_nat i + 1 <= Limit test_api -> run.1.1 !! i = Some None)
        /\ (Limit test_api < Z.of_nat i + 1 ->
            Strategy test_api = Strategy.Block
            \/ Strategy test_api = Strategy.BlockWithQueue ->
            run.1.1 !! i
            = Some (Some (LimitExceededError test_api (Z.of_nat i + 1)
                            (reset_at test_api now))))
        /\ (Strategy test_api = Strategy.LogOnly -> run.1.1 !! i = Some None))
  /\ run.2
     = foldl (fun h n => if n >? Limit test_api
                         then fire (onLimitReached limiter0) test_api n h else h)
         [] (seqZ 1 (Z.of_nat (length calls))).
Proof.
  intros calls.
  apply (sequential_checks_in_one_bucket url_Parse limiter0 Background calls []
           test_api "2024-01-15T14:30").
  - repeat constructor; simpl; auto using url0_first_match, now0_bucket.
  - apply Memory_empty_healthy.
  - reflexivity.
  - reflexivity.
  - vm_compute. discriminate.
Defined.


(** The fourth check of [url0]: the limit-exceeded error of count 4. *)
Lemma Check_limit_exceeded_error_witness :
  (Check url_Parse limiter3 Background now0 url0 []).1.1
  = Some (LimitExceededError test_api 4 (reset_at test_api now0))
  /\ errors_Is (LimitExceededError test_api 4 (reset_at test_api now0))
       ErrLimitExceeded = true.
Proof.
  apply (proj2 (Check_limit_exceeded_error url_Parse limiter3 Background now0 url0 [])
           test_api 4
           (MemoryStore.Increment (store limiter3) Background "test-api"
              (window_at test_api now0)).2).
  - apply url0_first_match. vm_compute. reflexivity.
  - vm_compute. reflexivity.
  - vm_compute. reflexivity.
  - left. reflexivity.
Defined.

End LimiterRuns.

(* ===================================================================== *)
(** * The package's store tests, run on the model *)
(* ===================================================================== *)

Section StoreTests.
Import Fixtures.

(** Test*StoreIncrement: five increments in one window count 1 to 5. *)
Example TestStoreIncrement :
  (increments MemoryStore.NewMemoryStore "test" [w1; w1; w1; w1; w1]).1 = [1; 2; 3; 4; 5]
  /\ (increments (SQLiteStore.NewSQLiteStore ∅) "test" [w1; w1; w1; w1; w1]).1
     = [1; 2; 3; 4; 5]
  /\ (increments (RedisStore.NewRedisStore ∅) "test" [w1; w1; w1; w1; w1]).1
     = [1; 2; 3; 4; 5]
  /\ (increments (TieredStore.NewTieredStore (SQLiteStore.NewSQLiteStore ∅))
        "test" [w1; w1; w1; w1; w1]).1 = [1; 2; 3; 4; 5].
Proof. vm_compute. repeat split; reflexivity. Qed.

(** Test*StoreWindowRollover. *)
Example TestStoreWindowRollover :
  (increments MemoryStore.NewMemoryStore "key" [w1; w1; w2]).1 = [1; 2; 1]
  /\ (increments (SQLiteStore.NewSQLiteStore ∅) "key" [w1; w1; w2]).1 = [1; 2; 1]
  /\ (increments (RedisStore.NewRedisStore ∅) "key" [w1; w1; w2]).1 = [1; 2; 1]
  /\ (increments (TieredStore.NewTieredStore (SQLiteStore.NewSQLiteStore ∅))
        "key" [w1; w1; w2]).1 = [1; 2; 1].
Proof. vm_compute. repeat split; reflexivity. Qed.

(** Test*StoreGet: 0 before any increment, 2 after two. *)
Example TestStoreGet :
  (store.Get MemoryStore.NewMemoryStore Background "key" w1).1 = (0, None)
  /\ (store.Get (increments MemoryStore.NewMemoryStore "key" [w1; w1]).2
        Background "key" w1).1 = (2, None)
  /\ (store.Get (increments (SQLiteStore.NewSQLiteStore ∅) "key" [w1; w1]).2
        Background "key" w1).1 = (2, None)
  /\ (store.Get (increments (RedisStore.NewRedisStore ∅) "key" [w1; w1]).2
        Background "key" w1).1 = (2, None)
  /\ (store.Get
        (increments (TieredStore.NewTieredStore (SQLiteStore.NewSQLiteStore ∅))
           "key" [w1; w1]).2 Background "key" w1).1 = (2, None).
Proof. vm_compute. repeat split; reflexivity. Qed.

(** Test*StoreReset: after a reset the counter reads 0. *)
Example TestStoreReset :
  (store.Get
     (store.Reset (increments MemoryStore.NewMemoryStore "key" [w1]).2
        Background "key").2 Background "key" w1).1 = (0, None)
  /\ (store.Get
        (store.Reset (increments (SQLiteStore.NewSQLiteStore ∅) "key" [w1]).2
           Background "key").2 Background "key" w1).1 = (0, None)
  /\ (store.Get
        (store.Reset (increments (RedisStore.NewRedisStore ∅) "key" [w1]).2
           Background "key").2 Background "key" w1).1 = (0, None).
Proof. vm_compute. repeat split; reflexivity. Qed.

(** A counter at the largest [int64] wraps around in the memory and
    SQLite backends; Redis refuses the increment. *)
Example Increment_at_max_int64 :
  (MemoryStore.Increment
     {| MemoryStore.buckets :=
          {[ "key" := {| MemoryStore.count := GoInt.max_int64;
                         MemoryStore.bucketKey := "2024-01-15T14:30" |} ]} |}
     Background "key" w1).1 = (GoInt.min_int64, None)
  /\ (SQLiteStore.Increment (durable GoInt.max_int64) Background "key" w1).1
     = (GoInt.min_int64, None)
  /\ (RedisStore.Increment
        (RedisStore.NewRedisStore
           {[ "erl:key" :=
                {| RedisStore.fields :=
                     {[ "count" := "9223372036854775807";
                        "bucket_key" := "2024-01-15T14:30" ]};
                   RedisStore.ttl := Some 60 |} ]})
        Background "key" w1).1
     = (0, Some (Errorf "erl/store/redis: increment: "
                   (ErrorString "ERR increment or decrement would overflow"))).
Proof. vm_compute. repeat split; reflexivity. Qed.

(** ExampleLimiter_Check: the text of the limit-exceeded error. *)
Example ExampleLimiter_Check_text :
  Error (LimitExceededError
           {| Name := "stripe"; Pattern := "api.stripe.com/*"; Limit := 2;
              Window := Window.PerMinute; Strategy := Strategy.Block |}
           3 now0)
  = "erl: rate limit exceeded for stripe (3/2)".
Proof. vm_compute. reflexivity. Qed.

(** TestLimiterLogOnlyStrategy: the second check passes and the callback
    has run. *)
Example TestLimiterLogOnlyStrategy :
  let log_api := {| Name := "log-api"; Pattern := "api.logged.com/*"; Limit := 1;
                    Window := Window.PerMinute; Strategy := Strategy.LogOnly |} in
  let l := Limiter.Register
             (Limiter.New MemoryStore.NewMemoryStore (Some record_call)) log_api in
  let run := Limiter.Check_seq url_Parse l Background
               [(now0, "https://api.logged.com/endpoint");
                (now0, "https://api.logged.com/endpoint")] [] in
  run.1.1 = [None; None] /\ run.2 = [(log_api, 2)].
Proof. vm_compute. split; reflexivity. Qed.

(** TestLimiterUnmatchedURLPassesThrough. *)
Example TestLimiterUnmatchedURLPassesThrough :
  let l := Limiter.Register
             (Limiter.New MemoryStore.NewMemoryStore (Some record_call))
             {| Name := "only-stripe"; Pattern := "api.stripe.com/*"; Limit := 1;
                Window := Window.PerMinute; Strategy := Strategy.Block |} in
  (Limiter.Check_seq url_Parse l Background
     (replicate 10 (now0, "https://api.github.com/repos")) []).1.1
  = replicate 10 None.
Proof. vm_compute. reflexivity. Qed.

End StoreTests.

(* ===================================================================== *)
(** * More on the pattern matcher *)
(* ===================================================================== *)

Section MatcherMore.
Import GoStrings Matcher MatcherView.

Lemma string_app_assoc (a b c : string) : (a +:+ b) +:+ c = a +:+ (b +:+ c).
Proof. induction a as [|x a IH]; simpl; [reflexivity | now rewrite IH]. Qed.

Lemma length_app (a b : string) :
  String.length (a +:+ b) = (String.length a + String.length b)%nat.
Proof. induction a as [|x a IH]; simpl; [reflexivity | now rewrite IH]. Qed.

Lemma slice_to_app (a b : string) : slice_to (String.length a) (a +:+ b) = a.
Proof. induction a as [|x a IH]; simpl; [now destruct b | now rewrite IH]. Qed.

Lemma slice_from_app (a b : string) : slice_from (String.length a) (a +:+ b) = b.
Proof. induction a as [|x a IH]; simpl; [reflexivity | exact IH]. Qed.

Lemma slice_split (n : nat) (s : string) : slice_to n s +:+ slice_from n s = s.
Proof.
  revert s. induction n as [|n IH]; intros [|c s]; simpl; try reflexivity.
  now rewrite IH.
Qed.

Lemma HasPrefix_app (a b : string) : HasPrefix (a +:+ b) a = true.
Proof.
  unfold HasPrefix. rewrite slice_to_app, String.eqb_refl, length_app.
  rewrite andb_true_r. apply Nat.leb_le. lia.
Qed.

Lemma HasPrefix_inv (s prefix : string) :
  HasPrefix s prefix = true -> exists rest, s = prefix +:+ rest.
Proof.
  unfold HasPrefix. intros [_ Heq%String.eqb_eq]%andb_true_iff.
  exists (slice_from (String.length prefix) s).
  rewrite <- Heq at 1. symmetry. apply slice_split.
Qed.

Lemma HasSuffix_app (a b : string) : HasSuffix (a +:+ b) b = true.
Proof.
  unfold HasSuffix. rewrite length_app.
  replace (String.length a + String.length b - String.length b)%nat
    with (String.length a) by lia.
  rewrite slice_from_app, String.eqb_refl, andb_true_r.
  apply Nat.leb_le. lia.
Qed.

Lemma HasSuffix_inv (s suffix : string) :
  HasSuffix s suffix = true -> exists pre, s = pre +:+ suffix.
Proof.
  unfold HasSuffix. intros [_ Heq%String.eqb_eq]%andb_true_iff.
  exists (slice_to (String.length s - String.length suffix) s).
  rewrite <- Heq at 2. symmetry. apply slice_split.
Qed.

Lemma TrimSuffix_app (a b : string) : TrimSuffix (a +:+ b) b = a.
Proof.
  unfold TrimSuffix. rewrite HasSuffix_app, length_app.
  replace (String.length a + String.length b - String.length b)%nat
    with (String.length a) by lia.
  apply slice_to_app.
Qed.

Lemma star_free_app (a b : string) :
  star_free (a +:+ b) = star_free a && star_free b.
Proof.
  induction a as [|c a IH]; simpl; [reflexivity|].
  now rewrite IH, andb_assoc.
Qed.

(** Without a ['*'] the glob relation is equality. *)
Lemma Matches_star_free (p v : string) :
  star_free p = true -> (Matches p v <-> p = v).
Proof.
  intros Hp. split; [|intros <-; apply Matches_refl].
  revert v. induction p as [|c p IH]; intros v HM.
  - now inversion HM.
  - simpl in Hp. apply andb_true_iff in Hp as [Hc Hp].
    apply negb_true_iff in Hc. apply Ascii.eqb_neq in Hc.
    apply Matches_byte_inv in HM as (v' & -> & HM); [|assumption].
    f_equal. now apply IH.
Qed.

(** A star-free prefix followed by ["/*"]: the values the glob relation
    accepts are the prefix, a ['/'], and anything. *)
Lemma Matches_prefix_slash_star (prefix v : string) :
  star_free prefix = true ->
  Matches (prefix +:+ "/*") v -> exists rest, v = prefix +:+ "/" +:+ rest.
Proof.
  intros Hp. revert v. induction prefix as [|c p IH]; intros v HM; simpl in *.
  - apply Matches_byte_inv in HM as (v' & -> & HM); [|discriminate].
    exists v'. reflexivity.
  - apply andb_true_iff in Hp as [Hc Hp].
    apply negb_true_iff in Hc. apply Ascii.eqb_neq in Hc.
    apply Matches_byte_inv in HM as (v' & -> & HM); [|assumption].
    destruct (IH Hp v' HM) as [rest ->]. now exists rest.
Qed.

(** A pattern without ['*'] matches exactly one value, itself:
    [globMatch] and [wildcardMatch] are string equality on it. *)
Theorem globMatch_star_free_is_equality (pattern value : string) :
  star_free pattern = true ->
  (globMatch pattern value = true <-> pattern = value)
  /\ (wildcardMatch pattern value = true <-> pattern = value).
Proof.
  intros Hp.
  assert (Hw : wildcardMatch pattern value = true <-> pattern = value).
  { rewrite wildcardMatch_Matches. now apply Matches_star_free. }
  split; [|exact Hw]. unfold globMatch.
  destruct (String.eqb_spec pattern value) as [Heq|Hne]; [tauto|].
  destruct (HasSuffix pattern "/*") eqn:Hsuf.
  - apply HasSuffix_inv in Hsuf as [pre ->].
    rewrite star_free_app in Hp. simpl in Hp. now rewrite andb_false_r in Hp.
  - simpl. exact Hw.
Qed.

Lemma globMatch_star_free_is_equality_witness :
  (globMatch "api.example.com/v1/specific" "api.example.com/v1/other" = true
   <-> "api.example.com/v1/specific" = "api.example.com/v1/other")
  /\ (wildcardMatch "api.example.com/v1/specific" "api.example.com/v1/other" = true
      <-> "api.example.com/v1/specific" = "api.example.com/v1/other").
Proof.
  apply (globMatch_star_free_is_equality "api.example.com/v1/specific"
           "api.example.com/v1/other").
  reflexivity.
Defined.

(** A pattern [prefix ++ "/*"] matches the prefix itself and the
    prefix followed by ['/'] and anything; when the prefix has no ['*']
    it matches nothing else. *)
Theorem globMatch_trailing_slash_star (prefix value : string) :
  (value = prefix \/ (exists rest, value = prefix +:+ "/" +:+ rest) ->
   globMatch (prefix +:+ "/*") value = true)
  /\ (star_free prefix = true ->
      globMatch (prefix +:+ "/*") value = true ->
      value = prefix \/ exists rest, value = prefix +:+ "/" +:+ rest).
Proof.
  split.
  - intros Hv. unfold globMatch.
    destruct (String.eqb (prefix +:+ "/*") value); [reflexivity|].
    rewrite HasSuffix_app, TrimSuffix_app. simpl.
    destruct Hv as [->|[rest ->]].
    + now rewrite String.eqb_refl.
    + rewrite <- string_app_assoc, HasPrefix_app. now rewrite orb_true_r.
  - intros Hp. unfold globMatch.
    destruct (String.eqb_spec (prefix +:+ "/*") value) as [<-|Hne].
    { intros _. right. now exists "*". }
    rewrite HasSuffix_app, TrimSuffix_app. simpl.
    destruct (String.eqb_spec value prefix) as [->|Hne']; [now left|]. simpl.
    destruct (HasPrefix value (prefix +:+ "/")) eqn:Hpre.
    + intros _. right. apply HasPrefix_inv in Hpre as [rest ->].
      exists rest. now rewrite string_app_assoc.
    + intros HM. right. apply wildcardMatch_Matches in HM.
      now apply Matches_prefix_slash_star.
Qed.

Lemma globMatch_trailing_slash_star_witness :
  globMatch ("api.stripe.com" +:+ "/*") "api.stripe.com" = true
  /\ globMatch ("api.stripe.com" +:+ "/*") ("api.stripe.com" +:+ "/" +:+ "v1/charges")
     = true
  /\ ("api.stripe.com/v1" = "api.stripe.com"
      \/ exists rest, "api.stripe.com/v1" = "api.stripe.com" +:+ "/" +:+ rest).
Proof.
  split; [|split].
  - apply (proj1 (globMatch_trailing_slash_star "api.stripe.com" "api.stripe.com")).
    now left.
  - apply (proj1 (globMatch_trailing_slash_star "api.stripe.com"
                    ("api.stripe.com" +:+ "/" +:+ "v1/charges"))).
    right. now exists "v1/charges".
  - apply (proj2 (globMatch_trailing_slash_star "api.stripe.com" "api.stripe.com/v1"));
      reflexivity.
Defined.

Lemma TrimRight_slash_app_slash (s : string) :
  TrimRight_slash (s +:+ "/") = TrimRight_slash s.
Proof.
  induction s as [|c s IH]; simpl; [reflexivity|]. now rewrite IH.
Qed.

Lemma TrimRight_slash_idem (s : string) :
  TrimRight_slash (TrimRight_slash s) = TrimRight_slash s.
Proof.
  induction s as [|c s IH]; simpl; [reflexivity|].
  destruct (TrimRight_slash s) as [|c' r] eqn:Hr.
  - destruct (Ascii.eqb c "/") eqn:Hc; simpl; [reflexivity | now rewrite Hc].
  - simpl in *. now rewrite IH.
Qed.

(** [matchURL] ignores trailing slashes, on the pattern and on the
    path of the request: a pattern with one more ['/'] at its end matches
    the same URLs, and two URLs that parse to the same host and to paths
    differing by a final ['/'] match the same patterns. *)
Theorem matchURL_ignores_trailing_slash (url_Parse : string -> option URL)
    (rawURL rawURL' pattern : string) (host path : string) :
  matchURL url_Parse rawURL (pattern +:+ "/") = matchURL url_Parse rawURL pattern
  /\ (url_Parse rawURL = Some {| Host := host; Path := path |} ->
      url_Parse rawURL' = Some {| Host := host; Path := path +:+ "/" |} ->
      matchURL url_Parse rawURL' pattern = matchURL url_Parse rawURL pattern).
Proof.
  split.
  - unfold matchURL. destruct (url_Parse rawURL); [|reflexivity].
    now rewrite TrimRight_slash_app_slash.
  - intros H1 H2. unfold matchURL. rewrite H1, H2. simpl.
    now rewrite <- string_app_assoc, TrimRight_slash_app_slash.
Qed.

Lemma matchURL_ignores_trailing_slash_witness :
  matchURL Fixtures.url_Parse "https://api.stripe.com/v1" ("api.stripe.com/v1" +:+ "/")
  = matchURL Fixtures.url_Parse "https://api.stripe.com/v1" "api.stripe.com/v1"
  /\ matchURL Fixtures.url_Parse "https://api.stripe.com/v1/" "api.stripe.com/*"
     = matchURL Fixtures.url_Parse "https://api.stripe.com/v1" "api.stripe.com/*".
Proof.
  destruct (matchURL_ignores_trailing_slash Fixtures.url_Parse
              "https://api.stripe.com/v1" "https://api.stripe.com/v1/"
              "api.stripe.com/v1" "api.stripe.com" "/v1") as [H1 _].
  destruct (matchURL_ignores_trailing_slash Fixtures.url_Parse
              "https://api.stripe.com/v1" "https://api.stripe.com/v1/"
              "api.stripe.com/*" "api.stripe.com" "/v1") as [_ H2].
  split; [exact H1|]. apply H2; reflexivity.
Defined.

(** The pattern ["*"] is a catch-all: it matches every URL that
    parses; a URL that does not parse matches no pattern at all. *)
Theorem matchURL_catch_all_and_malformed (url_Parse : string -> option URL)
    (rawURL : string) :
  (matchURL url_Parse rawURL "*" = true <-> is_Some (url_Parse rawURL))
  /\ (url_Parse rawURL = None ->
      forall pattern, matchURL url_Parse rawURL pattern = false).
Proof.
  split.
  - unfold matchURL. destruct (url_Parse rawURL) as [parsed|].
    + split; [eauto|]. intros _. simpl.
      apply wildcardMatch_globMatch. reflexivity.
    + split; [discriminate | intros [? ?]; discriminate].
  - intros Hnone pattern. unfold matchURL. now rewrite Hnone.
Qed.

Lemma matchURL_catch_all_and_malformed_witness :
  matchURL (fun _ => None) "http://[::1" "*" = false
  /\ matchURL (fun _ => None) "http://[::1" "[::1" = false.
Proof.
  split;
    apply (proj2 (matchURL_catch_all_and_malformed (fun _ => None) "http://[::1"));
    reflexivity.
Defined.

End MatcherMore.

(* ===================================================================== *)
(** * More on window bucketing *)
(* ===================================================================== *)

Section WindowMore.
Import GoTime.

(** [time.Date] on the calendar reading of [t], with a time of day of
    one's own. *)
Lemma Date_of_civil (t : Time) (hour min sec nsec : Z) :
  Date (Time_Year t) (Time_Month t) (Time_Day t) hour min sec nsec
  = (unixDay t * 86400 + hour * 3600 + min * 60 + sec) * Second + nsec.
Proof.
  pose proof (civil_from_days_range (unixDay t)) as [Hm _].
  pose proof (days_from_civil_from_days (unixDay t)) as Hround.
  fold (Time_Year t) (Time_Month t) (Time_Day t) in Hm, Hround.
  unfold Date. cbv zeta.
  replace ((Time_Month t - 1) / 12) with 0 by (Z.div_mod_to_equations; lia).
  replace ((Time_Month t - 1) mod 12 + 1) with (Time_Month t)
    by (Z.div_mod_to_equations; lia).
  replace (Time_Year t + 0) with (Time_Year t) by lia.
  rewrite <- days_from_civil_day, Hround. reflexivity.
Qed.

Lemma BucketStart_minutely (t : Time) :
  Date (Time_Year t) (Time_Month t) (Time_Day t) (Time_Hour t) (Time_Minute t) 0 0
  = t / Minute * Minute.
Proof.
  rewrite Date_of_civil.
  unfold Time_Hour, Time_Minute, unixDay, unixSec, Minute, Second.
  Z.div_mod_to_equations. lia.
Qed.

Lemma BucketStart_hourly (t : Time) :
  Date (Time_Year t) (Time_Month t) (Time_Day t) (Time_Hour t) 0 0 0
  = t / Hour * Hour.
Proof.
  rewrite Date_of_civil.
  unfold Time_Hour, unixDay, unixSec, Hour, Minute, Second.
  Z.div_mod_to_equations. lia.
Qed.

Lemma BucketStart_daily (t : Time) :
  Date (Time_Year t) (Time_Month t) (Time_Day t) 0 0 0 0
  = t / (24 * Hour) * (24 * Hour).
Proof.
  rewrite Date_of_civil.
  unfold unixDay, unixSec, Hour, Minute, Second.
  Z.div_mod_to_equations. lia.
Qed.

Lemma BucketStart_not_month (w : Window.t) (t : Time) :
  w <> Window.PerMonth ->
  Window.BucketStart w t = t / Window.Duration w * Window.Duration w.
Proof.
  intros Hw. unfold Window.BucketStart, Window.Duration, UTC.
  destruct (w =? Window.PerMinute); [apply BucketStart_minutely|].
  destruct (w =? Window.PerHour); [apply BucketStart_hourly|].
  destruct (w =? Window.PerDay); [apply BucketStart_daily|].
  destruct (Z.eqb_spec w Window.PerMonth); [contradiction|].
  apply BucketStart_hourly.
Qed.

Lemma Duration_pos (w : Window.t) : 0 < Window.Duration w.
Proof.
  unfold Window.Duration.
  repeat (destruct (_ =? _); [reflexivity|]). reflexivity.
Qed.

(** For every window kind other than [PerMonth] (the integers outside
    the four constants included, which behave as [PerHour]), the bucket
    start is the instant truncated to a whole multiple of the window's
    duration; so the bucket contains the instant, and its reset instant,
    bucket start plus duration, lies strictly after it. *)
Theorem BucketStart_truncates_to_duration (w : Window.t) (t : Time) :
  w <> Window.PerMonth ->
  Window.BucketStart w t = t / Window.Duration w * Window.Duration w
  /\ Window.BucketStart w t <= t
  /\ t < Add (Window.BucketStart w t) (Window.Duration w).
Proof.
  intros Hw. rewrite BucketStart_not_month by assumption.
  pose proof (Duration_pos w) as Hd. unfold Add.
  split; [reflexivity|]. Z.div_mod_to_equations. nia.
Qed.

Lemma BucketStart_truncates_to_duration_witness :
  Window.BucketStart Window.PerMinute Fixtures.now0
  = Fixtures.now0 / Window.Duration Window.PerMinute * Window.Duration Window.PerMinute
  /\ Window.BucketStart Window.PerMinute Fixtures.now0 <= Fixtures.now0
  /\ Fixtures.now0
     < Add (Window.BucketStart Window.PerMinute Fixtures.now0)
         (Window.Duration Window.PerMinute).
Proof.
  apply (BucketStart_truncates_to_duration Window.PerMinute Fixtures.now0).
  discriminate.
Defined.

(** On the last day of a 31-day month the [PerMonth] reset instant,
    bucket start plus the fixed 30 days, is not after the instant itself:
    the error of a blocked check then names a reset time that has already
    passed while the bucket key is still the one of the running month. *)
Theorem PerMonth_reset_passed_on_day_31 (t : Time) :
  Time_Day t = 31 ->
  Add (Window.BucketStart Window.PerMonth t) (Window.Duration Window.PerMonth) <= t
  /\ Window.BucketKey Window.PerMonth
       (Add (Window.BucketStart Window.PerMonth t) (Window.Duration Window.PerMonth))
     = Window.BucketKey Window.PerMonth t.
Proof.
  intros Hday.
  pose proof (days_from_civil_from_days (unixDay t)) as Hround.
  fold (Time_Year t) (Time_Month t) (Time_Day t) in Hround.
  rewrite days_from_civil_day, Hday in Hround.
  pose proof (Date_of_civil t 0 0 0 0) as Hdate.
  assert (Hreset :
    Add (Window.BucketStart Window.PerMonth t) (Window.Duration Window.PerMonth)
    = unixDay t * 86400 * Second).
  { change (Window.BucketStart Window.PerMonth t)
      with (Date (Time_Year t) (Time_Month t) 1 0 0 0 0).
    unfold Add, Date, Window.Duration. simpl (_ =? _). cbv iota zeta.
    pose proof (civil_from_days_range (unixDay t)) as [Hm _].
    fold (Time_Month t) in Hm.
    replace ((Time_Month t - 1) / 12) with 0 by (Z.div_mod_to_equations; lia).
    replace ((Time_Month t - 1) mod 12 + 1) with (Time_Month t)
      by (Z.div_mod_to_equations; lia).
    replace (Time_Year t + 0) with (Time_Year t) by lia.
    unfold Hour, Minute, Second. lia. }
  rewrite Hreset. split.
  - unfold unixDay, unixSec, Second. Z.div_mod_to_equations. lia.
  - assert (Hsame : unixDay (unixDay t * 86400 * Second) = unixDay t).
    { unfold unixDay at 1, unixSec. rewrite Z.div_mul by discriminate.
      now rewrite Z.div_mul by discriminate. }
    unfold Window.BucketKey, UTC. simpl (_ =? _). cbv iota.
    unfold Format, layout_month. simpl.
    unfold Time_Year, Time_Month. now rewrite Hsame.
Qed.

Lemma PerMonth_reset_passed_on_day_31_witness :
  let t := Date 2024 1 31 12 0 0 0 in
  Add (Window.BucketStart Window.PerMonth t) (Window.Duration Window.PerMonth) <= t
  /\ Window.BucketKey Window.PerMonth
       (Add (Window.BucketStart Window.PerMonth t) (Window.Duration Window.PerMonth))
     = Window.BucketKey Window.PerMonth t.
Proof.
  apply (PerMonth_reset_passed_on_day_31 (Date 2024 1 31 12 0 0 0)).
  vm_compute. reflexivity.
Defined.

End WindowMore.

(* ===================================================================== *)
(** * Bucket keys identify buckets *)
(* ===================================================================== *)

Section FormatFacts.
Import GoStrings GoInt GoTime TimeView.

Lemma app_inj_head (a1 a2 b1 b2 : string) :
  String.length a1 = String.length a2 ->
  a1 +:+ b1 = a2 +:+ b2 -> a1 = a2 /\ b1 = b2.
Proof.
  revert a2. induction a1 as [|c a1 IH]; intros [|c' a2] Hlen Heq;
    simpl in *; try discriminate.
  - auto.
  - injection Heq as -> Heq. injection Hlen as Hlen.
    destruct (IH a2 Hlen Heq) as [-> ->]. auto.
Qed.

Lemma app_inj_tail (a1 a2 b1 b2 : string) :
  String.length b1 = String.length b2 ->
  a1 +:+ b1 = a2 +:+ b2 -> a1 = a2 /\ b1 = b2.
Proof.
  intros Hlen Heq. apply app_inj_head; [|assumption].
  apply (f_equal String.length) in Heq. rewrite !length_app in Heq. lia.
Qed.

Lemma uint_of_string_padded (k : nat) (u : Decimal.uint) :
  NilEmpty.uint_of_string (repeat_byte "0" k +:+ NilEmpty.string_of_uint u)
  = Some (Nat.iter k Decimal.D0 u).
Proof.
  induction k as [|k IH]; simpl.
  - apply NilEmpty.usu.
  - now rewrite IH.
Qed.

Lemma of_uint_zeros (k : nat) (u : Decimal.uint) :
  N.of_uint (Nat.iter k Decimal.D0 u) = N.of_uint u.
Proof. induction k as [|k IH]; simpl; [reflexivity | exact IH]. Qed.

Lemma N_to_uint_nonnil (n : N) : N.to_uint n <> Decimal.Nil.
Proof.
  destruct n; simpl; [discriminate | apply DecimalPos.Unsigned.to_uint_nonnil].
Qed.

(** The padded digits never start with the sign. *)
Lemma padded_head (k : nat) (n : N) :
  exists c s, repeat_byte "0" k +:+ digits n = String c s
              /\ Ascii.eqb c "-" = false.
Proof.
  destruct k as [|k]; simpl.
  - destruct (string_of_uint_head (N.to_uint n) (N_to_uint_nonnil n))
      as (c & s & Hs & _ & Hm).
    exists c, s. split; [exact Hs | exact Hm].
  - eexists _, _. split; reflexivity.
Qed.

(** [atoi] reads back what [appendInt] prints, whatever the width. *)
Lemma atoi_appendInt (x : Z) (width : nat) : atoi (appendInt x width) = x.
Proof.
  unfold appendInt. cbv zeta.
  set (k := (width - String.length (digits (Z.to_N (Z.abs x))))%nat).
  assert (Hmag :
    Z.of_N (N.of_uint (default Decimal.Nil
      (NilEmpty.uint_of_string (repeat_byte "0" k +:+ digits (Z.to_N (Z.abs x))))))
    = Z.abs x).
  { unfold digits. rewrite uint_of_string_padded. simpl default.
    rewrite of_uint_zeros, DecimalN.Unsigned.of_to. lia. }
  destruct (Z.ltb_spec x 0) as [Hneg|Hpos].
  - unfold atoi. change (Ascii.eqb "-" "-") with true. cbv iota beta.
    rewrite Hmag. lia.
  - destruct (padded_head k (Z.to_N (Z.abs x))) as (c & s & Hs & Hc).
    unfold atoi. rewrite Hs, Hc, <- Hs, Hmag. lia.
Qed.

Lemma appendInt_inj (x y : Z) (width : nat) :
  appendInt x width = appendInt y width -> x = y.
Proof.
  intros Heq. rewrite <- (atoi_appendInt x width), <- (atoi_appendInt y width).
  now rewrite Heq.
Qed.

(** Two-digit fields have two bytes. *)
Lemma length_appendInt_2 (x : Z) :
  0 <= x < 100 -> String.length (appendInt x 2) = 2%nat.
Proof.
  intros Hx.
  assert (Hall : Forall (fun x => String.length (appendInt x 2) = 2%nat) (seqZ 0 100))
    by (vm_compute; repeat constructor).
  rewrite Forall_forall in Hall. apply Hall. apply elem_of_seqZ. lia.
Qed.

Lemma peel_two (a b : Z) (r1 r2 : string) :
  0 <= a < 100 -> 0 <= b < 100 ->
  appendInt a 2 +:+ r1 = appendInt b 2 +:+ r2 -> a = b /\ r1 = r2.
Proof.
  intros Ha Hb Heq.
  apply app_inj_head in Heq as [Hab ->];
    [|now rewrite !length_appendInt_2].
  split; [now apply (appendInt_inj a b 2) | reflexivity].
Qed.

Lemma peel_year (y1 y2 : Z) (r1 r2 : string) :
  String.length r1 = String.length r2 ->
  appendInt y1 4 +:+ r1 = appendInt y2 4 +:+ r2 -> y1 = y2 /\ r1 = r2.
Proof.
  intros Hlen Heq. apply app_inj_tail in Heq as [Hy ->]; [|assumption].
  split; [now apply (appendInt_inj y1 y2 4) | reflexivity].
Qed.

Lemma Time_Month_range (t : Time) : 0 <= Time_Month t < 100.
Proof. pose proof (civil_from_days_range (unixDay t)) as [Hm _].
  unfold Time_Month. lia. Qed.

Lemma Time_Day_range (t : Time) : 0 <= Time_Day t < 100.
Proof. pose proof (civil_from_days_range (unixDay t)) as [_ Hd].
  unfold Time_Day. lia. Qed.

Lemma Time_Hour_range (t : Time) : 0 <= Time_Hour t < 100.
Proof. unfold Time_Hour. Z.div_mod_to_equations. lia. Qed.

Lemma Time_Minute_range (t : Time) : 0 <= Time_Minute t < 100.
Proof. unfold Time_Minute. Z.div_mod_to_equations. lia. Qed.

Lemma length_two_field (x : Z) (r : string) :
  0 <= x < 100 -> String.length (appendInt x 2 +:+ r) = Datatypes.S (Datatypes.S (String.length r)).
Proof. intros Hx. now rewrite length_app, length_appendInt_2. Qed.

(** The text of the month layout determines year and month. *)
Lemma Format_month_inj (t1 t2 : Time) :
  Format t1 layout_month = Format t2 layout_month ->
  Time_Year t1 = Time_Year t2 /\ Time_Month t1 = Time_Month t2.
Proof.
  unfold Format, layout_month. simpl. intros Heq.
  apply peel_year in Heq as [HY Heq];
    [|simpl; now rewrite !length_two_field by apply Time_Month_range].
  injection Heq as Heq.
  apply peel_two in Heq as [HM _]; auto using Time_Month_range.
Qed.

(** The text of the day layout determines the date. *)
Lemma Format_day_inj (t1 t2 : Time) :
  Format t1 layout_day = Format t2 layout_day ->
  Time_Year t1 = Time_Year t2 /\ Time_Month t1 = Time_Month t2
  /\ Time_Day t1 = Time_Day t2.
Proof.
  unfold Format, layout_day. simpl. intros Heq.
  apply peel_year in Heq as [HY Heq].
  2:{ simpl. rewrite !length_two_field by apply Time_Month_range. simpl.
      now rewrite !length_two_field by apply Time_Day_range. }
  injection Heq as Heq.
  apply peel_two in Heq as [HM Heq]; auto using Time_Month_range.
  injection Heq as Heq.
  apply peel_two in Heq as [HD _]; auto using Time_Day_range.
Qed.

(** The text of the hour layout determines date and hour. *)
Lemma Format_hour_inj (t1 t2 : Time) :
  Format t1 layout_hour = Format t2 layout_hour ->
  Time_Year t1 = Time_Year t2 /\ Time_Month t1 = Time_Month t2
  /\ Time_Day t1 = Time_Day t2 /\ Time_Hour t1 = Time_Hour t2.
Proof.
  unfold Format, layout_hour. simpl. intros Heq.
  apply peel_year in Heq as [HY Heq].
  2:{ simpl. rewrite !length_two_field by apply Time_Month_range. simpl.
      rewrite !length_two_field by apply Time_Day_range. simpl.
      now rewrite !length_two_field by apply Time_Hour_range. }
  injection Heq as Heq.
  apply peel_two in Heq as [HM Heq]; auto using Time_Month_range.
  injection Heq as Heq.
  apply peel_two in Heq as [HD Heq]; auto using Time_Day_range.
  injection Heq as Heq.
  apply peel_two in Heq as [Hh _]; auto using Time_Hour_range.
Qed.

(** The text of the minute layout determines date, hour and minute. *)
Lemma Format_minute_inj (t1 t2 : Time) :
  Format t1 layout_minute = Format t2 layout_minute ->
  Time_Year t1 = Time_Year t2 /\ Time_Month t1 = Time_Month t2
  /\ Time_Day t1 = Time_Day t2 /\ Time_Hour t1 = Time_Hour t2
  /\ Time_Minute t1 = Time_Minute t2.
Proof.
  unfold Format, layout_minute. simpl. intros Heq.
  apply peel_year in Heq as [HY Heq].
  2:{ simpl. rewrite !length_two_field by apply Time_Month_range. simpl.
      rewrite !length_two_field by apply Time_Day_range. simpl.
      rewrite !length_two_field by apply Time_Hour_range. simpl.
      now rewrite !length_two_field by apply Time_Minute_range. }
  injection Heq as Heq.
  apply peel_two in Heq as [HM Heq]; auto using Time_Month_range.
  injection Heq as Heq.
  apply peel_two in Heq as [HD Heq]; auto using Time_Day_range.
  injection Heq as Heq.
  apply peel_two in Heq as [Hh Heq]; auto using Time_Hour_range.
  injection Heq as Heq.
  apply peel_two in Heq as [Hmi _]; auto using Time_Minute_range.
Qed.

End FormatFacts.

Section BucketKeyProps.
Import GoTime.

Lemma same_minute (t1 t2 : Time) :
  t1 / Minute = t2 / Minute ->
  unixDay t1 = unixDay t2 /\ Time_Hour t1 = Time_Hour t2
  /\ Time_Minute t1 = Time_Minute t2.
Proof.
  unfold unixDay, Time_Hour, Time_Minute, unixSec, Minute, Second.
  intros Hq. Z.div_mod_to_equations. lia.
Qed.

Lemma same_hour (t1 t2 : Time) :
  t1 / Hour = t2 / Hour -> unixDay t1 = unixDay t2 /\ Time_Hour t1 = Time_Hour t2.
Proof.
  unfold unixDay, Time_Hour, unixSec, Hour, Minute, Second.
  intros Hq. Z.div_mod_to_equations. lia.
Qed.

Lemma same_day (t1 t2 : Time) :
  t1 / (24 * Hour) = t2 / (24 * Hour) -> unixDay t1 = unixDay t2.
Proof.
  unfold unixDay, unixSec, Hour, Minute, Second.
  intros Hq. Z.div_mod_to_equations. lia.
Qed.

Lemma same_unixDay (t1 t2 : Time) :
  unixDay t1 = unixDay t2 ->
  Time_Year t1 = Time_Year t2 /\ Time_Month t1 = Time_Month t2
  /\ Time_Day t1 = Time_Day t2.
Proof. unfold Time_Year, Time_Month, Time_Day. now intros ->. Qed.

Lemma mul_cancel_r (a b d : Z) : 0 < d -> a * d = b * d -> a = b.
Proof. intros Hd Heq. nia. Qed.

(** Same bucket start, same bucket key. *)
Lemma BucketStart_BucketKey (w : Window.t) (t1 t2 : Time) :
  Window.BucketStart w t1 = Window.BucketStart w t2 ->
  Window.BucketKey w t1 = Window.BucketKey w t2.
Proof.
  destruct (Z.eq_dec w Window.PerMonth) as [->|Hw].
  - change (Window.BucketStart Window.PerMonth t1)
      with (Date (Time_Year t1) (Time_Month t1) 1 0 0 0 0).
    change (Window.BucketStart Window.PerMonth t2)
      with (Date (Time_Year t2) (Time_Month t2) 1 0 0 0 0).
    intros Hstart.
    pose proof (civil_from_days_range (unixDay t1)) as [Hm1 _].
    pose proof (civil_from_days_range (unixDay t2)) as [Hm2 _].
    fold (Time_Month t1) in Hm1. fold (Time_Month t2) in Hm2.
    destruct (Date_first_of_month (Time_Year t1) (Time_Month t1) Hm1)
      as (HY1 & HM1 & _).
    destruct (Date_first_of_month (Time_Year t2) (Time_Month t2) Hm2)
      as (HY2 & HM2 & _).
    rewrite Hstart in HY1, HM1. rewrite HY2 in HY1. rewrite HM2 in HM1.
    unfold Window.BucketKey, UTC, Format, layout_month. simpl.
    now rewrite HY1, HM1.
  - rewrite !BucketStart_not_month by assumption. intros Hq.
    apply mul_cancel_r in Hq; [|apply Duration_pos].
    revert Hq. unfold Window.BucketKey, Window.Duration, UTC.
    destruct (Z.eqb_spec w Window.PerMinute) as [->|H0].
    { intros Hq. apply same_minute in Hq as (Hd & Hh & Hmi).
      apply same_unixDay in Hd as (HY & HM & HD).
      unfold Format, layout_minute. simpl. now rewrite HY, HM, HD, Hh, Hmi. }
    assert (Hhour : t1 / Hour = t2 / Hour ->
              Format t1 layout_hour = Format t2 layout_hour).
    { intros Hq. apply same_hour in Hq as (Hd & Hh).
      apply same_unixDay in Hd as (HY & HM & HD).
      unfold Format, layout_hour. simpl. now rewrite HY, HM, HD, Hh. }
    destruct (Z.eqb_spec w Window.PerHour) as [->|H1]; [exact Hhour|].
    destruct (Z.eqb_spec w Window.PerDay) as [->|H2].
    { intros Hq. apply same_day in Hq.
      apply same_unixDay in Hq as (HY & HM & HD).
      unfold Format, layout_day. simpl. now rewrite HY, HM, HD. }
    destruct (Z.eqb_spec w Window.PerMonth) as [->|H3]; [contradiction|].
    exact Hhour.
Qed.

(** Same bucket key, same bucket start. *)
Lemma BucketKey_BucketStart (w : Window.t) (t1 t2 : Time) :
  Window.BucketKey w t1 = Window.BucketKey w t2 ->
  Window.BucketStart w t1 = Window.BucketStart w t2.
Proof.
  unfold Window.BucketKey, Window.BucketStart, UTC.
  assert (Hhour : Format t1 layout_hour = Format t2 layout_hour ->
            Date (Time_Year t1) (Time_Month t1) (Time_Day t1) (Time_Hour t1) 0 0 0
            = Date (Time_Year t2) (Time_Month t2) (Time_Day t2) (Time_Hour t2) 0 0 0).
  { intros (HY & HM & HD & Hh)%Format_hour_inj. now rewrite HY, HM, HD, Hh. }
  destruct (w =? Window.PerMinute).
  { intros (HY & HM & HD & Hh & Hmi)%Format_minute_inj.
    now rewrite HY, HM, HD, Hh, Hmi. }
  destruct (w =? Window.PerHour); [exact Hhour|].
  destruct (w =? Window.PerDay).
  { intros (HY & HM & HD)%Format_day_inj. now rewrite HY, HM, HD. }
  destruct (w =? Window.PerMonth); [|exact Hhour].
  intros (HY & HM)%Format_month_inj. now rewrite HY, HM.
Qed.

(** Bucket keys are collision-free: for every window kind, two instants
    get the same bucket key exactly when they lie in the same bucket,
    that is, have the same bucket start. For the kinds other than
    [PerMonth] this is when both truncate to the same multiple of the
    window's duration. *)
Theorem BucketKey_identifies_bucket (w : Window.t) (t1 t2 : Time) :
  (Window.BucketKey w t1 = Window.BucketKey w t2
   <-> Window.BucketStart w t1 = Window.BucketStart w t2)
  /\ (w <> Window.PerMonth ->
      (Window.BucketKey w t1 = Window.BucketKey w t2
       <-> t1 / Window.Duration w = t2 / Window.Duration w)).
Proof.
  assert (Hiff : Window.BucketKey w t1 = Window.BucketKey w t2
                 <-> Window.BucketStart w t1 = Window.BucketStart w t2)
    by (split; [apply BucketKey_BucketStart | apply BucketStart_BucketKey]).
  split; [exact Hiff|]. intros Hw. rewrite Hiff.
  rewrite !BucketStart_not_month by assumption. split.
  - apply mul_cancel_r, Duration_pos.
  - now intros ->.
Qed.

Lemma BucketKey_identifies_bucket_witness :
  Window.BucketKey Window.PerMinute Fixtures.now0
    = Window.BucketKey Window.PerMinute (Date 2024 1 15 14 30 59 0)
  <-> Fixtures.now0 / Window.Duration Window.PerMinute
      = Date 2024 1 15 14 30 59 0 / Window.Duration Window.PerMinute.
Proof.
  apply (proj2 (BucketKey_identifies_bucket Window.PerMinute Fixtures.now0
                  (Date 2024 1 15 14 30 59 0))).
  discriminate.
Defined.

End BucketKeyProps.

(* ===================================================================== *)
(** * Reset, failures and the Redis key space *)
(* ===================================================================== *)

Section ResetProps.
Import GoInt Contract ContractMore.

#[global] Instance Memory_Resetting : Resetting MemoryStore.t.
Proof.
  constructor. intros m ctx key Hm _.
  eexists. split; [reflexivity|]. split; [|split].
  - intros k b. simpl. intros [_ Hb]%lookup_delete_Some. now apply (Hm k).
  - unfold entry. simpl. unfold MemoryView.entry. simpl.
    now rewrite lookup_delete_eq.
  - intros key' Hne. unfold entry. simpl. unfold MemoryView.entry. simpl.
    now rewrite lookup_delete_ne by congruence.
Qed.

#[global] Instance SQLite_Resetting : Resetting SQLiteStore.t.
Proof.
  constructor. intros s ctx key [Hopen Hs] Hctx.
  change (store.Reset s ctx key) with (SQLiteStore.Reset s ctx key).
  unfold SQLiteStore.Reset. rewrite SQLite_conn_ok by assumption.
  eexists. split; [reflexivity|]. split; [|split].
  - split; [exact Hopen|]. intros k r. simpl.
    intros [_ Hr]%lookup_delete_Some. now apply (Hs k).
  - unfold entry. simpl. unfold SQLiteView.entry. simpl.
    now rewrite lookup_delete_eq.
  - intros key' Hne. unfold entry. simpl. unfold SQLiteView.entry. simpl.
    now rewrite lookup_delete_ne by congruence.
Qed.

#[global] Instance Redis_Resetting : Resetting RedisStore.t.
Proof.
  constructor. intros r ctx key [Hopen Hwf] Hctx.
  change (store.Reset r ctx key) with (RedisStore.Reset r ctx key).
  unfold RedisStore.Reset. rewrite Redis_conn_ok by assumption.
  eexists. split; [reflexivity|]. split; [|split].
  - split; [exact Hopen|]. intros k e. simpl.
    intros [_ He]%lookup_delete_Some. now apply (Hwf k).
  - unfold entry. simpl. unfold RedisView.entry. simpl.
    now rewrite lookup_delete_eq.
  - intros key' Hne. unfold entry. simpl. unfold RedisView.entry. simpl.
    rewrite lookup_delete_ne; [reflexivity|].
    intros Heq. apply redisKey_inj in Heq. congruence.
Qed.

(** What the contract classes give of the Reset clause; the last part,
    that a second [Reset] leaves the state as it is, is supplied per
    backend. *)
Lemma Resetting_Reset_clears (S : Type) {StoreS : store.Store S}
    {C : Counting S} {R : Reading S} {X : Resetting S} :
  (forall s ctx key s1, healthy s -> ctx_Err ctx = None ->
     store.Reset s ctx key = (None, s1) -> store.Reset s1 ctx key = (None, s1)) ->
  Reset_clears S healthy entry.
Proof.
  intros Hidem s ctx key Hs Hctx.
  destruct (Reset_contract s ctx key Hs Hctx) as (s1 & Hreset & Hs1 & He & Hother).
  exists s1. repeat split; try assumption.
  - intros w. rewrite (Get_contract s1 ctx key w Hs1 Hctx), He. reflexivity.
  - intros w.
    destruct (Increment_contract s1 ctx key w Hs1 Hctx) as (s2 & Hinc & _).
    { rewrite He. simpl. pose proof max_int64_pos. lia. }
    rewrite Hinc, He. reflexivity.
  - now apply (Hidem s ctx key).
Qed.

(** [Reset] on each backend (memory, SQLite, Redis), the backend
    answering and the context live: it succeeds, removes the counter of
    the key and leaves the counters of all other keys alone; the next
    [Get] of the key reads 0 and the next [Increment] counts 1, in any
    window; resetting again, or resetting a key that has no counter,
    changes nothing. *)
Theorem Reset_clears_every_backend :
  Reset_clears MemoryStore.t MemoryView.healthy MemoryView.entry
  /\ Reset_clears SQLiteStore.t SQLiteView.healthy SQLiteView.entry
  /\ Reset_clears RedisStore.t RedisView.healthy RedisView.entry.
Proof.
  split; [|split].
  - apply (@Resetting_Reset_clears MemoryStore.t _ Memory_Counting Memory_Reading Memory_Resetting).
    intros m ctx key m1 _ _ [= <-]. simpl. unfold MemoryStore.Reset. simpl.
    now rewrite delete_delete_eq.
  - apply (@Resetting_Reset_clears SQLiteStore.t _ SQLite_Counting SQLite_Reading SQLite_Resetting).
    intros s ctx key s1 [Hopen _] Hctx. simpl. unfold SQLiteStore.Reset.
    rewrite SQLite_conn_ok by assumption. intros [= <-].
    unfold SQLiteStore.conn. simpl. rewrite Hopen, Hctx.
    now rewrite delete_delete_eq.
  - apply (@Resetting_Reset_clears RedisStore.t _ Redis_Counting Redis_Reading Redis_Resetting).
    intros r ctx key r1 [Hopen _] Hctx. simpl. unfold RedisStore.Reset.
    rewrite Redis_conn_ok by assumption. intros [= <-].
    unfold RedisStore.conn. simpl. rewrite Hopen, Hctx.
    now rewrite delete_delete_eq.
Qed.

(** Test*StoreReset on the database holding 3. *)
Lemma Reset_clears_every_backend_witness :
  exists s1,
    SQLiteStore.Reset (Fixtures.durable 3) Background "key" = (None, s1)
    /\ SQLiteView.healthy s1
    /\ SQLiteView.entry s1 "key" = None
    /\ (forall key', key' <> "key" ->
          SQLiteView.entry s1 key' = SQLiteView.entry (Fixtures.durable 3) key')
    /\ (forall w, (SQLiteStore.Get s1 Background "key" w).1 = (0, None))
    /\ (forall w, (SQLiteStore.Increment s1 Background "key" w).1 = (1, None))
    /\ SQLiteStore.Reset s1 Background "key" = (None, s1).
Proof.
  apply (proj1 (proj2 Reset_clears_every_backend)
           (Fixtures.durable 3) Background "key").
  - apply durable_healthy. unfold min_int64, max_int64. lia.
  - reflexivity.
Defined.

End ResetProps.

Section FailureProps.

Lemma errors_Is_unfold (err target : error) :
  errors_Is err target
  = if bool_decide (err = target) then true
    else match err with
         | LimitExceededError _ _ _ => bool_decide (ErrLimitExceeded = target)
         | Errorf _ err' => errors_Is err' target
         | ErrLimitExceeded | ErrorString _ => false
         end.
Proof. destruct err; reflexivity. Qed.

Lemma errors_Is_refl (e : error) : errors_Is e e = true.
Proof. rewrite errors_Is_unfold. now rewrite bool_decide_eq_true_2. Qed.

(** [errors.Is] looks through the [%w] of [fmt.Errorf]. *)
Lemma errors_Is_Errorf (prefix : string) (e target : error) :
  errors_Is e target = true -> errors_Is (Errorf prefix e) target = true.
Proof. intros He. rewrite errors_Is_unfold, He. now destruct (bool_decide _). Qed.

(** When no connection is to be had, because the handle or client has
    been closed or the context is done, every operation of the SQLite and
    Redis backends returns that error and writes nothing. SQLite returns
    the error as it is; Redis wraps it for [Increment] and [Get] (so that
    [errors.Is] still finds it) and returns it as it is for [Reset]. *)
Theorem no_connection_no_write :
  (forall (s : SQLiteStore.t) (ctx : Context) (key : string) (w : store.Window)
          (e : error),
     SQLiteStore.conn s ctx = Some e ->
     SQLiteStore.Increment s ctx key w = ((0, Some e), s)
     /\ SQLiteStore.Get s ctx key w = ((0, Some e), s)
     /\ SQLiteStore.Reset s ctx key = (Some e, s))
  /\ (forall (r : RedisStore.t) (ctx : Context) (key : string) (w : store.Window)
             (e : error),
        RedisStore.conn r ctx = Some e ->
        RedisStore.Increment r ctx key w
          = ((0, Some (Errorf "erl/store/redis: increment: " e)), r)
        /\ RedisStore.Get r ctx key w
           = ((0, Some (Errorf "erl/store/redis: get: " e)), r)
        /\ RedisStore.Reset r ctx key = (Some e, r)
        /\ errors_Is (Errorf "erl/store/redis: increment: " e) e = true
        /\ errors_Is (Errorf "erl/store/redis: get: " e) e = true).
Proof.
  split.
  - intros s ctx key w e Hconn.
    unfold SQLiteStore.Increment, SQLiteStore.Get, SQLiteStore.Reset.
    now rewrite Hconn.
  - intros r ctx key w e Hconn.
    unfold RedisStore.Increment, RedisStore.Get, RedisStore.Reset.
    rewrite Hconn. repeat split; apply errors_Is_Errorf, errors_Is_refl.
Qed.

Lemma no_connection_no_write_witness :
  SQLiteStore.Increment Fixtures.closed_db Background "key" Fixtures.w1
    = ((0, Some SQLiteStore.errDBClosed), Fixtures.closed_db)
  /\ SQLiteStore.Get Fixtures.closed_db Background "key" Fixtures.w1
     = ((0, Some SQLiteStore.errDBClosed), Fixtures.closed_db)
  /\ SQLiteStore.Reset Fixtures.closed_db Background "key"
     = (Some SQLiteStore.errDBClosed, Fixtures.closed_db).
Proof.
  apply (proj1 no_connection_no_write Fixtures.closed_db Background "key"
           Fixtures.w1 SQLiteStore.errDBClosed).
  reflexivity.
Defined.

(** After [Close] the SQLite backend refuses every operation with
    [sql: database is closed], whatever the context, and the table keeps
    the rows it had; closing again succeeds. On Redis the operations
    fail with [redis: client is closed] and closing again reports that
    error. *)
Theorem Close_then_operations_fail :
  (forall (s : SQLiteStore.t) (ctx : Context) (key : string) (w : store.Window),
     let s' := (SQLiteStore.Close s).2 in
     (SQLiteStore.Close s).1 = None
     /\ SQLiteStore.erl_counters s' = SQLiteStore.erl_counters s
     /\ SQLiteStore.Increment s' ctx key w = ((0, Some SQLiteStore.errDBClosed), s')
     /\ SQLiteStore.Get s' ctx key w = ((0, Some SQLiteStore.errDBClosed), s')
     /\ SQLiteStore.Reset s' ctx key = (Some SQLiteStore.errDBClosed, s')
     /\ SQLiteStore.Close s' = (None, s'))
  /\ (forall (r : RedisStore.t) (ctx : Context) (key : string) (w : store.Window),
        RedisStore.client_closed r = false ->
        let r' := (RedisStore.Close r).2 in
        (RedisStore.Close r).1 = None
        /\ RedisStore.keyspace r' = RedisStore.keyspace r
        /\ RedisStore.Increment r' ctx key w
           = ((0, Some (Errorf "erl/store/redis: increment: " RedisStore.ErrClosed)), r')
        /\ RedisStore.Get r' ctx key w
           = ((0, Some (Errorf "erl/store/redis: get: " RedisStore.ErrClosed)), r')
        /\ RedisStore.Reset r' ctx key = (Some RedisStore.ErrClosed, r')
        /\ RedisStore.Close r' = (Some RedisStore.ErrClosed, r')).
Proof.
  split.
  - intros s ctx key w. simpl. repeat split.
  - intros r ctx key w Hopen. unfold RedisStore.Close. rewrite Hopen. simpl.
    repeat split.
Qed.

Lemma Close_then_operations_fail_witness :
  let r := RedisStore.NewRedisStore ∅ in
  let r' := (RedisStore.Close r).2 in
  (RedisStore.Close r).1 = None
  /\ RedisStore.keyspace r' = RedisStore.keyspace r
  /\ RedisStore.Increment r' {| ctx_Err := Some Canceled |} "key" Fixtures.w1
     = ((0, Some (Errorf "erl/store/redis: increment: " RedisStore.ErrClosed)), r')
  /\ RedisStore.Get r' {| ctx_Err := Some Canceled |} "key" Fixtures.w1
     = ((0, Some (Errorf "erl/store/redis: get: " RedisStore.ErrClosed)), r')
  /\ RedisStore.Reset r' {| ctx_Err := Some Canceled |} "key" = (Some RedisStore.ErrClosed, r')
  /\ RedisStore.Close r' = (Some RedisStore.ErrClosed, r').
Proof.
  apply (proj2 Close_then_operations_fail (RedisStore.NewRedisStore ∅)
           {| ctx_Err := Some Canceled |} "key" Fixtures.w1).
  reflexivity.
Defined.

End FailureProps.

Section RedisKeySpace.
Import GoInt Contract.
Import RedisStore.




End RedisKeySpace.

(* ===================================================================== *)
(** * TieredStore: the two tiers together *)
(* ===================================================================== *)

Section TieredMore.
Import GoInt Contract ContractMore.
Import TieredStore TieredView.

Context {P : Type} {StoreP : store.Store P} {C : Counting P}.

(** A tiered store over a durable backend that holds no counter starts
    with its tiers in agreement. *)
Lemma tiers_agree_fresh (p : P) :
  healthy p -> (forall key, entry p key = None) -> tiers_agree (NewTieredStore p).
Proof.
  intros Hp Hnone. split; [|split].
  - apply Memory_empty_healthy.
  - exact Hp.
  - intros key. unfold in_sync. simpl. rewrite Hnone.
    unfold MemoryView.entry. simpl. now rewrite lookup_empty.
Qed.

Lemma tiers_agree_Increment (ts : TieredStore.t P) (ctx : Context) (key : string)
    (w : store.Window) :
  tiers_agree ts -> ctx_Err ctx = None ->
  counted (entry (persistent ts) key) (store.BucketKey w) < max_int64 ->
  exists ts',
    Increment ts ctx key w
      = ((counted (entry (persistent ts) key) (store.BucketKey w) + 1, None), ts')
    /\ tiers_agree ts'.
Proof.
  intros (Hm & Hp & Hsync) Hctx Hlt.
  destruct (Increment_contract (persistent ts) ctx key w Hp Hctx Hlt)
    as (p1 & Hinc & Hp1 & He & Hother).
  assert (Hlt' : counted (MemoryView.entry (memory ts) key) (store.BucketKey w)
                 < max_int64) by (rewrite (Hsync key); exact Hlt).
  destruct (@Increment_contract MemoryStore.t _ Memory_Counting
              (memory ts) ctx key w Hm Hctx Hlt')
    as (m1 & Hmi & Hm1 & Hme & Hmother).
  change (store.Increment (memory ts) ctx key w)
    with (MemoryStore.Increment (memory ts) ctx key w) in Hmi.
  unfold Increment. rewrite Hinc, Hmi.
  eexists. split; [reflexivity|]. split; [exact Hm1|]. split; [exact Hp1|].
  intros k. unfold in_sync. simpl.
  destruct (decide (k = key)) as [->|Hne].
  - change (MemoryView.entry m1 key) with (@entry _ _ Memory_Counting m1 key).
    rewrite Hme, He. simpl. now rewrite (Hsync key).
  - change (MemoryView.entry m1 k) with (@entry _ _ Memory_Counting m1 k).
    rewrite (Hmother k Hne), (Hother k Hne). apply (Hsync k).
Qed.

Lemma tiers_agree_Get {R : Reading P} (ts : TieredStore.t P) (ctx : Context)
    (key : string) (w : store.Window) :
  tiers_agree ts -> ctx_Err ctx = None ->
  Get ts ctx key w
  = ((counted (entry (persistent ts) key) (store.BucketKey w), None), ts).
Proof.
  intros (Hm & Hp & Hsync) Hctx.
  assert (Hcount : memory_count ts key w
                   = counted (entry (persistent ts) key) (store.BucketKey w)).
  { unfold memory_count. now rewrite (Hsync key). }
  destruct (Z.lt_ge_cases 0 (memory_count ts key w)) as [Hpos|Hle].
  - rewrite Tiered_Get_hit by assumption. now rewrite Hcount.
  - rewrite (Tiered_Get_miss ts ctx key w _ None (persistent ts) Hle
               (Get_contract (persistent ts) ctx key w Hp Hctx)).
    rewrite <- Hcount.
    replace (_ >? 0) with false
      by (symmetry; rewrite Z.gtb_ltb; apply Z.ltb_ge; lia).
    now destruct ts.
Qed.

Lemma tiers_agree_Reset {X : Resetting P} (ts : TieredStore.t P) (ctx : Context)
    (key : string) :
  tiers_agree ts -> ctx_Err ctx = None ->
  exists ts',
    Reset ts ctx key = (None, ts')
    /\ tiers_agree ts'
    /\ entry (persistent ts') key = None.
Proof.
  intros (Hm & Hp & Hsync) Hctx.
  destruct (Reset_contract (persistent ts) ctx key Hp Hctx)
    as (p1 & Hreset & Hp1 & He & Hother).
  unfold Reset. simpl. rewrite Hreset.
  eexists. split; [reflexivity|]. split; [|exact He].
  split; [|split; [exact Hp1|]].
  - intros k b. simpl. intros [_ Hb]%lookup_delete_Some. now apply (Hm k).
  - intros k. unfold in_sync, MemoryView.entry. simpl.
    destruct (decide (k = key)) as [->|Hne].
    + now rewrite lookup_delete_eq, He.
    + rewrite lookup_delete_ne by congruence. rewrite (Hother k Hne).
      apply (Hsync k).
Qed.

(** As long as every write goes through the tiered store, the memory
    tier is a faithful copy of the durable tier. A tiered store created
    over a durable backend that holds no counter has its two tiers in
    agreement (the same count and bucket key for every key), and, on a
    live context with the durable backend answering, [Increment] (below
    the largest [int64]), [Get] and [Reset] keep them in agreement. In
    that state [Increment] returns the durable count plus one, [Get]
    returns the durable count and changes nothing at all, no backfill
    included, and [Reset] succeeds and removes the counter from both
    tiers. *)
Theorem Tiered_tiers_stay_in_agreement {R : Reading P} {X : Resetting P} :
  (forall p : P, healthy p -> (forall key, entry p key = None) ->
     tiers_agree (NewTieredStore p))
  /\ (forall (ts : TieredStore.t P) (ctx : Context) (key : string) (w : store.Window),
        tiers_agree ts -> ctx_Err ctx = None ->
        (counted (entry (persistent ts) key) (store.BucketKey w) < max_int64 ->
         exists ts',
           Increment ts ctx key w
             = ((counted (entry (persistent ts) key) (store.BucketKey w) + 1, None), ts')
           /\ tiers_agree ts')
        /\ Get ts ctx key w
           = ((counted (entry (persistent ts) key) (store.BucketKey w), None), ts)
        /\ (exists ts',
              Reset ts ctx key = (None, ts')
              /\ tiers_agree ts'
              /\ entry (persistent ts') key = None
              /\ MemoryView.entry (memory ts') key = None)).
Proof.
  split; [exact tiers_agree_fresh|].
  intros ts ctx key w Hagree Hctx. split; [|split].
  - now apply tiers_agree_Increment.
  - now apply tiers_agree_Get.
  - destruct (tiers_agree_Reset ts ctx key Hagree Hctx) as (ts' & Hr & Ha & He).
    exists ts'. split; [exact Hr|]. split; [exact Ha|]. split; [exact He|].
    destruct Ha as (_ & _ & Hsync). unfold in_sync in Hsync.
    now rewrite (Hsync key).
Qed.

(** The memory tier mirrors increments, not counts. When the memory tier
    stands at [m] and the durable tier at [c] for the key in the window,
    [Increment] returns [c + 1], and a [Get] right after it returns
    [m + 1], read from the memory tier alone. So a tiered store created
    over a durable backend that already holds [c] (a restart within the
    bucket) answers [c + 1] to the first [Increment] and 1 to the [Get]
    that follows. *)
Theorem Tiered_Get_after_Increment_reads_memory_tier (ts : TieredStore.t P)
    (ctx : Context) (key : string) (w : store.Window) (m : Z) :
  healthy (persistent ts) -> ctx_Err ctx = None ->
  counted (entry (persistent ts) key) (store.BucketKey w) < max_int64 ->
  memory_count ts key w = m -> 0 <= m < max_int64 ->
  exists ts',
    Increment ts ctx key w
      = ((counted (entry (persistent ts) key) (store.BucketKey w) + 1, None), ts')
    /\ Get ts' ctx key w = ((m + 1, None), ts')
    /\ entry (persistent ts') key
       = Some (counted (entry (persistent ts) key) (store.BucketKey w) + 1,
               store.BucketKey w).
Proof.
  intros Hp Hctx Hlt Hm Hrange.
  destruct (Increment_contract (persistent ts) ctx key w Hp Hctx Hlt)
    as (p1 & Hinc & Hp1 & He & _).
  unfold Increment. rewrite Hinc.
  rewrite (Memory_Increment_eq (memory ts) ctx key w). cbv zeta.
  fold (memory_count ts key w). rewrite Hm.
  assert (Hmin : min_int64 <= m) by (unfold min_int64; lia).
  rewrite wrap64_succ by lia.
  match goal with
  | |- exists ts', (_, ?ts1) = _ /\ _ => set (ts' := ts1); exists ts'
  end.
  split; [reflexivity|]. split; [|exact He].
  assert (Hcount : memory_count ts' key w = m + 1).
  { unfold memory_count, MemoryView.entry. simpl. rewrite lookup_insert_eq. simpl.
    now rewrite String.eqb_refl. }
  rewrite <- Hcount. apply Tiered_Get_hit. rewrite Hcount. lia.
Qed.

End TieredMore.

Section TieredMoreWitnesses.
Import GoInt Contract ContractMore.
Import TieredStore TieredView.

(** A tiered store over an empty SQLite database. *)
Lemma Tiered_tiers_stay_in_agreement_witness :
  let ts := NewTieredStore (SQLiteStore.NewSQLiteStore ∅) in
  (counted (SQLiteView.entry (persistent ts) "key") (store.BucketKey Fixtures.w1)
     < max_int64 ->
   exists ts',
     Increment ts Background "key" Fixtures.w1
       = ((counted (SQLiteView.entry (persistent ts) "key")
             (store.BucketKey Fixtures.w1) + 1, None), ts')
     /\ tiers_agree ts')
  /\ Get ts Background "key" Fixtures.w1
     = ((counted (SQLiteView.entry (persistent ts) "key")
           (store.BucketKey Fixtures.w1), None), ts)
  /\ (exists ts',
        Reset ts Background "key" = (None, ts')
        /\ tiers_agree ts'
        /\ SQLiteView.entry (persistent ts') "key" = None
        /\ MemoryView.entry (memory ts') "key" = None).
Proof.
  intros ts.
  apply (proj2 (@Tiered_tiers_stay_in_agreement SQLiteStore.t _ SQLite_Counting
                  SQLite_Reading SQLite_Resetting) ts Background "key" Fixtures.w1).
  - apply (@tiers_agree_fresh SQLiteStore.t _ SQLite_Counting).
    + apply SQLite_empty_healthy.
    + intros key. unfold entry. simpl. unfold SQLiteView.entry. simpl.
      now rewrite lookup_empty.
  - reflexivity.
Defined.

(** TestTieredStorePersistentFallback continued: the database holds 3,
    a fresh tiered store increments once and then reads. *)
Lemma Tiered_Get_after_Increment_reads_memory_tier_witness :
  let ts := NewTieredStore (Fixtures.durable 3) in
  exists ts',
    Increment ts Background "key" Fixtures.w1
      = ((counted (SQLiteView.entry (Fixtures.durable 3) "key")
            (store.BucketKey Fixtures.w1) + 1, None), ts')
    /\ Get ts' Background "key" Fixtures.w1 = ((0 + 1, None), ts')
    /\ SQLiteView.entry (persistent ts') "key"
       = Some (counted (SQLiteView.entry (Fixtures.durable 3) "key")
                 (store.BucketKey Fixtures.w1) + 1,
               store.BucketKey Fixtures.w1).
Proof.
  intros ts.
  apply (@Tiered_Get_after_Increment_reads_memory_tier SQLiteStore.t _
           SQLite_Counting ts Background "key" Fixtures.w1 0).
  - apply durable_healthy. unfold min_int64, max_int64. lia.
  - reflexivity.
  - vm_compute. reflexivity.
  - apply memory_count_fresh.
  - unfold max_int64. lia.
Defined.

End TieredMoreWitnesses.

Section TieredResetError.
Import GoInt Contract.
Import TieredStore TieredView.

(** [TieredStore.Reset] clears the memory tier before it asks the
    durable tier, and does not undo that when the durable [Reset] fails:
    the error is returned as it is, the memory tier has lost the key
    (and only that key), and the next [Get] of the key goes to the
    durable tier and returns whatever count that still holds. *)
Theorem Tiered_Reset_durable_error {P : Type} {StoreP : store.Store P}
    (ts : TieredStore.t P) (ctx : Context) (key : string) (e : error) (p1 : P) :
  store.Reset (persistent ts) ctx key = (Some e, p1) ->
  (Reset ts ctx key).1 = Some e
  /\ persistent (Reset ts ctx key).2 = p1
  /\ MemoryView.entry (memory (Reset ts ctx key).2) key = None
  /\ (forall key', key' <> key ->
        MemoryView.entry (memory (Reset ts ctx key).2) key'
        = MemoryView.entry (memory ts) key')
  /\ (forall ctx' w count p2,
        store.Get p1 ctx' key w = ((count, None), p2) ->
        (Get (Reset ts ctx key).2 ctx' key w).1 = (count, None)).
Proof.
  intros Hreset. unfold Reset. simpl. rewrite Hreset. simpl.
  assert (Hnone : MemoryView.entry
                    {| MemoryStore.buckets :=
                         delete key (MemoryStore.buckets (memory ts)) |} key = None).
  { unfold MemoryView.entry. simpl. now rewrite lookup_delete_eq. }
  repeat split.
  - exact Hnone.
  - intros key' Hne. unfold MemoryView.entry. simpl.
    now rewrite lookup_delete_ne by congruence.
  - intros ctx' w count p2 Hget.
    rewrite (Tiered_Get_miss _ ctx' key w count None p2); [reflexivity| |exact Hget].
    unfold memory_count. simpl. rewrite Hnone. simpl. lia.
Qed.

(** The memory tier holds 2, the database handle is closed. *)
Lemma Tiered_Reset_durable_error_witness :
  let m := (MemoryStore.Increment
              (MemoryStore.Increment MemoryStore.NewMemoryStore
                 Background "key" Fixtures.w1).2 Background "key" Fixtures.w1).2 in
  let ts := {| memory := m; persistent := Fixtures.closed_db |} in
  (Reset ts Background "key").1 = Some SQLiteStore.errDBClosed
  /\ persistent (Reset ts Background "key").2 = Fixtures.closed_db
  /\ MemoryView.entry (memory (Reset ts Background "key").2) "key" = None
  /\ (forall key', key' <> "key" ->
        MemoryView.entry (memory (Reset ts Background "key").2) key'
        = MemoryView.entry (memory ts) key')
  /\ (forall ctx' w count p2,
        store.Get Fixtures.closed_db ctx' "key" w = ((count, None), p2) ->
        (Get (Reset ts Background "key").2 ctx' "key" w).1 = (count, None)).
Proof.
  intros m ts.
  apply (Tiered_Reset_durable_error ts Background "key" SQLiteStore.errDBClosed
           Fixtures.closed_db).
  reflexivity.
Defined.

End TieredResetError.

(* ===================================================================== *)
(** * More on the limiter *)
(* ===================================================================== *)

Section LimiterMore.
Import GoInt Contract ContractMore LimiterView UsageView.
Import Limiter.

Context {S : Type} {StoreS : store.Store S} {H : Type}.
Variable url_Parse : string -> option Matcher.URL.

Lemma matchURL_unparsable (rawURL pattern : string) :
  url_Parse rawURL = None -> Matcher.matchURL url_Parse rawURL pattern = false.
Proof. unfold Matcher.matchURL. now intros ->. Qed.

(** The loop stops at the first match: what follows it is never looked
    at. *)
Lemma Check_range_first (r : Resource) (rest rest' : list Resource)
    (l : Limiter.t S H) (ctx : Context) (now : GoTime.Time) (rawURL : string) (h : H) :
  Matcher.matchURL url_Parse rawURL (Pattern r) = true ->
  Check_range url_Parse (r :: rest) l ctx now rawURL h
  = Check_range url_Parse (r :: rest') l ctx now rawURL h.
Proof. intros Hr. simpl. now rewrite Hr. Qed.

(** The loop reads the store and the callback of the limiter, not its
    resource list. *)
Lemma Check_range_Register (rs : list Resource) (l : Limiter.t S H) (r2 : Resource)
    (ctx : Context) (now : GoTime.Time) (rawURL : string) (h : H) :
  Check_range url_Parse rs (Register l r2) ctx now rawURL h
  = (let '(e, l1, h1) := Check_range url_Parse rs l ctx now rawURL h in
     (e, Register l1 r2, h1)).
Proof.
  induction rs as [|r rs IH]; simpl; [reflexivity|].
  destruct (Matcher.matchURL url_Parse rawURL (Pattern r)); simpl; [|exact IH].
  destruct (store.Increment (store l) ctx (Name r) (window_at r now))
    as [[current err] s1].
  destruct err; [reflexivity|].
  destruct (current >? Limit r); [|reflexivity].
  repeat (destruct (Strategy r =? _); [reflexivity|]). reflexivity.
Qed.

(** [Check] fails open. A URL that [url.Parse] rejects, or that matches
    no registered pattern, is allowed: [Check] returns nil, the store is
    not asked (so neither a closed store nor a cancelled context shows),
    and limiter and host are left as they were. A URL that does not
    parse passes even when a catch-all ["*"] resource is registered. *)
Theorem Check_fails_open (l : Limiter.t S H) (ctx : Context) (now : GoTime.Time)
    (rawURL : string) (h : H) :
  url_Parse rawURL = None
  \/ Forall (fun r => Matcher.matchURL url_Parse rawURL (Pattern r) = false)
       (resources l) ->
  Check url_Parse l ctx now rawURL h = (None, l, h).
Proof.
  intros [Hbad|Hnone]; apply Check_unmatched; [|exact Hnone].
  apply Forall_forall. intros r _. now apply matchURL_unparsable.
Qed.

(** Registration order is precedence. For a URL that some resource of
    the limiter already matches, registering one more resource changes
    nothing about [Check]: same verdict, same store, same callback
    effects. A URL that matched nothing is charged to the new resource
    exactly when it matches the new pattern. *)
Theorem Register_precedence (l : Limiter.t S H) (r2 : Resource) (ctx : Context)
    (now : GoTime.Time) (rawURL : string) (h : H) :
  ((exists r, first_match url_Parse l rawURL r) ->
   Check url_Parse (Register l r2) ctx now rawURL h
   = (let '(e, l1, h1) := Check url_Parse l ctx now rawURL h in
      (e, Register l1 r2, h1)))
  /\ (Forall (fun r => Matcher.matchURL url_Parse rawURL (Pattern r) = false)
        (resources l) ->
      (Matcher.matchURL url_Parse rawURL (Pattern r2) = true ->
       first_match url_Parse (Register l r2) rawURL r2)
      /\ (Matcher.matchURL url_Parse rawURL (Pattern r2) = false ->
          Check url_Parse (Register l r2) ctx now rawURL h
          = (None, Register l r2, h))).
Proof.
  split.
  - intros (r & pre & post & Hres & Hpre & Hr).
    unfold Check. simpl resources. rewrite Hres.
    rewrite <- app_assoc, <- app_comm_cons.
    rewrite !Check_range_skip by assumption.
    rewrite (Check_range_first r (post ++ [r2]) post) by assumption.
    apply Check_range_Register.
  - intros Hnone. split.
    + intros Hr2. exists (resources l), []. auto.
    + intros Hr2. apply Check_unmatched. simpl.
      apply Forall_app. split; [exact Hnone|]. now constructor.
Qed.

(** A store failure closes the gate, whatever the strategy and the
    limit: when the [Increment] of the matched resource fails, [Check]
    returns the store's error wrapped with ["erl: store error: "], also
    for a [LogOnly] resource; the callback is not invoked. The cause
    stays reachable through [errors.Is], and the error is a
    limit-exceeded error only if the cause is one. *)
Theorem Check_store_failure_blocks (l : Limiter.t S H) (ctx : Context)
    (now : GoTime.Time) (rawURL : string) (h : H) (r : Resource) (current : Z)
    (e : error) (s1 : S) :
  first_match url_Parse l rawURL r ->
  store.Increment (store l) ctx (Name r) (window_at r now) = ((current, Some e), s1) ->
  Check url_Parse l ctx now rawURL h
    = (Some (Errorf "erl: store error: " e), with_store l s1, h)
  /\ Error (Errorf "erl: store error: " e) = "erl: store error: " +:+ Error e
  /\ errors_Is (Errorf "erl: store error: " e) e = true
  /\ errors_Is (Errorf "erl: store error: " e) ErrLimitExceeded
     = errors_Is e ErrLimitExceeded.
Proof.
  intros Hfirst Hinc. split; [now apply (Check_store_error url_Parse l ctx now rawURL h r current)|].
  split; [reflexivity|]. split; [apply errors_Is_Errorf, errors_Is_refl|].
  rewrite (errors_Is_unfold (Errorf _ _)).
  now rewrite bool_decide_eq_false_2 by discriminate.
Qed.

End LimiterMore.

Section LimiterCounting.
Import GoInt Contract ContractMore LimiterView UsageView.
Import Limiter.

Context {S : Type} {StoreS : store.Store S} {C : Counting S} {H : Type}.
Variable url_Parse : string -> option Matcher.URL.
Variable strconv_Quote : string -> string.

Lemma Check_limiter (l : Limiter.t S H) (ctx : Context) (now : GoTime.Time)
    (rawURL : string) (h : H) (r : Resource) :
  first_match url_Parse l rawURL r ->
  (Check url_Parse l ctx now rawURL h).1.2
  = with_store l (store.Increment (store l) ctx (Name r) (window_at r now)).2.
Proof.
  intros Hfirst.
  destruct (store.Increment (store l) ctx (Name r) (window_at r now))
    as [[current [e|]] s1] eqn:Hinc.
  - now rewrite (Check_store_error url_Parse l ctx now rawURL h r current e s1).
  - now rewrite (Check_charged url_Parse l ctx now rawURL h r current s1).
Qed.

(** Every check that matches is counted, the blocked ones too, and
    against one counter only. A [Check] charged to [r] (the store
    answering, the context live) leaves the counter of [r.Name] at the
    previous count of the bucket plus one, whether the verdict is nil or
    an error, and leaves the counter of every other name, the resource
    list and the callback as they were. *)
Theorem Check_counts_one_counter (l : Limiter.t S H) (ctx : Context)
    (now : GoTime.Time) (rawURL : string) (h : H) (r : Resource) :
  first_match url_Parse l rawURL r ->
  healthy (store l) -> ctx_Err ctx = None ->
  counted (entry (store l) (Name r)) (Window.BucketKey (Window r) now) < max_int64 ->
  let l' := (Check url_Parse l ctx now rawURL h).1.2 in
  resources l' = resources l
  /\ onLimitReached l' = onLimitReached l
  /\ healthy (store l')
  /\ entry (store l') (Name r)
     = Some (counted (entry (store l) (Name r)) (Window.BucketKey (Window r) now) + 1,
             Window.BucketKey (Window r) now)
  /\ (forall key, key <> Name r -> entry (store l') key = entry (store l) key).
Proof.
  intros Hfirst Hs Hctx Hlt l'. subst l'.
  rewrite (Check_limiter l ctx now rawURL h r Hfirst).
  destruct (Increment_contract (store l) ctx (Name r) (window_at r now) Hs Hctx Hlt)
    as (s1 & Hinc & Hs1 & He & Hother).
  rewrite Hinc. simpl. auto.
Qed.

Lemma GetUsage_not_found (l : Limiter.t S H) (ctx : Context) (now : GoTime.Time)
    (name : string) :
  Forall (fun r => Name r <> name) (resources l) ->
  GetUsage strconv_Quote l ctx now name
  = ((0, Some (ErrorString
                 ("erl: resource " +:+ strconv_Quote name +:+ " not found"))), l).
Proof.
  unfold GetUsage. generalize (resources l) as rs.
  induction 1 as [|r rs Hr _ IH]; simpl; [reflexivity|].
  destruct (String.eqb_spec (Name r) name); [contradiction | exact IH].
Qed.

Lemma GetUsage_first_named (l : Limiter.t S H) (ctx : Context) (now : GoTime.Time)
    (name : string) (r : Resource) :
  first_named l name r ->
  GetUsage strconv_Quote l ctx now name
  = (let '(res, s1) := store.Get (store l) ctx name (window_at r now) in
     (res, with_store l s1)).
Proof.
  intros (pre & post & Hres & Hpre & Hr). unfold GetUsage. rewrite Hres. clear Hres.
  induction Hpre as [|r' pre Hr' _ IH]; simpl.
  - rewrite Hr, String.eqb_refl. reflexivity.
  - destruct (String.eqb_spec (Name r') name); [contradiction | exact IH].
Qed.

Lemma with_store_same (l : Limiter.t S H) : with_store l (store l) = l.
Proof. now destruct l. Qed.

(** [GetUsage] reads the counter of the first registered resource of
    the name, in that resource's window at the instant of the call, and
    changes nothing. For a name no resource carries it returns 0 and the
    not-found error without asking the store, even when the store holds
    a counter under that name. *)
Theorem GetUsage_reads_first_named {R : Reading S} (l : Limiter.t S H)
    (ctx : Context) (now : GoTime.Time) (name : string) :
  (Forall (fun r => Name r <> name) (resources l) ->
   GetUsage strconv_Quote l ctx now name
   = ((0, Some (ErrorString
                  ("erl: resource " +:+ strconv_Quote name +:+ " not found"))), l))
  /\ (forall r, first_named l name r ->
        healthy (store l) -> ctx_Err ctx = None ->
        GetUsage strconv_Quote l ctx now name
        = ((counted (entry (store l) name) (Window.BucketKey (Window r) now), None), l)).
Proof.
  split; [apply GetUsage_not_found|].
  intros r Hnamed Hs Hctx. rewrite (GetUsage_first_named l ctx now name r Hnamed).
  rewrite (Get_contract (store l) ctx name (window_at r now) Hs Hctx).
  now rewrite with_store_same.
Qed.

(** The limiter a run of checks leaves behind, all charged to [r] in the
    bucket [bk]: the counter has advanced by the number of checks. *)
Lemma Check_seq_store (ctx : Context) (r : Resource) (bk : string)
    (l0 : Limiter.t S H) (calls : list (GoTime.Time * string)) :
  forall (l : Limiter.t S H) (h : H) (c0 : Z),
    resources l = resources l0 ->
    Forall (fun call => first_match url_Parse l0 call.2 r
                        /\ Window.BucketKey (Window r) call.1 = bk) calls ->
    healthy (store l) -> ctx_Err ctx = None ->
    counted (entry (store l) (Name r)) bk = c0 ->
    c0 + Z.of_nat (length calls) <= max_int64 ->
    let l' := (Check_seq url_Parse l ctx calls h).1.2 in
    resources l' = resources l0
    /\ healthy (store l')
    /\ counted (entry (store l') (Name r)) bk = c0 + Z.of_nat (length calls).
Proof.
  induction calls as [|[now rawURL] calls IH]; intros l h c0 Hres Hall Hs Hctx Hc0 Hmax.
  - simpl. repeat split; try assumption. lia.
  - apply Forall_cons in Hall as [[Hfirst Hbk] Hall]. simpl in Hfirst, Hbk.
    simpl length in Hmax.
    destruct (Increment_contract (store l) ctx (Name r) (window_at r now) Hs Hctx)
      as (s1 & Hinc & Hs1 & He1 & _).
    { simpl. rewrite Hbk, Hc0. lia. }
    simpl in Hinc, He1. rewrite Hbk, Hc0 in Hinc, He1.
    simpl Check_seq.
    rewrite (Check_charged url_Parse l ctx now rawURL h r (c0 + 1) s1);
      [|now apply (first_match_resources url_Parse l0) | exact Hinc].
    match goal with
    | |- context [Check_seq url_Parse ?l1 ctx calls ?h1] =>
        pose proof (IH l1 h1 (c0 + 1) Hres Hall Hs1 Hctx) as IH';
        destruct (Check_seq url_Parse l1 ctx calls h1) as [[errs l2] h2]
    end.
    simpl in *. destruct IH' as (Hres2 & Hs2 & Hc2).
    + now rewrite He1, counted_same.
    + lia.
    + repeat split; try assumption. lia.
Qed.

(** Usage counts attempts, not admissions. After [N] sequential checks
    charged to [r] in a bucket in which nothing had been counted, a
    [GetUsage] of [r.Name] within the same bucket returns [N], however
    many of the checks were blocked: the usage of a resource can exceed
    its limit. *)
Theorem GetUsage_counts_blocked_checks {R : Reading S} (l : Limiter.t S H)
    (ctx : Context) (calls : list (GoTime.Time * string)) (h : H) (r : Resource)
    (bk : string) (now : GoTime.Time) :
  Forall (fun call => first_match url_Parse l call.2 r
                      /\ Window.BucketKey (Window r) call.1 = bk) calls ->
  first_named l (Name r) r ->
  healthy (store l) -> ctx_Err ctx = None ->
  counted (entry (store l) (Name r)) bk = 0 ->
  Z.of_nat (length calls) <= max_int64 ->
  Window.BucketKey (Window r) now = bk ->
  let l' := (Check_seq url_Parse l ctx calls h).1.2 in
  GetUsage strconv_Quote l' ctx now (Name r) = ((Z.of_nat (length calls), None), l').
Proof.
  intros Hall Hnamed Hs Hctx H0 Hmax Hnow l'.
  destruct (Check_seq_store ctx r bk l calls l h 0 eq_refl Hall Hs Hctx H0)
    as (Hres & Hs' & Hc'); [lia|]. fold l' in Hres, Hs', Hc'.
  assert (Hnamed' : first_named l' (Name r) r).
  { destruct Hnamed as (pre & post & Hl & Hrest). exists pre, post.
    now rewrite Hres. }
  rewrite (GetUsage_first_named l' ctx now (Name r) r Hnamed').
  rewrite (Get_contract (store l') ctx (Name r) (window_at r now) Hs' Hctx).
  simpl. rewrite Hnow, Hc', with_store_same. now rewrite Z.add_0_l.
Qed.

(** [ResetUsage] hands the name to the store's [Reset] without looking
    at the resource list, so it succeeds for any name. After it the
    counter of the name is gone, the other counters are untouched, and
    the next [Check] charged to a resource of that name counts 1: it
    passes when the limit is at least 1, whatever had been counted
    before. *)
Theorem ResetUsage_restarts_count {X : Resetting S} (l : Limiter.t S H)
    (ctx : Context) (now : GoTime.Time) (rawURL : string) (h : H) (r : Resource) :
  healthy (store l) -> ctx_Err ctx = None ->
  exists l1,
    ResetUsage l ctx (Name r) = (None, l1)
    /\ resources l1 = resources l
    /\ entry (store l1) (Name r) = None
    /\ (forall key, key <> Name r -> entry (store l1) key = entry (store l) key)
    /\ (first_match url_Parse l rawURL r -> 1 <= Limit r ->
        exists l2,
          Check url_Parse l1 ctx now rawURL h = (None, l2, h)
          /\ entry (store l2) (Name r)
             = Some (1, Window.BucketKey (Window r) now)).
Proof.
  intros Hs Hctx.
  destruct (Reset_contract (store l) ctx (Name r) Hs Hctx)
    as (s1 & Hreset & Hs1 & He & Hother).
  unfold ResetUsage. rewrite Hreset.
  eexists. split; [reflexivity|]. simpl.
  split; [reflexivity|]. split; [exact He|]. split; [exact Hother|].
  intros Hfirst Hlimit.
  destruct (Increment_contract s1 ctx (Name r) (window_at r now) Hs1 Hctx)
    as (s2 & Hinc & Hs2 & He2 & _).
  { rewrite He. simpl. pose proof max_int64_pos. lia. }
  rewrite He in Hinc, He2. simpl in Hinc, He2.
  exists (with_store (with_store l s1) s2).
  rewrite (Check_charged url_Parse (with_store l s1) ctx now rawURL h r 1 s2);
    [|now apply (first_match_resources url_Parse l) | exact Hinc].
  replace (1 >? Limit r) with false
    by (symmetry; rewrite Z.gtb_ltb; apply Z.ltb_ge; lia).
  split; [reflexivity | exact He2].
Qed.

Lemma Snapshot_range_reads {R : Reading S} (ctx : Context) (now : GoTime.Time)
    (rs : list Resource) :
  forall (l : Limiter.t S H) (out : list ResourceStatus.t),
    healthy (store l) -> ctx_Err ctx = None ->
    Introspection.Snapshot_range rs l ctx now out
    = ((Some (out ++ map (status_at (store l) now) rs)%list, None), l).
Proof.
  induction rs as [|r rs IH]; intros l out Hs Hctx; simpl.
  - now rewrite app_nil_r.
  - rewrite (Get_contract (store l) ctx (Name r) (window_at r now) Hs Hctx).
    rewrite with_store_same, (IH l _ Hs Hctx), <- app_assoc. reflexivity.
Qed.

(** [Snapshot] on a store that answers: one status per registered
    resource, in registration order (an empty, non-nil slice when
    nothing is registered), each carrying the count of the resource's
    name in the resource's own bucket at the one instant taken before
    the loop; the limiter and its store are left as they were. The count
    it lists for the first resource of a name is the one [GetUsage]
    returns at that instant. *)
Theorem Snapshot_lists_every_resource {R : Reading S} (l : Limiter.t S H)
    (ctx : Context) (now : GoTime.Time) :
  healthy (store l) -> ctx_Err ctx = None ->
  Introspection.Snapshot l ctx now
    = ((Some (map (status_at (store l) now) (resources l)), None), l)
  /\ (forall r, first_named l (Name r) r ->
        (GetUsage strconv_Quote l ctx now (Name r)).1
        = (ResourceStatus.Current (status_at (store l) now r), None)).
Proof.
  intros Hs Hctx. split.
  - unfold Introspection.Snapshot. now rewrite Snapshot_range_reads.
  - intros r Hnamed. rewrite (GetUsage_first_named l ctx now (Name r) r Hnamed).
    now rewrite (Get_contract (store l) ctx (Name r) (window_at r now) Hs Hctx).
Qed.

End LimiterCounting.

Section SnapshotError.
Import Limiter.

(** [Snapshot] stops at the first resource whose [Get] fails: it returns
    a nil slice and the store's error wrapped with
    ["erl: snapshot <name>: "], the name being that resource's; the
    statuses already read are dropped and the resources after it are
    not read. *)
Theorem Snapshot_first_error {S : Type} {StoreS : store.Store S} {H : Type}
    (l : Limiter.t S H) (ctx : Context) (now : GoTime.Time) (r : Resource)
    (rest : list Resource) (count : Z) (e : error) (s1 : S) :
  resources l = r :: rest ->
  store.Get (store l) ctx (Name r) (window_at r now) = ((count, Some e), s1) ->
  Introspection.Snapshot l ctx now
    = ((None, Some (Errorf ("erl: snapshot " +:+ Name r +:+ ": ") e)), with_store l s1)
  /\ errors_Is (Errorf ("erl: snapshot " +:+ Name r +:+ ": ") e) e = true.
Proof.
  intros Hres Hget. unfold Introspection.Snapshot. rewrite Hres. simpl.
  rewrite Hget. split; [reflexivity|]. apply errors_Is_Errorf, errors_Is_refl.
Qed.

End SnapshotError.

Section TransportProps.
Import GoInt Contract LimiterView.
Import Limiter.

Context {S : Type} {StoreS : store.Store S} {H : Type} {Response : Type}.
Variable url_Parse : string -> option Matcher.URL.
Variable base : Transport.Request -> H -> (option Response * option error) * H.

(** The transport is a gate in front of the wrapped round tripper. A
    request whose URL matches no resource (or does not parse) goes to
    the wrapped round tripper with limiter and host untouched. A request
    charged to [r] is forwarded when the count is within the limit, and
    also when it is over the limit under a strategy that is neither
    [Block] nor [BlockWithQueue], then after the callback has run. Over
    the limit under [Block] or [BlockWithQueue], and when the store
    fails, the wrapped round tripper is not called at all: the response
    is nil and the error is the one [Check] returned, not wrapped
    again. *)
Theorem RoundTrip_gates_base (l : Limiter.t S H) (now : GoTime.Time)
    (req : Transport.Request) (h : H) :
  (url_Parse (Transport.URL req) = None
   \/ Forall (fun r => Matcher.matchURL url_Parse (Transport.URL req) (Pattern r) = false)
        (resources l) ->
   Transport.RoundTrip url_Parse base l now req h
   = (let '(res, h2) := base req h in (res, l, h2)))
  /\ (forall r current s1,
        first_match url_Parse l (Transport.URL req) r ->
        store.Increment (store l) (Transport.Context req) (Name r) (window_at r now)
          = ((current, None), s1) ->
        (current <= Limit r ->
         Transport.RoundTrip url_Parse base l now req h
         = (let '(res, h2) := base req h in (res, with_store l s1, h2)))
        /\ (current > Limit r ->
            Strategy r = Strategy.Block \/ Strategy r = Strategy.BlockWithQueue ->
            Transport.RoundTrip url_Parse base l now req h
            = ((None, Some (LimitExceededError r current (reset_at r now))),
               with_store l s1, fire (onLimitReached l) r current h))
        /\ (current > Limit r ->
            Strategy r <> Strategy.Block -> Strategy r <> Strategy.BlockWithQueue ->
            Transport.RoundTrip url_Parse base l now req h
            = (let '(res, h2) := base req (fire (onLimitReached l) r current h) in
               (res, with_store l s1, h2))))
  /\ (forall r current e s1,
        first_match url_Parse l (Transport.URL req) r ->
        store.Increment (store l) (Transport.Context req) (Name r) (window_at r now)
          = ((current, Some e), s1) ->
        Transport.RoundTrip url_Parse base l now req h
        = ((None, Some (Errorf "erl: store error: " e)), with_store l s1, h)).
Proof.
  unfold Transport.RoundTrip. split; [|split].
  - intros [Hbad|Hnone].
    + rewrite Check_unmatched; [reflexivity|].
      apply Forall_forall. intros r _. unfold Matcher.matchURL. now rewrite Hbad.
    + now rewrite Check_unmatched.
  - intros r current s1 Hfirst Hinc.
    rewrite (Check_charged url_Parse l (Transport.Context req) now (Transport.URL req)
               h r current s1) by assumption.
    split; [|split].
    + intros Hle.
      now replace (current >? Limit r) with false
        by (symmetry; rewrite Z.gtb_ltb; apply Z.ltb_ge; lia).
    + intros Hgt Hstrat.
      replace (current >? Limit r) with true by (symmetry; apply Z.gtb_lt; lia).
      now destruct Hstrat as [-> | ->].
    + intros Hgt HB HQ.
      replace (current >? Limit r) with true by (symmetry; apply Z.gtb_lt; lia).
      destruct (Z.eqb_spec (Strategy r) Strategy.Block); [contradiction|].
      now destruct (Z.eqb_spec (Strategy r) Strategy.BlockWithQueue); [contradiction|].
  - intros r current e s1 Hfirst Hinc.
    now rewrite (Check_store_error url_Parse l (Transport.Context req) now
                   (Transport.URL req) h r current e s1).
Qed.

End TransportProps.

(* ===================================================================== *)
(** * The limiter on the data of its tests, continued *)
(* ===================================================================== *)

Section LimiterMoreRuns.
Import GoInt Contract ContractMore LimiterView UsageView.
Import Limiter Fixtures MoreFixtures.

Lemma limiter3_resources : resources limiter3 = [test_api].
Proof. vm_compute. reflexivity. Qed.

Lemma limiter3_healthy : MemoryView.healthy (store limiter3).
Proof.
  destruct (Check_seq_store url_Parse Background test_api "2024-01-15T14:30"
              limiter0 [(now0, url0); (now0, url0); (now0, url0)] limiter0 [] 0
              eq_refl) as (_ & Hs & _).
  - repeat constructor; simpl; auto using url0_first_match, now0_bucket.
  - apply Memory_empty_healthy.
  - reflexivity.
  - reflexivity.
  - vm_compute. discriminate.
  - exact Hs.
Qed.

Lemma test_api_first_named (l : Limiter.t MemoryStore.t (list (Resource * Z))) :
  resources l = [test_api] -> first_named l "test-api" test_api.
Proof. intros Hres. exists [], []. split; [exact Hres|]. split; [constructor | reflexivity]. Qed.

(** A URL that does not parse passes a catch-all resource of limit 0. *)
Lemma Check_fails_open_witness :
  let l := Register (New MemoryStore.NewMemoryStore None) catch_all in
  Check (fun _ => None) l Background now0 "http://[::1" tt = (None, l, tt).
Proof.
  intros l.
  apply (Check_fails_open (fun _ => None) l Background now0 "http://[::1" tt).
  left. reflexivity.
Defined.

(** [url0] is charged to [test_api] also after a catch-all resource has
    been registered behind it. *)
Lemma Register_precedence_witness :
  Check url_Parse (Register limiter0 catch_all) Background now0 url0 []
  = (let '(e, l1, h1) := Check url_Parse limiter0 Background now0 url0 [] in
     (e, Register l1 catch_all, h1)).
Proof.
  apply (proj1 (Register_precedence url_Parse limiter0 catch_all Background now0
                  url0 [])).
  exists test_api. now apply url0_first_match.
Defined.

(** A [LogOnly] resource over a closed database: the check fails. *)
Lemma Check_store_failure_blocks_witness :
  let l := Register (New closed_db None) log_api in
  Check url_Parse l Background now0 "https://api.logged.com/endpoint" tt
    = (Some (Errorf "erl: store error: " SQLiteStore.errDBClosed),
       with_store l closed_db, tt)
  /\ Error (Errorf "erl: store error: " SQLiteStore.errDBClosed)
     = "erl: store error: " +:+ Error SQLiteStore.errDBClosed
  /\ errors_Is (Errorf "erl: store error: " SQLiteStore.errDBClosed)
       SQLiteStore.errDBClosed = true
  /\ errors_Is (Errorf "erl: store error: " SQLiteStore.errDBClosed) ErrLimitExceeded
     = errors_Is SQLiteStore.errDBClosed ErrLimitExceeded.
Proof.
  intros l.
  apply (Check_store_failure_blocks url_Parse l Background now0
           "https://api.logged.com/endpoint" tt log_api 0).
  - exists [], []. split; [reflexivity|]. split; [constructor | vm_compute; reflexivity].
  - reflexivity.
Defined.

(** The fourth check of [url0], a blocked one, moves the counter from 3
    to 4. *)
Lemma Check_counts_one_counter_witness :
  let l' := (Check url_Parse limiter3 Background now0 url0 []).1.2 in
  resources l' = resources limiter3
  /\ onLimitReached l' = onLimitReached limiter3
  /\ MemoryView.healthy (store l')
  /\ MemoryView.entry (store l') (Name test_api)
     = Some (counted (MemoryView.entry (store limiter3) (Name test_api))
               (Window.BucketKey (Window test_api) now0) + 1,
             Window.BucketKey (Window test_api) now0)
  /\ (forall key, key <> Name test_api ->
        MemoryView.entry (store l') key = MemoryView.entry (store limiter3) key).
Proof.
  apply (@Check_counts_one_counter MemoryStore.t _ Memory_Counting _ url_Parse
           limiter3 Background now0 url0 [] test_api).
  - apply url0_first_match, limiter3_resources.
  - apply limiter3_healthy.
  - reflexivity.
  - vm_compute. reflexivity.
Defined.

Lemma GetUsage_reads_first_named_witness :
  GetUsage quote limiter0 Background now0 "stripe"
  = ((0, Some (ErrorString ("erl: resource " +:+ quote "stripe" +:+ " not found"))),
     limiter0).
Proof.
  apply (proj1 (@GetUsage_reads_first_named MemoryStore.t _ Memory_Counting _ quote
                  Memory_Reading limiter0 Background now0 "stripe")).
  repeat constructor. discriminate.
Defined.

(** Five checks against the limit of 3: the usage is 5. *)
Lemma GetUsage_counts_blocked_checks_witness :
  let calls := [(now0, url0); (now0, url0); (now0, url0); (now0, url0); (now0, url0)] in
  let l' := (Check_seq url_Parse limiter0 Background calls []).1.2 in
  GetUsage quote l' Background now0 (Name test_api)
  = ((Z.of_nat (length calls), None), l').
Proof.
  intros calls.
  apply (@GetUsage_counts_blocked_checks MemoryStore.t _ Memory_Counting _ url_Parse
           quote Memory_Reading limiter0 Background calls [] test_api
           "2024-01-15T14:30" now0).
  - repeat constructor; simpl; auto using url0_first_match, now0_bucket.
  - now apply test_api_first_named.
  - apply Memory_empty_healthy.
  - reflexivity.
  - reflexivity.
  - vm_compute. discriminate.
  - apply now0_bucket.
Defined.

(** TestLimiterResetUsage: after the limit has been reached, a reset
    lets the next check pass. *)
Lemma ResetUsage_restarts_count_witness :
  exists l1,
    ResetUsage limiter3 Background (Name test_api) = (None, l1)
    /\ resources l1 = resources limiter3
    /\ MemoryView.entry (store l1) (Name test_api) = None
    /\ (forall key, key <> Name test_api ->
          MemoryView.entry (store l1) key = MemoryView.entry (store limiter3) key)
    /\ (first_match url_Parse limiter3 url0 test_api -> 1 <= Limit test_api ->
        exists l2,
          Check url_Parse l1 Background now0 url0 [] = (None, l2, [])
          /\ MemoryView.entry (store l2) (Name test_api)
             = Some (1, Window.BucketKey (Window test_api) now0)).
Proof.
  apply (@ResetUsage_restarts_count MemoryStore.t _ Memory_Counting _ url_Parse
           Memory_Resetting limiter3 Background now0 url0 [] test_api).
  - apply limiter3_healthy.
  - reflexivity.
Defined.

Lemma Snapshot_lists_every_resource_witness :
  Introspection.Snapshot limiter3 Background now0
    = ((Some (map (@status_at _ _ Memory_Counting (store limiter3) now0)
                (resources limiter3)), None), limiter3)
  /\ (forall r, first_named limiter3 (Name r) r ->
        (GetUsage quote limiter3 Background now0 (Name r)).1
        = (ResourceStatus.Current
             (@status_at _ _ Memory_Counting (store limiter3) now0 r), None)).
Proof.
  apply (@Snapshot_lists_every_resource MemoryStore.t _ Memory_Counting _ quote
           Memory_Reading limiter3 Background now0).
  - apply limiter3_healthy.
  - reflexivity.
Defined.

Lemma Snapshot_first_error_witness :
  let l := Register (New closed_db (@None (Resource -> Z -> unit -> unit))) test_api in
  Introspection.Snapshot l Background now0
    = ((None, Some (Errorf ("erl: snapshot " +:+ Name test_api +:+ ": ")
                      SQLiteStore.errDBClosed)), with_store l closed_db)
  /\ errors_Is (Errorf ("erl: snapshot " +:+ Name test_api +:+ ": ")
                  SQLiteStore.errDBClosed) SQLiteStore.errDBClosed = true.
Proof.
  intros l.
  apply (Snapshot_first_error l Background now0 test_api [] 0).
  - reflexivity.
  - reflexivity.
Defined.

(** TestTransportBlocksRequests: the request past the limit does not
    reach the server. *)
Lemma RoundTrip_gates_base_witness :
  let req := {| Transport.Context := Background; Transport.URL := url0 |} in
  let s1 := (MemoryStore.Increment (store limiter3) Background "test-api"
               (window_at test_api now0)).2 in
  Transport.RoundTrip url_Parse ok_base limiter3 now0 req []
  = ((None, Some (LimitExceededError test_api 4 (reset_at test_api now0))),
     with_store limiter3 s1, fire (onLimitReached limiter3) test_api 4 []).
Proof.
  intros req s1.
  destruct (proj1 (proj2 (RoundTrip_gates_base url_Parse ok_base limiter3 now0 req []))
              test_api 4 s1) as (_ & Hblocked & _).
  - apply url0_first_match, limiter3_resources.
  - vm_compute. reflexivity.
  - apply Hblocked; [reflexivity | left; reflexivity].
Defined.

End LimiterMoreRuns.
